(** * dashapi: client side of the dashboard protocol

    A verification development for [dashboard/dashapi/dashapi.go]: the
    record types exchanged with the dashboard, the transport function
    [Query] and the [Dashboard] facade built on it.

    Conventions.  A Go [string] is a [string]; a Go [[]byte] is a
    [list byte]; a slice that may be [nil] is an [option (list _)]; an
    [error] is represented by its message ([err.Error()]) and a nilable
    [error] by [option error].  An [interface{}] argument is an [option]
    of its dynamic value.  Functions of the Go standard library that the
    file calls are modelled in the modules [url], [http], [utf8],
    [base64], [strconv] and [json], or taken as parameters where their
    algorithm plays no role: the class [Library] (the JSON functions
    and gzip as [Query] sees them) and Section variables
    ([fmt.Sprintf], the network). *)

From Stdlib Require Import ZArith String Ascii Strings.Byte List Lia Zify.
From Stdlib Require Import DecimalZ DecimalFacts DecimalPos DecimalN.
From stdpp Require Import base option gmap strings list.
Import ListNotations.
Local Open Scope string_scope.
Local Open Scope list_scope.

Set Default Proof Using "Type".

(** [lia] with division and remainder by constants. *)
Ltac Zify.zify_post_hook ::= Z.to_euclidean_division_equations.

(** ** Go basics *)

#[global] Instance byte_eq_dec : EqDecision byte := Byte.byte_eq_dec.

Definition error : Type := string.

Inductive res (A : Type) : Type :=
| Ok (a : A)
| Err (e : error).
Arguments Ok {A} a.
Arguments Err {A} e.

(** [fmt.Errorf(prefix + "%v", err)]: the message of the new error. *)
Definition Errorf {A} (prefix : string) (r : res A) : res A :=
  match r with
  | Ok a => Ok a
  | Err e => Err (prefix +:+ e)
  end.

(** [strings.HasPrefix(s, prefix)]. *)
Definition HasPrefix (s prefix : string) : bool := String.prefix prefix s.

(** [s] occurs in [t] as a contiguous substring. *)
Definition contains (t s : string) : Prop :=
  exists pre post, t = pre +:+ s +:+ post.

(** ** net/url: query escaping and [url.Values] *)

Module url.

Definition is_alnum (c : ascii) : bool :=
  let n := N_of_ascii c in
  ((48 <=? n) && (n <=? 57) || (65 <=? n) && (n <=? 90)
   || (97 <=? n) && (n <=? 122))%N.

(** [shouldEscape(c, encodeQueryComponent)]: everything but the
    unreserved characters is escaped in a query component. *)
Definition shouldEscape (c : ascii) : bool :=
  if is_alnum c then false
  else match c with
       | "-"%char | "_"%char | "."%char | "~"%char => false
       | _ => true
       end.

Definition upperhex (n : N) : ascii :=
  match n with
  | 0%N => "0" | 1%N => "1" | 2%N => "2" | 3%N => "3" | 4%N => "4"
  | 5%N => "5" | 6%N => "6" | 7%N => "7" | 8%N => "8" | 9%N => "9"
  | 10%N => "A" | 11%N => "B" | 12%N => "C" | 13%N => "D" | 14%N => "E"
  | _ => "F"
  end%char.

(** [url.QueryEscape]. *)
Fixpoint QueryEscape (s : string) : string :=
  match s with
  | EmptyString => EmptyString
  | String c rest =>
      if shouldEscape c then
        if Ascii.eqb c " " then String "+" (QueryEscape rest)
        else String "%" (String (upperhex (N_of_ascii c / 16))
               (String (upperhex (N_of_ascii c mod 16)) (QueryEscape rest)))
      else String c (QueryEscape rest)
  end.

Definition unhex (c : ascii) : option N :=
  let n := N_of_ascii c in
  if ((48 <=? n) && (n <=? 57))%N then Some (n - 48)%N
  else if ((97 <=? n) && (n <=? 102))%N then Some (n - 97 + 10)%N
  else if ((65 <=? n) && (n <=? 70))%N then Some (n - 65 + 10)%N
  else None.

(** [url.QueryUnescape]: [None] stands for an [EscapeError]. *)
Fixpoint QueryUnescape (s : string) : option string :=
  match s with
  | EmptyString => Some EmptyString
  | String "%" (String h (String l rest)) =>
      match unhex h, unhex l, QueryUnescape rest with
      | Some a, Some b, Some r => Some (String (ascii_of_N (a * 16 + b)) r)
      | _, _, _ => None
      end
  | String "%" _ => None
  | String "+" rest => option_map (String " ") (QueryUnescape rest)
  | String c rest => option_map (String c) (QueryUnescape rest)
  end.

(** [url.Values] is a [map[string][]string]; the association list
    keeps one entry per key. *)
Definition Values : Type := list (string * list string).

Definition make : Values := [].

(** [v.Add(key, value)]: [v[key] = append(v[key], value)]. *)
Fixpoint Add (v : Values) (key value : string) : Values :=
  match v with
  | [] => [(key, [value])]
  | (k, vs) :: rest =>
      if String.eqb k key then (k, vs ++ [value]) :: rest
      else (k, vs) :: Add rest key value
  end.

(** [sort.Strings] on the keys, carried with their values. *)
Fixpoint insert_sorted (e : string * list string) (v : Values) : Values :=
  match v with
  | [] => [e]
  | e' :: rest =>
      if String.leb (fst e) (fst e') then e :: e' :: rest
      else e' :: insert_sorted e rest
  end.

Definition sorted (v : Values) : Values := fold_right insert_sorted [] v.

(** One step of the loop of [Encode]: ['&'] unless the buffer is
    empty, then [key=value], both escaped. *)
Definition write_pair (buf : string) (key value : string) : string :=
  (if String.eqb buf "" then "" else buf +:+ "&")
    +:+ QueryEscape key +:+ "=" +:+ QueryEscape value.

(** [v.Encode()]: the pairs in key order, [&]-separated. *)
Definition Encode (v : Values) : string :=
  fold_left
    (fun buf '(k, vs) => fold_left (fun buf x => write_pair buf k x) vs buf)
    (sorted v) "".

(** The part of [s] before the first separator, and the part after
    it, if there is one. *)
Fixpoint cut (sep : ascii -> bool) (s : string) : string * option string :=
  match s with
  | EmptyString => (EmptyString, None)
  | String c rest =>
      if sep c then (EmptyString, Some rest)
      else let '(a, b) := cut sep rest in (String c a, b)
  end.

(** The loop of [parseQuery]: the pairs are separated by [&] or [;], a
    key from its value by the first [=]; a pair that cannot be
    unescaped is skipped, and the first such error is the one
    returned. *)
Fixpoint parseQuery (fuel : nat) (m : Values) (query : string)
  : Values * option error :=
  match fuel with
  | 0 => (m, None)
  | S fuel =>
      if String.eqb query "" then (m, None)
      else
        let '(key, rest) :=
          cut (fun c => Ascii.eqb c "&" || Ascii.eqb c ";") query in
        let query := match rest with Some q => q | None => "" end in
        if String.eqb key "" then parseQuery fuel m query
        else
          let '(key, value) :=
            match cut (fun c => Ascii.eqb c "=") key with
            | (k, Some v) => (k, v)
            | (k, None) => (k, "")
            end in
          match QueryUnescape key, QueryUnescape value with
          | Some k, Some v => parseQuery fuel (Add m k v) query
          | _, _ =>
              (fst (parseQuery fuel m query), Some "invalid URL escape")
          end
  end.

(** [url.ParseQuery]. *)
Definition ParseQuery (query : string) : Values * option error :=
  parseQuery (S (String.length query)) make query.

End url.

(** ** net/http: requests, responses and body streams *)

Module http.

(** [http.Header]: [map[string][]string]. *)
Definition Header : Type := gmap string (list string).

(** [h.Set(key, value)]; both keys used below are in canonical form. *)
Definition Set_ (h : Header) (key value : string) : Header :=
  <[key := [value]]> h.

Record Request : Type := mkRequest {
  Method : string;
  URL : string;
  ReqHeader : Header;
  ReqBody : option (list byte)   (* [nil], or a reader over the bytes *)
}.

Definition set_header (r : Request) (key value : string) : Request :=
  mkRequest (Method r) (URL r) (Set_ (ReqHeader r) key value) (ReqBody r).

(** An [io.ReadCloser]: the bytes it delivers, then [io.EOF]
    ([failure = None]) or a read error. *)
Record reader : Type := mkReader {
  content : list byte;
  failure : option error
}.

Record Response : Type := mkResponse {
  Status : string;      (* e.g. "200 OK" *)
  StatusCode : Z;
  Body : reader
}.

Definition StatusOK : Z := 200.

(** [ioutil.ReadAll]: what was read before the stream ended, and the
    error that ended it, if any. *)
Definition ReadAll (r : reader) : list byte * option error :=
  (content r, failure r).

End http.


(** ** unicode/utf8 *)

Module utf8.

Definition code (b : byte) : N := Byte.to_N b.

(** The byte with code [n mod 256]. *)
Definition byte_of (n : N) : byte :=
  match Byte.of_N (n mod 256) with
  | Some b => b
  | None => x00
  end.

Definition RuneError : N := 0xFFFD.
Definition RuneSelf : N := 0x80.
Definition MaxRune : N := 0x10FFFF.

Definition between (lo n hi : N) : bool := ((lo <=? n) && (n <=? hi))%N.

(** A continuation byte: [10xxxxxx]. *)
Definition is_cont (b : byte) : bool := between 0x80 (code b) 0xBF.

(** The range accepted for the second byte, by first byte
    ([acceptRanges]): overlong forms, surrogates and values above
    [MaxRune] are excluded here. *)
Definition accept_lo (c0 : N) : N :=
  if (c0 =? 0xE0)%N then 0xA0 else if (c0 =? 0xF0)%N then 0x90 else 0x80.
Definition accept_hi (c0 : N) : N :=
  if (c0 =? 0xED)%N then 0x9F else if (c0 =? 0xF4)%N then 0x8F else 0xBF.

(** [utf8.DecodeRune]: the first rune of [s] and its width in bytes;
    [(RuneError, 1)] on an invalid encoding, [(RuneError, 0)] on the
    empty input. *)
Definition DecodeRune (s : list byte) : N * nat :=
  match s with
  | [] => (RuneError, 0)
  | b0 :: t =>
      let c0 := code b0 in
      if (c0 <? RuneSelf)%N then (c0, 1)
      else if between 0xC2 c0 0xDF then
        match t with
        | b1 :: _ =>
            if between (accept_lo c0) (code b1) (accept_hi c0) then
              (N.lor (N.shiftl (N.land c0 0x1F) 6) (N.land (code b1) 0x3F), 2)
            else (RuneError, 1)
        | _ => (RuneError, 1)
        end
      else if between 0xE0 c0 0xEF then
        match t with
        | b1 :: b2 :: _ =>
            if between (accept_lo c0) (code b1) (accept_hi c0)
               && is_cont b2 then
              (N.lor (N.lor (N.shiftl (N.land c0 0x0F) 12)
                        (N.shiftl (N.land (code b1) 0x3F) 6))
                 (N.land (code b2) 0x3F), 3)
            else (RuneError, 1)
        | _ => (RuneError, 1)
        end
      else if between 0xF0 c0 0xF4 then
        match t with
        | b1 :: b2 :: b3 :: _ =>
            if between (accept_lo c0) (code b1) (accept_hi c0)
               && is_cont b2 && is_cont b3 then
              (N.lor (N.lor (N.lor (N.shiftl (N.land c0 0x07) 18)
                               (N.shiftl (N.land (code b1) 0x3F) 12))
                        (N.shiftl (N.land (code b2) 0x3F) 6))
                 (N.land (code b3) 0x3F), 4)
            else (RuneError, 1)
        | _ => (RuneError, 1)
        end
      else (RuneError, 1)
  end.

Definition is_surrogate (r : N) : bool := between 0xD800 r 0xDFFF.

(** [utf8.EncodeRune]; an invalid rune is written as [RuneError]. *)
Definition EncodeRune (r : N) : list byte :=
  if (r <=? 0x7F)%N then [byte_of r]
  else if (r <=? 0x7FF)%N then
    [byte_of (N.lor 0xC0 (N.shiftr r 6));
     byte_of (N.lor 0x80 (N.land r 0x3F))]
  else if (MaxRune <? r)%N || is_surrogate r then [xef; xbf; xbd]
  else if (r <=? 0xFFFF)%N then
    [byte_of (N.lor 0xE0 (N.shiftr r 12));
     byte_of (N.lor 0x80 (N.land (N.shiftr r 6) 0x3F));
     byte_of (N.lor 0x80 (N.land r 0x3F))]
  else
    [byte_of (N.lor 0xF0 (N.shiftr r 18));
     byte_of (N.lor 0x80 (N.land (N.shiftr r 12) 0x3F));
     byte_of (N.lor 0x80 (N.land (N.shiftr r 6) 0x3F));
     byte_of (N.lor 0x80 (N.land r 0x3F))].

(** [utf8.Valid], with fuel for the walk over the runes. *)
Fixpoint Valid_fuel (fuel : nat) (s : list byte) : bool :=
  match fuel, s with
  | _, [] => true
  | 0, _ => false
  | S fuel, _ =>
      match DecodeRune s with
      | (r, size) =>
          if (r =? RuneError)%N && Nat.eqb size 1 then false
          else Valid_fuel fuel (skipn size s)
      end
  end.

Definition Valid (s : list byte) : bool := Valid_fuel (length s) s.

Definition ValidString (s : string) : bool := Valid (list_byte_of_string s).

End utf8.

(** ** encoding/base64 and strconv *)

Module base64.

Import utf8.

(** The alphabet of [StdEncoding]. *)
Definition encode_char (v : N) : byte :=
  if (v <? 26)%N then byte_of (v + 0x41)
  else if (v <? 52)%N then byte_of (v - 26 + 0x61)
  else if (v <? 62)%N then byte_of (v - 52 + 0x30)
  else if (v =? 62)%N then x2b
  else x2f.

Definition decode_char (b : byte) : option N :=
  let n := code b in
  if between 0x41 n 0x5A then Some (n - 0x41)%N
  else if between 0x61 n 0x7A then Some (n - 0x61 + 26)%N
  else if between 0x30 n 0x39 then Some (n - 0x30 + 52)%N
  else if Byte.eqb b x2b then Some 62%N
  else if Byte.eqb b x2f then Some 63%N
  else None.

Definition pad : byte := x3d.

(** [StdEncoding.EncodeToString]: three bytes give four characters; a
    last group of one or two bytes is padded. *)
Fixpoint Encode (src : list byte) : list byte :=
  match src with
  | [] => []
  | [a] =>
      let val := (code a * 65536)%N in
      [encode_char (val / 262144); encode_char ((val / 4096) mod 64); pad; pad]
  | [a; b] =>
      let val := (code a * 65536 + code b * 256)%N in
      [encode_char (val / 262144); encode_char ((val / 4096) mod 64);
       encode_char ((val / 64) mod 64); pad]
  | a :: b :: c :: rest =>
      let val := (code a * 65536 + code b * 256 + code c)%N in
      encode_char (val / 262144) :: encode_char ((val / 4096) mod 64)
        :: encode_char ((val / 64) mod 64) :: encode_char (val mod 64)
        :: Encode rest
  end.

(** The quanta of four characters, padding allowed in the last one
    only.  Trailing bits of a padded quantum are not checked. *)
Fixpoint decode_quanta (s : list byte) : option (list byte) :=
  match s with
  | [] => Some []
  | a :: b :: c :: d :: rest =>
      match decode_char a, decode_char b with
      | Some va, Some vb =>
          if Byte.eqb c pad then
            if Byte.eqb d pad && bool_decide (rest = []) then
              let val := (va * 262144 + vb * 4096)%N in
              Some [byte_of (val / 65536)]
            else None
          else
            match decode_char c with
            | Some vc =>
                if Byte.eqb d pad then
                  if bool_decide (rest = []) then
                    let val := (va * 262144 + vb * 4096 + vc * 64)%N in
                    Some [byte_of (val / 65536); byte_of ((val / 256) mod 256)]
                  else None
                else
                  match decode_char d, decode_quanta rest with
                  | Some vd, Some tail =>
                      let val := (va * 262144 + vb * 4096 + vc * 64 + vd)%N in
                      Some (byte_of (val / 65536)
                              :: byte_of ((val / 256) mod 256)
                              :: byte_of (val mod 256) :: tail)
                  | _, _ => None
                  end
            | None => None
            end
      | _, _ => None
      end
  | _ => None
  end.

(** [StdEncoding.Decode]: carriage returns and line feeds are skipped. *)
Definition Decode (s : list byte) : option (list byte) :=
  decode_quanta
    (List.filter (fun b => negb (Byte.eqb b x0d || Byte.eqb b x0a)) s).

End base64.

Module strconv.

Import utf8.

Definition digit_byte (n : N) : byte := byte_of (n + 0x30).

Fixpoint uint_bytes (d : Decimal.uint) : list byte :=
  match d with
  | Decimal.Nil => []
  | Decimal.D0 d => x30 :: uint_bytes d
  | Decimal.D1 d => x31 :: uint_bytes d
  | Decimal.D2 d => x32 :: uint_bytes d
  | Decimal.D3 d => x33 :: uint_bytes d
  | Decimal.D4 d => x34 :: uint_bytes d
  | Decimal.D5 d => x35 :: uint_bytes d
  | Decimal.D6 d => x36 :: uint_bytes d
  | Decimal.D7 d => x37 :: uint_bytes d
  | Decimal.D8 d => x38 :: uint_bytes d
  | Decimal.D9 d => x39 :: uint_bytes d
  end.

(** [strconv.FormatInt(z, 10)]. *)
Definition FormatInt (z : Z) : list byte :=
  match Z.to_int z with
  | Decimal.Pos d => uint_bytes d
  | Decimal.Neg d => x2d :: uint_bytes d
  end.

Fixpoint bytes_uint (s : list byte) : option Decimal.uint :=
  match s with
  | [] => Some Decimal.Nil
  | b :: rest =>
      match bytes_uint rest with
      | None => None
      | Some d =>
          match b with
          | x30 => Some (Decimal.D0 d) | x31 => Some (Decimal.D1 d)
          | x32 => Some (Decimal.D2 d) | x33 => Some (Decimal.D3 d)
          | x34 => Some (Decimal.D4 d) | x35 => Some (Decimal.D5 d)
          | x36 => Some (Decimal.D6 d) | x37 => Some (Decimal.D7 d)
          | x38 => Some (Decimal.D8 d) | x39 => Some (Decimal.D9 d)
          | _ => None
          end
      end
  end.

(** [strconv.ParseInt(s, 10, 64)]: an optional sign, then digits only;
    [None] on a syntax error or a value out of range. *)
Definition ParseInt (s : list byte) : option Z :=
  let '(neg, ds) :=
    match s with
    | x2d :: t => (true, t)
    | x2b :: t => (false, t)
    | _ => (false, s)
    end in
  match ds, bytes_uint ds with
  | _ :: _, Some d =>
      let z := if neg then (- Z.of_uint d)%Z else Z.of_uint d in
      if ((- 2 ^ 63 <=? z) && (z <=? 2 ^ 63 - 1))%Z then Some z else None
  | _, _ => None
  end.

End strconv.
(** ** encoding/json: documents *)

Module json.

Import utf8 http.

(** A parsed JSON document.  A number keeps its literal; a string
    holds the bytes of the Go string it stands for. *)
#[warnings="-register-all"]
Inductive value : Type :=
| Null
| Bool (b : bool)
| Number (lit : list byte)
| Str (s : list byte)
| Array (elems : list value)
| Object (members : list (list byte * value)).

Definition bytes_of (s : string) : list byte := list_byte_of_string s.

(** *** Writing *)

Definition hex_digit (n : N) : byte :=
  match n with
  | 0 => x30 | 1 => x31 | 2 => x32 | 3 => x33 | 4 => x34
  | 5 => x35 | 6 => x36 | 7 => x37 | 8 => x38 | 9 => x39
  | 10 => x61 | 11 => x62 | 12 => x63 | 13 => x64 | 14 => x65
  | _ => x66
  end%N.

(** [htmlSafeSet]: the ASCII characters written as they are; the
    control characters, the quote, the backslash and [<], [>], [&]
    are escaped. *)
Definition htmlSafe (b : byte) : bool :=
  between 0x20 (code b) 0x7F
  && negb (existsb (Byte.eqb b) [x22; x26; x3c; x3e; x5c]).

(** The escape written for an ASCII character outside [htmlSafeSet].
    Backspace and form feed have their short escapes, as the encoder
    writes them since Go 1.22; earlier releases wrote [\u0008] and
    [\u000c], which read back as the same characters. *)
Definition escape_ascii (b : byte) : list byte :=
  match b with
  | x5c | x22 => [x5c; b]
  | x08 => [x5c; x62]                      (* \b *)
  | x0c => [x5c; x66]                      (* \f *)
  | x0a => [x5c; x6e]                      (* \n *)
  | x0d => [x5c; x72]                      (* \r *)
  | x09 => [x5c; x74]                      (* \t *)
  | _ => [x5c; x75; x30; x30;              (* \u00 *)
          hex_digit (N.shiftr (code b) 4);
          hex_digit (N.land (code b) 0xF)]
  end.

(** The loop of [encodeState.string], rune by rune. *)
Fixpoint encode_runes (fuel : nat) (s : list byte) : list byte :=
  match fuel, s with
  | 0, _ | _, [] => []
  | S fuel, b :: rest =>
      if (code b <? RuneSelf)%N then
        (if htmlSafe b then [b] else escape_ascii b)
          ++ encode_runes fuel rest
      else
        match DecodeRune s with
        | (c, size) =>
            if (c =? RuneError)%N && Nat.eqb size 1 then
              (* invalid UTF-8: the escape of U+FFFD *)
              [x5c; x75; x66; x66; x66; x64] ++ encode_runes fuel rest
            else if (c =? 0x2028)%N || (c =? 0x2029)%N then
              [x5c; x75; x32; x30; x32; hex_digit (N.land c 0xF)]
                ++ encode_runes fuel (skipn size s)
            else firstn size s ++ encode_runes fuel (skipn size s)
        end
  end.

Definition encode_string (s : list byte) : list byte :=
  x22 :: encode_runes (length s) s ++ [x22].

Fixpoint join (sep : list byte) (parts : list (list byte)) : list byte :=
  match parts with
  | [] => []
  | [p] => p
  | p :: rest => p ++ sep ++ join sep rest
  end.

(** The compact text [json.Marshal] writes. *)
Fixpoint print (v : value) : list byte :=
  match v with
  | Null => bytes_of "null"
  | Bool true => bytes_of "true"
  | Bool false => bytes_of "false"
  | Number lit => lit
  | Str s => encode_string s
  | Array elems => x5b :: join [x2c] (map print elems) ++ [x5d]
  | Object members =>
      x7b :: join [x2c]
               (map (fun m => encode_string (fst m) ++ x3a :: print (snd m))
                  members)
          ++ [x7d]
  end.

(** *** Reading *)

(** The result of reading a prefix of the input. *)
Inductive parsed (A : Type) : Type :=
| Parsed (a : A) (rest : list byte)
| Truncated      (* the input ended inside the value *)
| Invalid.       (* a syntax error *)
Arguments Parsed {A} a rest.
Arguments Truncated {A}.
Arguments Invalid {A}.

Definition pmap {A B} (f : A -> B) (p : parsed A) : parsed B :=
  match p with
  | Parsed a rest => Parsed (f a) rest
  | Truncated => Truncated
  | Invalid => Invalid
  end.

Definition is_space (b : byte) : bool :=
  existsb (Byte.eqb b) [x20; x09; x0d; x0a].

Fixpoint skip_space (s : list byte) : list byte :=
  match s with
  | b :: rest => if is_space b then skip_space rest else s
  | [] => []
  end.

Definition unhex (b : byte) : option N :=
  let n := code b in
  if between 0x30 n 0x39 then Some (n - 0x30)%N
  else if between 0x61 n 0x66 then Some (n - 0x61 + 10)%N
  else if between 0x41 n 0x46 then Some (n - 0x41 + 10)%N
  else None.

(** Four hexadecimal digits. *)
Definition hex4 (s : list byte) : parsed N :=
  match s with
  | a :: b :: c :: d :: rest =>
      match unhex a, unhex b, unhex c, unhex d with
      | Some a, Some b, Some c, Some d =>
          Parsed (((a * 16 + b) * 16 + c) * 16 + d)%N rest
      | _, _, _, _ => Invalid
      end
  | _ => if forallb (fun b => bool_decide (is_Some (unhex b))) s
         then Truncated else Invalid
  end.

(** [getu4]: a [\uXXXX] escape at the head of [s]. *)
Definition getu4 (s : list byte) : option (N * list byte) :=
  match s with
  | x5c :: x75 :: t =>
      match hex4 t with
      | Parsed r rest => Some (r, rest)
      | _ => None
      end
  | _ => None
  end.

(** [utf16.DecodeRune]. *)
Definition utf16_DecodeRune (r1 r2 : N) : N :=
  if between 0xD800 r1 0xDBFF && between 0xDC00 r2 0xDFFF then
    (N.lor (N.shiftl (r1 - 0xD800) 10) (r2 - 0xDC00) + 0x10000)%N
  else RuneError.

(** The characters of a string literal after its opening quote, up to
    the closing quote, unquoted as [unquoteBytes] does: escapes are
    resolved and invalid UTF-8 is replaced by [RuneError]. *)
Fixpoint parse_chars (fuel : nat) (s : list byte) : parsed (list byte) :=
  match fuel, s with
  | _, [] => Truncated
  | 0, _ => Invalid
  | S fuel, b :: rest =>
      if Byte.eqb b x22 then Parsed [] rest
      else if Byte.eqb b x5c then
        match rest with
        | [] => Truncated
        | e :: rest' =>
            let simple c := pmap (cons c) (parse_chars fuel rest') in
            match e with
            | x22 | x5c | x2f => simple e
            | x62 => simple x08
            | x66 => simple x0c
            | x6e => simple x0a
            | x72 => simple x0d
            | x74 => simple x09
            | x75 =>
                match hex4 rest' with
                | Parsed rr rest'' =>
                    if is_surrogate rr then
                      match getu4 rest'' with
                      | Some (rr1, rest3) =>
                          let dec := utf16_DecodeRune rr rr1 in
                          if (dec =? RuneError)%N then
                            pmap (app (EncodeRune RuneError))
                              (parse_chars fuel rest'')
                          else
                            pmap (app (EncodeRune dec))
                              (parse_chars fuel rest3)
                      | None =>
                          pmap (app (EncodeRune RuneError))
                            (parse_chars fuel rest'')
                      end
                    else pmap (app (EncodeRune rr)) (parse_chars fuel rest'')
                | Truncated => Truncated
                | Invalid => Invalid
                end
            | _ => Invalid
            end
        end
      else if (code b <? 0x20)%N then Invalid
      else if (code b <? RuneSelf)%N then
        pmap (cons b) (parse_chars fuel rest)
      else
        match DecodeRune s with
        | (rr, size) =>
            pmap (app (EncodeRune rr)) (parse_chars fuel (skipn size s))
        end
  end.

Definition parse_string (s : list byte) : parsed (list byte) :=
  parse_chars (length s) s.

Definition is_digit (b : byte) : bool := between 0x30 (code b) 0x39.

Fixpoint span_digits (s : list byte) : list byte * list byte :=
  match s with
  | b :: rest =>
      if is_digit b then
        let '(ds, r) := span_digits rest in (b :: ds, r)
      else ([], s)
  | [] => ([], [])
  end.

(** One or more digits. *)
Definition digits1 (s : list byte) : parsed (list byte) :=
  match span_digits s with
  | ([], []) => Truncated
  | ([], _) => Invalid
  | (ds, rest) => Parsed ds rest
  end.

Definition number_exp (lit s : list byte) : parsed (list byte) :=
  match s with
  | e :: t =>
      if Byte.eqb e x65 || Byte.eqb e x45 then
        let '(sign, t') :=
          match t with
          | x2b :: t' => ([x2b], t')
          | x2d :: t' => ([x2d], t')
          | _ => ([], t)
          end in
        pmap (fun ds => lit ++ e :: sign ++ ds) (digits1 t')
      else Parsed lit s
  | [] => Parsed lit []
  end.

Definition number_frac (lit s : list byte) : parsed (list byte) :=
  match s with
  | x2e :: t =>
      match digits1 t with
      | Parsed ds rest => number_exp (lit ++ x2e :: ds) rest
      | Truncated => Truncated
      | Invalid => Invalid
      end
  | _ => number_exp lit s
  end.

(** A number literal: an optional minus sign, [0] or digits that do
    not start with [0], an optional fraction, an optional exponent. *)
Definition parse_number (s : list byte) : parsed (list byte) :=
  let '(sign, s1) :=
    match s with
    | x2d :: t => ([x2d], t)
    | _ => ([], s)
    end in
  match s1 with
  | [] => Truncated
  | d :: t =>
      if Byte.eqb d x30 then number_frac (sign ++ [d]) t
      else if is_digit d then
        let '(ds, rest) := span_digits t in
        number_frac (sign ++ d :: ds) rest
      else Invalid
  end.

(** The literal [word], whose first byte was seen. *)
Fixpoint parse_word (word s : list byte) : parsed unit :=
  match word, s with
  | [], _ => Parsed tt s
  | _ :: _, [] => Truncated
  | w :: word, b :: rest =>
      if Byte.eqb w b then parse_word word rest else Invalid
  end.

(** The elements of an array up to its closing bracket, [pv] reading
    one value; [n] bounds their number. *)
Fixpoint parse_elements (pv : list byte -> parsed value) (n : nat)
    (s : list byte) : parsed (list value) :=
  match n with
  | 0 => Invalid
  | S n =>
      match pv s with
      | Parsed v r =>
          match skip_space r with
          | x2c :: r' => pmap (cons v) (parse_elements pv n r')
          | x5d :: r' => Parsed [v] r'
          | [] => Truncated
          | _ => Invalid
          end
      | Truncated => Truncated
      | Invalid => Invalid
      end
  end.

(** The members of an object up to its closing brace. *)
Fixpoint parse_members (pv : list byte -> parsed value) (n : nat)
    (s : list byte) : parsed (list (list byte * value)) :=
  match n with
  | 0 => Invalid
  | S n =>
      match skip_space s with
      | x22 :: t =>
          match parse_string t with
          | Parsed k r =>
              match skip_space r with
              | x3a :: r' =>
                  match pv r' with
                  | Parsed v r'' =>
                      match skip_space r'' with
                      | x2c :: r3 =>
                          pmap (cons (k, v)) (parse_members pv n r3)
                      | x7d :: r3 => Parsed [(k, v)] r3
                      | [] => Truncated
                      | _ => Invalid
                      end
                  | Truncated => Truncated
                  | Invalid => Invalid
                  end
              | [] => Truncated
              | _ => Invalid
              end
          | Truncated => Truncated
          | Invalid => Invalid
          end
      | [] => Truncated
      | _ => Invalid
      end
  end.

(** One value, after optional white space.  [fuel] bounds the nesting
    depth. *)
Fixpoint parse_value (fuel : nat) (s : list byte) : parsed value :=
  match fuel with
  | 0 => Invalid
  | S fuel =>
      match skip_space s with
      | [] => Truncated
      | b :: t =>
          match b with
          | x7b =>
              match skip_space t with
              | x7d :: r => Parsed (Object []) r
              | _ => pmap Object
                       (parse_members (parse_value fuel) (S (length t)) t)
              end
          | x5b =>
              match skip_space t with
              | x5d :: r => Parsed (Array []) r
              | _ => pmap Array
                       (parse_elements (parse_value fuel) (S (length t)) t)
              end
          | x22 => pmap Str (parse_string t)
          | x74 => pmap (fun _ => Bool true) (parse_word (bytes_of "rue") t)
          | x66 => pmap (fun _ => Bool false) (parse_word (bytes_of "alse") t)
          | x6e => pmap (fun _ => Null) (parse_word (bytes_of "ull") t)
          | _ => if Byte.eqb b x2d || is_digit b
                 then pmap Number (parse_number (b :: t))
                 else Invalid
          end
      end
  end.

(** The first value of a stream.  The fuel is enough for any input:
    nesting is not limited, as in the releases of the time of the
    package; since Go 1.15 the scanner refuses a document nested deeper
    than 10000, so what is said below of documents the decoder accepts
    bounds their nesting where it matters. *)
Definition parse (s : list byte) : parsed value :=
  parse_value (S (length s)) s.

(** *** Go values

    How values of the Go types used by the package are written to and
    filled from a document.  [store v old] is [d.value] on a target
    holding [old]: the new content of the target and the error saved,
    if any; after a type mismatch decoding goes on, and the first error
    is the one reported. *)

Definition save (e1 e2 : option error) : option error :=
  match e1 with
  | Some _ => e1
  | None => e2
  end.

Definition describe (v : value) : string :=
  match v with
  | Null => "null"
  | Bool _ => "bool"
  | Number _ => "number"
  | Str _ => "string"
  | Array _ => "array"
  | Object _ => "object"
  end.

(** The message of an [UnmarshalTypeError] as it is for a value at top
    level.  For a value inside a struct the library names the field
    ([Go struct field T.F of type ...]) in a form that changed between
    releases; the model keeps the form above there too, and no
    statement below depends on the text of such a message. *)
Definition type_error (v : value) (ty : string) : error :=
  "json: cannot unmarshal " +:+ describe v +:+ " into Go value of type " +:+ ty.

Record codec (A : Type) : Type := mkCodec {
  go_type : string;
  zero : A;
  encode : A -> value;
  store : value -> A -> A * option error;
  (** The values written without loss: a string that is not valid
      UTF-8 is coerced when it is written, its invalid bytes becoming
      U+FFFD, and an integer has to be in the range of [int]. *)
  valid : A -> Prop
}.
Arguments go_type {A} c.
Arguments zero {A} c.
Arguments encode {A} c a.
Arguments store {A} c v old.
Arguments valid {A} c a.

(** [string]. *)
Definition string_codec : codec string := {|
  go_type := "string";
  zero := "";
  encode := fun s => Str (bytes_of s);
  store := fun v old =>
    match v with
    | Null => (old, None)
    | Str b => (string_of_list_byte b, None)
    | _ => (old, Some (type_error v "string"))
    end;
  valid := fun s => ValidString s = true
|}.

(** [int] and the types defined from it. *)
Definition int_codec (name : string) : codec Z := {|
  go_type := name;
  zero := 0%Z;
  encode := fun z => Number (strconv.FormatInt z);
  store := fun v old =>
    match v with
    | Null => (old, None)
    | Number lit =>
        match strconv.ParseInt lit with
        | Some z => (z, None)
        | None => (old, Some (type_error v name))
        end
    | _ => (old, Some (type_error v name))
    end;
  valid := fun z => (- 2 ^ 63 <= z <= 2 ^ 63 - 1)%Z
|}.

(** [uint8], as an element of a [[]byte] filled from an array. *)
Definition uint8_codec : codec byte := {|
  go_type := "uint8";
  zero := x00;
  encode := fun b => Number (strconv.FormatInt (Z.of_N (code b)));
  store := fun v old =>
    match v with
    | Null => (old, None)
    | Number lit =>
        match lit, strconv.ParseInt lit with
        | x2d :: _, _ => (old, Some (type_error v "uint8"))
        | _, Some z =>
            if (z <=? 255)%Z then (byte_of (Z.to_N z), None)
            else (old, Some (type_error v "uint8"))
        | _, None => (old, Some (type_error v "uint8"))
        end
    | _ => (old, Some (type_error v "uint8"))
    end;
  valid := fun _ => True
|}.

(** The elements of an array, each decoded into the element the slice
    holds at its index, or into a zero value past its length (a slice
    is its elements: what its array holds between its length and its
    capacity is not modelled). *)
Fixpoint store_elems {A} (c : codec A) (vs : list value) (old : list A)
  : list A * option error :=
  match vs with
  | [] => ([], None)
  | v :: vs =>
      let base := match old with a :: _ => a | [] => zero c end in
      let '(a, e) := store c v base in
      let '(rest, e') := store_elems c vs (tl old) in
      (a :: rest, save e e')
  end.

(** A slice [[]T]; [None] is the [nil] slice. *)
Definition slice_codec {A} (c : codec A) : codec (option (list A)) := {|
  go_type := "[]" +:+ go_type c;
  zero := None;
  encode := fun s =>
    match s with
    | None => Null
    | Some l => Array (map (encode c) l)
    end;
  store := fun v old =>
    match v with
    | Null => (None, None)
    | Array vs =>
        let '(l, e) := store_elems c vs (default [] old) in (Some l, e)
    | _ => (old, Some (type_error v ("[]" +:+ go_type c)))
    end;
  valid := fun s =>
    match s with
    | None => True
    | Some l => Forall (valid c) l
    end
|}.

(** [[]byte]: written in base64; filled from a base64 string, or from
    an array of numbers. *)
Definition bytes_codec : codec (option (list byte)) := {|
  go_type := "[]uint8";
  zero := None;
  encode := fun s =>
    match s with
    | None => Null
    | Some b => Str (base64.Encode b)
    end;
  store := fun v old =>
    match v with
    | Null => (None, None)
    | Str s =>
        match base64.Decode s with
        | Some b => (Some b, None)
        | None => (old, Some "illegal base64 data")
        end
    | Array _ => store (slice_codec uint8_codec) v old
    | _ => (old, Some (type_error v "[]uint8"))
    end;
  valid := fun _ => True
|}.

(** A pointer [*T]; [None] is [nil].  A [nil] pointer is pointed to a
    new zero value before the value is decoded.  A pointer is modelled
    by the value it points to: two pointers to one variable are two
    copies here, so what is said of decoding into a target that holds
    pointers already is said of targets without sharing. *)
Definition ptr_codec {A} (c : codec A) : codec (option A) := {|
  go_type := "*" +:+ go_type c;
  zero := None;
  encode := fun p =>
    match p with
    | None => Null
    | Some a => encode c a
    end;
  store := fun v old =>
    match v with
    | Null => (None, None)
    | _ =>
        let '(a, e) := store c v (default (zero c) old) in (Some a, e)
    end;
  valid := fun p =>
    match p with
    | None => True
    | Some a => valid c a
    end
|}.

(** A field of a struct [T]: its name, the codec of its type, and how
    it is read and assigned. *)
Record field (T : Type) : Type := mkField {
  fname : string;
  ftype : Type;
  fcodec : codec ftype;
  fget : T -> ftype;
  fset : ftype -> T -> T
}.
Arguments mkField {T} fname {ftype} fcodec fget fset.
Arguments fname {T} f.
Arguments ftype {T} f.
Arguments fcodec {T} f.
Arguments fget {T} f t.
Arguments fset {T} f a t.

(** [equalFoldRight]: the key [t] against the field name [s], letters
    without regard to case; the Kelvin sign folds to [k] and the long s
    to [s]. *)
Fixpoint equal_fold (s t : list byte) : bool :=
  match s with
  | [] => bool_decide (t = [])
  | sb :: s' =>
      match t with
      | [] => false
      | tb :: t' =>
          if (code tb <? RuneSelf)%N then
            (Byte.eqb sb tb
             || (let up := N.land (code sb) 0xDF in
                 between 0x41 up 0x5A && (up =? N.land (code tb) 0xDF)%N))
            && equal_fold s' t'
          else
            match DecodeRune t with
            | (tr, size) =>
                ((existsb (Byte.eqb sb) [x73; x53] && (tr =? 0x17F)%N)
                 || (existsb (Byte.eqb sb) [x6b; x4b] && (tr =? 0x212A)%N))
                && equal_fold s' (skipn (size - 1) t')
            end
      end
  end.

(** The field a key names: the one that matches exactly, else the
    first that matches up to case. *)
Definition find_field {T} (fields : list (field T)) (key : list byte)
  : option (field T) :=
  match find (fun f => bool_decide (bytes_of (fname f) = key)) fields with
  | Some f => Some f
  | None => find (fun f => equal_fold (bytes_of (fname f)) key) fields
  end.

Definition store_member {T} (fields : list (field T))
    (acc : T * option error) (m : list byte * value) : T * option error :=
  match find_field fields (fst m) with
  | Some f =>
      let '(a, e) := store (fcodec f) (snd m) (fget f (fst acc)) in
      (fset f a (fst acc), save (snd acc) e)
  | None => acc
  end.

(** A struct with the given fields, all exported and without tags. *)
Definition struct_codec {T} (name : string) (z : T) (fields : list (field T))
  : codec T := {|
  go_type := name;
  zero := z;
  encode := fun t =>
    Object (map (fun f => (bytes_of (fname f), encode (fcodec f) (fget f t)))
              fields);
  store := fun v old =>
    match v with
    | Null => (old, None)
    | Object ms => fold_left (store_member fields) ms (old, None)
    | _ => (old, Some (type_error v name))
    end;
  valid := fun t => Forall (fun f => valid (fcodec f) (fget f t)) fields
|}.

(** [json.Marshal]; it cannot fail on the types modelled here. *)
Definition Marshal {A} (c : codec A) (a : A) : list byte := print (encode c a).

(** [json.Unmarshal(data, &v)]: [data] is checked to be one document,
    then stored. *)
Definition Unmarshal {A} (c : codec A) (data : list byte) (v : A)
  : A * option error :=
  match parse data with
  | Parsed doc rest =>
      if forallb is_space rest then store c doc v
      else (v, Some "invalid character after top-level value")
  | Truncated => (v, Some "unexpected end of JSON input")
  | Invalid => (v, Some "invalid character in JSON input")
  end.

(** [json.NewDecoder(r).Decode(&v)]: the first document of the stream;
    what follows it is not looked at.  A document that is not closed by
    a bracket is only known to be complete when the stream goes on or
    ends with [io.EOF]. *)
Definition Decode {A} (c : codec A) (r : reader) (v : A)
  : A * option error :=
  match parse (content r) with
  | Parsed doc rest =>
      match doc, rest, failure r with
      | (Array _ | Object _), _, _ | _, _ :: _, _ | _, _, None =>
          store c doc v
      | _, [], Some e => (v, Some e)
      end
  | Truncated =>
      (v, Some match failure r with
               | Some e => e
               | None => if forallb is_space (content r) then "EOF"
                         else "unexpected EOF"
               end)
  | Invalid => (v, Some "invalid character in JSON input")
  end.

End json.

(** ** The data model

    Each record comes with its zero value, its fields as [encoding/json]
    sees them (all exported, in declaration order, under their Go names)
    and the codec built from them. *)

(** [BugStatus] and [ReproLevel] are Go [int]s: 64-bit signed. *)
Definition int_min : Z := (- 2 ^ 63)%Z.
Definition int_max : Z := (2 ^ 63 - 1)%Z.
Definition is_int (z : Z) : Prop := (int_min <= z <= int_max)%Z.

Definition BugStatus : Type := Z.
Definition ReproLevel : Type := Z.

Definition BugStatusOpen : BugStatus := 0%Z.
Definition BugStatusUpstream : BugStatus := 1%Z.
Definition BugStatusInvalid : BugStatus := 2%Z.
Definition BugStatusDup : BugStatus := 3%Z.

Definition ReproLevelNone : ReproLevel := 0%Z.
Definition ReproLevelSyz : ReproLevel := 1%Z.
Definition ReproLevelC : ReproLevel := 2%Z.

(** [Build] describes all aspects of a kernel build. *)
Module Build.

Record t : Type := mk {
  Manager : string;
  ID : string;
  SyzkallerCommit : string;
  CompilerID : string;
  KernelRepo : string;
  KernelBranch : string;
  KernelCommit : string;
  KernelConfig : option (list byte)
}.

Definition zero : t :=
  mk "" "" "" "" "" "" "" None.

Definition fields : list (json.field t) := [
  json.mkField "Manager" json.string_codec Manager
    (fun a x => mk a (ID x) (SyzkallerCommit x) (CompilerID x) (KernelRepo x) (KernelBranch x) (KernelCommit x) (KernelConfig x));
  json.mkField "ID" json.string_codec ID
    (fun a x => mk (Manager x) a (SyzkallerCommit x) (CompilerID x) (KernelRepo x) (KernelBranch x) (KernelCommit x) (KernelConfig x));
  json.mkField "SyzkallerCommit" json.string_codec SyzkallerCommit
    (fun a x => mk (Manager x) (ID x) a (CompilerID x) (KernelRepo x) (KernelBranch x) (KernelCommit x) (KernelConfig x));
  json.mkField "CompilerID" json.string_codec CompilerID
    (fun a x => mk (Manager x) (ID x) (SyzkallerCommit x) a (KernelRepo x) (KernelBranch x) (KernelCommit x) (KernelConfig x));
  json.mkField "KernelRepo" json.string_codec KernelRepo
    (fun a x => mk (Manager x) (ID x) (SyzkallerCommit x) (CompilerID x) a (KernelBranch x) (KernelCommit x) (KernelConfig x));
  json.mkField "KernelBranch" json.string_codec KernelBranch
    (fun a x => mk (Manager x) (ID x) (SyzkallerCommit x) (CompilerID x) (KernelRepo x) a (KernelCommit x) (KernelConfig x));
  json.mkField "KernelCommit" json.string_codec KernelCommit
    (fun a x => mk (Manager x) (ID x) (SyzkallerCommit x) (CompilerID x) (KernelRepo x) (KernelBranch x) a (KernelConfig x));
  json.mkField "KernelConfig" json.bytes_codec KernelConfig
    (fun a x => mk (Manager x) (ID x) (SyzkallerCommit x) (CompilerID x) (KernelRepo x) (KernelBranch x) (KernelCommit x) a)
].

Definition codec : json.codec t :=
  json.struct_codec "dashapi.Build" zero fields.

End Build.

(** [Crash] describes a single kernel crash (potentially with repro). *)
Module Crash.

Record t : Type := mk {
  BuildID : string;
  Title : string;
  Maintainers : option (list string);
  Log : option (list byte);
  Report : option (list byte);
  ReproOpts : option (list byte);
  ReproSyz : option (list byte);
  ReproC : option (list byte)
}.

Definition zero : t :=
  mk "" "" None None None None None None.

Definition fields : list (json.field t) := [
  json.mkField "BuildID" json.string_codec BuildID
    (fun a x => mk a (Title x) (Maintainers x) (Log x) (Report x) (ReproOpts x) (ReproSyz x) (ReproC x));
  json.mkField "Title" json.string_codec Title
    (fun a x => mk (BuildID x) a (Maintainers x) (Log x) (Report x) (ReproOpts x) (ReproSyz x) (ReproC x));
  json.mkField "Maintainers" (json.slice_codec json.string_codec) Maintainers
    (fun a x => mk (BuildID x) (Title x) a (Log x) (Report x) (ReproOpts x) (ReproSyz x) (ReproC x));
  json.mkField "Log" json.bytes_codec Log
    (fun a x => mk (BuildID x) (Title x) (Maintainers x) a (Report x) (ReproOpts x) (ReproSyz x) (ReproC x));
  json.mkField "Report" json.bytes_codec Report
    (fun a x => mk (BuildID x) (Title x) (Maintainers x) (Log x) a (ReproOpts x) (ReproSyz x) (ReproC x));
  json.mkField "ReproOpts" json.bytes_codec ReproOpts
    (fun a x => mk (BuildID x) (Title x) (Maintainers x) (Log x) (Report x) a (ReproSyz x) (ReproC x));
  json.mkField "ReproSyz" json.bytes_codec ReproSyz
    (fun a x => mk (BuildID x) (Title x) (Maintainers x) (Log x) (Report x) (ReproOpts x) a (ReproC x));
  json.mkField "ReproC" json.bytes_codec ReproC
    (fun a x => mk (BuildID x) (Title x) (Maintainers x) (Log x) (Report x) (ReproOpts x) (ReproSyz x) a)
].

Definition codec : json.codec t :=
  json.struct_codec "dashapi.Crash" zero fields.

End Crash.

(** [FailedRepro] describes a failed repro attempt. *)
Module FailedRepro.

Record t : Type := mk {
  Manager : string;
  BuildID : string;
  Title : string
}.

Definition zero : t :=
  mk "" "" "".

Definition fields : list (json.field t) := [
  json.mkField "Manager" json.string_codec Manager
    (fun a x => mk a (BuildID x) (Title x));
  json.mkField "BuildID" json.string_codec BuildID
    (fun a x => mk (Manager x) a (Title x));
  json.mkField "Title" json.string_codec Title
    (fun a x => mk (Manager x) (BuildID x) a)
].

Definition codec : json.codec t :=
  json.struct_codec "dashapi.FailedRepro" zero fields.

End FailedRepro.

(** [LogEntry]: a line of the centralized log. *)
Module LogEntry.

Record t : Type := mk {
  Name : string;
  Text : string
}.

Definition zero : t :=
  mk "" "".

Definition fields : list (json.field t) := [
  json.mkField "Name" json.string_codec Name
    (fun a x => mk a (Text x));
  json.mkField "Text" json.string_codec Text
    (fun a x => mk (Name x) a)
].

Definition codec : json.codec t :=
  json.struct_codec "dashapi.LogEntry" zero fields.

End LogEntry.

(** [BugReport] describes a single bug.  Used by dashboard external
    reporting. *)
Module BugReport.

Record t : Type := mk {
  Config : option (list byte);
  ID : string;
  Title : string;
  Maintainers : option (list string);
  CompilerID : string;
  KernelRepo : string;
  KernelBranch : string;
  KernelCommit : string;
  Log : option (list byte);
  Report : option (list byte);
  KernelConfig : option (list byte);
  ReproC : option (list byte);
  ReproSyz : option (list byte)
}.

Definition zero : t :=
  mk None "" "" None "" "" "" "" None None None None None.

Definition fields : list (json.field t) := [
  json.mkField "Config" json.bytes_codec Config
    (fun a x => mk a (ID x) (Title x) (Maintainers x) (CompilerID x) (KernelRepo x) (KernelBranch x) (KernelCommit x) (Log x) (Report x) (KernelConfig x) (ReproC x) (ReproSyz x));
  json.mkField "ID" json.string_codec ID
    (fun a x => mk (Config x) a (Title x) (Maintainers x) (CompilerID x) (KernelRepo x) (KernelBranch x) (KernelCommit x) (Log x) (Report x) (KernelConfig x) (ReproC x) (ReproSyz x));
  json.mkField "Title" json.string_codec Title
    (fun a x => mk (Config x) (ID x) a (Maintainers x) (CompilerID x) (KernelRepo x) (KernelBranch x) (KernelCommit x) (Log x) (Report x) (KernelConfig x) (ReproC x) (ReproSyz x));
  json.mkField "Maintainers" (json.slice_codec json.string_codec) Maintainers
    (fun a x => mk (Config x) (ID x) (Title x) a (CompilerID x) (KernelRepo x) (KernelBranch x) (KernelCommit x) (Log x) (Report x) (KernelConfig x) (ReproC x) (ReproSyz x));
  json.mkField "CompilerID" json.string_codec CompilerID
    (fun a x => mk (Config x) (ID x) (Title x) (Maintainers x) a (KernelRepo x) (KernelBranch x) (KernelCommit x) (Log x) (Report x) (KernelConfig x) (ReproC x) (ReproSyz x));
  json.mkField "KernelRepo" json.string_codec KernelRepo
    (fun a x => mk (Config x) (ID x) (Title x) (Maintainers x) (CompilerID x) a (KernelBranch x) (KernelCommit x) (Log x) (Report x) (KernelConfig x) (ReproC x) (ReproSyz x));
  json.mkField "KernelBranch" json.string_codec KernelBranch
    (fun a x => mk (Config x) (ID x) (Title x) (Maintainers x) (CompilerID x) (KernelRepo x) a (KernelCommit x) (Log x) (Report x) (KernelConfig x) (ReproC x) (ReproSyz x));
  json.mkField "KernelCommit" json.string_codec KernelCommit
    (fun a x => mk (Config x) (ID x) (Title x) (Maintainers x) (CompilerID x) (KernelRepo x) (KernelBranch x) a (Log x) (Report x) (KernelConfig x) (ReproC x) (ReproSyz x));
  json.mkField "Log" json.bytes_codec Log
    (fun a x => mk (Config x) (ID x) (Title x) (Maintainers x) (CompilerID x) (KernelRepo x) (KernelBranch x) (KernelCommit x) a (Report x) (KernelConfig x) (ReproC x) (ReproSyz x));
  json.mkField "Report" json.bytes_codec Report
    (fun a x => mk (Config x) (ID x) (Title x) (Maintainers x) (CompilerID x) (KernelRepo x) (KernelBranch x) (KernelCommit x) (Log x) a (KernelConfig x) (ReproC x) (ReproSyz x));
  json.mkField "KernelConfig" json.bytes_codec KernelConfig
    (fun a x => mk (Config x) (ID x) (Title x) (Maintainers x) (CompilerID x) (KernelRepo x) (KernelBranch x) (KernelCommit x) (Log x) (Report x) a (ReproC x) (ReproSyz x));
  json.mkField "ReproC" json.bytes_codec ReproC
    (fun a x => mk (Config x) (ID x) (Title x) (Maintainers x) (CompilerID x) (KernelRepo x) (KernelBranch x) (KernelCommit x) (Log x) (Report x) (KernelConfig x) a (ReproSyz x));
  json.mkField "ReproSyz" json.bytes_codec ReproSyz
    (fun a x => mk (Config x) (ID x) (Title x) (Maintainers x) (CompilerID x) (KernelRepo x) (KernelBranch x) (KernelCommit x) (Log x) (Report x) (KernelConfig x) (ReproC x) a)
].

Definition codec : json.codec t :=
  json.struct_codec "dashapi.BugReport" zero fields.

End BugReport.

(** [BugUpdate]: a status update for a bug. *)
Module BugUpdate.

Record t : Type := mk {
  ID : string;
  Status : BugStatus;
  ReproLevel : ReproLevel;
  DupOf : string
}.

Definition zero : t :=
  mk "" 0%Z 0%Z "".

Definition fields : list (json.field t) := [
  json.mkField "ID" json.string_codec ID
    (fun a x => mk a (Status x) (ReproLevel x) (DupOf x));
  json.mkField "Status" (json.int_codec "dashapi.BugStatus") Status
    (fun a x => mk (ID x) a (ReproLevel x) (DupOf x));
  json.mkField "ReproLevel" (json.int_codec "dashapi.ReproLevel") ReproLevel
    (fun a x => mk (ID x) (Status x) a (DupOf x));
  json.mkField "DupOf" json.string_codec DupOf
    (fun a x => mk (ID x) (Status x) (ReproLevel x) a)
].

Definition codec : json.codec t :=
  json.struct_codec "dashapi.BugUpdate" zero fields.

End BugUpdate.

(** [PollRequest]. *)
Module PollRequest.

Record t : Type := mk {
  Type_ : string
}.

Definition zero : t :=
  mk "".

Definition fields : list (json.field t) := [
  json.mkField "Type" json.string_codec Type_
    (fun a x => mk a)
].

Definition codec : json.codec t :=
  json.struct_codec "dashapi.PollRequest" zero fields.

End PollRequest.

(** [PollResponse]: [Reports] is a [[]*BugReport], a slice of pointers,
    each of which may be [nil]. *)
Module PollResponse.

Record t : Type := mk {
  Reports : option (list (option BugReport.t))
}.

Definition zero : t :=
  mk None.

Definition fields : list (json.field t) := [
  json.mkField "Reports" (json.slice_codec (json.ptr_codec BugReport.codec)) Reports
    (fun a x => mk a)
].

Definition codec : json.codec t :=
  json.struct_codec "dashapi.PollResponse" zero fields.

End PollResponse.

(** The record types of the package. *)
Inductive entity : Type :=
| TBuild | TCrash | TFailedRepro | TLogEntry
| TBugReport | TBugUpdate | TPollRequest | TPollResponse.

Definition record_of (e : entity) : Type :=
  match e with
  | TBuild => Build.t
  | TCrash => Crash.t
  | TFailedRepro => FailedRepro.t
  | TLogEntry => LogEntry.t
  | TBugReport => BugReport.t
  | TBugUpdate => BugUpdate.t
  | TPollRequest => PollRequest.t
  | TPollResponse => PollResponse.t
  end.

Definition codec_of (e : entity) : json.codec (record_of e) :=
  match e with
  | TBuild => Build.codec
  | TCrash => Crash.codec
  | TFailedRepro => FailedRepro.codec
  | TLogEntry => LogEntry.codec
  | TBugReport => BugReport.codec
  | TBugUpdate => BugUpdate.codec
  | TPollRequest => PollRequest.codec
  | TPollResponse => PollResponse.codec
  end.

(** Marshaling a record and unmarshaling the text into a new variable
    of its type: the record read back, and the error of
    [json.Unmarshal]. *)
Definition round_trip_json (e : entity) (r : record_of e)
  : record_of e * option error :=
  json.Unmarshal (codec_of e) (json.Marshal (codec_of e) r)
    (json.zero (codec_of e)).
(** ** The transport function *)

Import http.

(** [RequestCtor] and [RequestDoer]. *)
Definition RequestCtor : Type :=
  string -> string -> option (list byte) -> res Request.
Definition RequestDoer : Type := Request -> res Response.

(** What a run of [Query] does to the outside world, in order. *)
Inductive event : Type :=
| CallCtor (method url : string) (body : option (list byte))
| CallDoer (r : Request)
| ReadBody      (* [ioutil.ReadAll(resp.Body)] *)
| DecodeBody    (* [json.NewDecoder(resp.Body).Decode(reply)] *)
| CloseBody.    (* the deferred [resp.Body.Close()] *)

(** The library functions [Query] applies to its [req] and [reply]
    arguments, whose dynamic types are [Req] and [Reply]. *)
Class Library (Req Reply : Type) : Type := mkLibrary {
  (** [json.Marshal(req)]. *)
  json_Marshal : Req -> res (list byte);
  (** [json.NewDecoder(body).Decode(reply)]: the value left behind the
      [reply] pointer, and the error returned. *)
  json_Decode : reader -> Reply -> Reply * option error;
  (** [gz.Write(data)] on a fresh [gzip.Writer] over a [bytes.Buffer],
      and [gz.Close()] after [data] was written: an error, or the
      content of the buffer. *)
  gzip_Write : list byte -> option error;
  gzip_Close : list byte -> res (list byte)
}.

Section Transport.

Context `{L : Library Req Reply}.

(** The state a run threads: the trace so far and the value behind
    the [reply] pointer ([None] when [reply] is [nil]). *)
Record state : Type := mkState {
  trace : list event;
  target : option Reply
}.

Definition M (A : Type) : Type := state -> state * res A.

Definition ret {A} (a : A) : M A := fun s => (s, Ok a).

Definition bind {A B} (m : M A) (k : A -> M B) : M B :=
  fun s =>
    match m s with
    | (s', Ok a) => k a s'
    | (s', Err e) => (s', Err e)
    end.

Definition lift {A} (r : res A) : M A := fun s => (s, r).

Definition emit (ev : event) : M unit :=
  fun s => (mkState (trace s ++ [ev]) (target s), Ok tt).

(** [defer f()]: [ev] happens when [m] is left, on every path. *)
Definition defer {A} (ev : event) (m : M A) : M A :=
  fun s =>
    match m s with
    | (s', r) => (mkState (trace s' ++ [ev]) (target s'), r)
    end.

Notation "'do' x <- m ; k" := (bind m (fun x => k))
  (at level 10, x name, m at level 100, k at level 200).

(** The decoding step: skipped when [reply] is [nil]. *)
Definition decode_reply (body : reader) : M unit :=
  fun s =>
    match target s with
    | None => (s, Ok tt)
    | Some v =>
        match json_Decode body v with
        | (v', None) =>
            (mkState (trace s ++ [DecodeBody]) (Some v'), Ok tt)
        | (v', Some e) =>
            (mkState (trace s ++ [DecodeBody]) (Some v'),
             Err ("failed to unmarshal response: " +:+ e))
        end
    end.

(** The condition of line 165: tiny requests are not compressed, nor
    are requests to the dev_appserver, which does not support gzip. *)
Definition uncompressed (addr : string) (data : list byte) : bool :=
  Nat.ltb (length data) 100 || String.eqb addr ""
  || HasPrefix addr "http://localhost:".

(** Lines 160-181: the body of the request and the [gzipped] flag. *)
Definition prepare_body (addr : string) (req : option Req)
  : M (option (list byte) * bool) :=
  match req with
  | None => ret (None, false)
  | Some rq =>
      do data <- lift (Errorf "failed to marshal request: " (json_Marshal rq));
      if uncompressed addr data then ret (Some data, false)
      else
        match gzip_Write data with
        | Some e => lift (Err e)
        | None =>
            do buf <- lift (gzip_Close data);
            ret (Some buf, true)
        end
  end.

(** Lines 187-192: the headers set on the constructed request. *)
Definition add_headers (r : Request) (body : option (list byte))
    (gzipped : bool) : Request :=
  match body with
  | None => r
  | Some _ =>
      let r := set_header r "Content-Type" "application/json" in
      if gzipped then set_header r "Content-Encoding" "gzip" else r
  end.

Definition Query_m (client addr key method : string)
    (ctor : RequestCtor) (doer : RequestDoer) (req : option Req) : M unit :=
  let values := url.make in
  let values := url.Add values "client" client in
  let values := url.Add values "key" key in
  let values := url.Add values "method" method in
  do bg <- prepare_body addr req;
  let body := fst bg in
  let gzipped := snd bg in
  let url := addr +:+ "/api?" +:+ url.Encode values in
  do _ <- emit (CallCtor "POST" url body);
  do r <- lift (ctor "POST" url body);
  let r := add_headers r body gzipped in
  do _ <- emit (CallDoer r);
  do resp <- lift (Errorf "http request failed: " (doer r));
  defer CloseBody (
    if negb (Z.eqb (StatusCode resp) StatusOK) then
      do _ <- emit ReadBody;
      let data := fst (ReadAll (Body resp)) in
      lift (Err ("request failed with " +:+ Status resp +:+ ": "
                   +:+ string_of_list_byte data))
    else
      decode_reply (Body resp)).

(** The observable result of a call. *)
Record outcome : Type := mkOutcome {
  returned : option error;      (* the [error] returned; [None] is [nil] *)
  events : list event;
  reply_after : option Reply    (* the value behind [reply] afterwards *)
}.

Definition Query (client addr key method : string)
    (ctor : RequestCtor) (doer : RequestDoer)
    (req : option Req) (reply : option Reply) : outcome :=
  match Query_m client addr key method ctor doer req (mkState [] reply) with
  | (s, Ok _) => mkOutcome None (trace s) (target s)
  | (s, Err e) => mkOutcome (Some e) (trace s) (target s)
  end.

(** Lines 182-207 written out path by path: what [Query] does once
    the body is prepared. *)
Definition round_trip (client addr key method : string)
    (ctor : RequestCtor) (doer : RequestDoer)
    (body : option (list byte)) (gzipped : bool) (reply : option Reply)
  : outcome :=
  let u := addr +:+ "/api?client=" +:+ url.QueryEscape client
                +:+ "&key=" +:+ url.QueryEscape key
                +:+ "&method=" +:+ url.QueryEscape method in
  match ctor "POST" u body with
  | Err e => mkOutcome (Some e) [CallCtor "POST" u body] reply
  | Ok r0 =>
      let r := add_headers r0 body gzipped in
      match doer r with
      | Err e =>
          mkOutcome (Some ("http request failed: " +:+ e))
            [CallCtor "POST" u body; CallDoer r] reply
      | Ok resp =>
          if negb (Z.eqb (StatusCode resp) StatusOK) then
            mkOutcome
              (Some ("request failed with " +:+ Status resp +:+ ": "
                       +:+ string_of_list_byte (content (Body resp))))
              [CallCtor "POST" u body; CallDoer r; ReadBody; CloseBody]
              reply
          else
            match reply with
            | None =>
                mkOutcome None
                  [CallCtor "POST" u body; CallDoer r; CloseBody] None
            | Some v =>
                mkOutcome
                  (option_map (append "failed to unmarshal response: ")
                     (snd (json_Decode (Body resp) v)))
                  [CallCtor "POST" u body; CallDoer r; DecodeBody; CloseBody]
                  (Some (fst (json_Decode (Body resp) v)))
            end
      end
  end.

End Transport.

(** The calls of the constructor and the requests handed to the doer,
    read off a trace. *)
Definition ctor_calls (tr : list event)
  : list (string * string * option (list byte)) :=
  flat_map (fun ev => match ev with
                      | CallCtor m u b => [(m, u, b)]
                      | _ => []
                      end) tr.

Definition sent (tr : list event) : list Request :=
  flat_map (fun ev => match ev with CallDoer r => [r] | _ => [] end) tr.

(** The URL of the wire protocol:
    [<addr>/api?client=<client>&key=<key>&method=<method>]. *)
Definition api_url (client addr key method : string) : string :=
  addr +:+ "/api?client=" +:+ url.QueryEscape client
       +:+ "&key=" +:+ url.QueryEscape key
       +:+ "&method=" +:+ url.QueryEscape method.

(** Where an error of [Query] comes from.  The first, fourth, fifth and
    sixth are the taxonomy of the specification; the two others are
    returned as they are, without a message of [Query]'s own. *)
Inductive cause : Type :=
| EncodingError        (* [json.Marshal] failed *)
| CompressionError     (* the gzip writer failed *)
| ConstructionError    (* the request constructor failed *)
| TransportError       (* the doer failed *)
| RemoteError          (* the status is not 200 *)
| DecodingError.       (* the decoder failed *)

Definition in_taxonomy (c : cause) : bool :=
  match c with
  | EncodingError | TransportError | RemoteError | DecodingError => true
  | CompressionError | ConstructionError => false
  end.

(** [arises_from ... c e]: in the call with the given arguments, the
    step named by [c] fails, and [e] is the error [Query] makes of it. *)
Inductive arises_from `{L : Library Req Reply}
    (client addr key method : string) (ctor : RequestCtor)
    (doer : RequestDoer) (req : option Req) (reply : option Reply)
  : cause -> error -> Prop :=
| from_marshal rq e :
    req = Some rq -> json_Marshal rq = Err e ->
    arises_from client addr key method ctor doer req reply
      EncodingError ("failed to marshal request: " +:+ e)
| from_gzip_write rq data e :
    req = Some rq -> json_Marshal rq = Ok data ->
    uncompressed addr data = false -> gzip_Write data = Some e ->
    arises_from client addr key method ctor doer req reply
      CompressionError e
| from_gzip_close rq data e :
    req = Some rq -> json_Marshal rq = Ok data ->
    uncompressed addr data = false ->
    gzip_Write data = None -> gzip_Close data = Err e ->
    arises_from client addr key method ctor doer req reply
      CompressionError e
| from_ctor m u body e :
    In (m, u, body)
      (ctor_calls
         (events (Query client addr key method ctor doer req reply))) ->
    ctor m u body = Err e ->
    arises_from client addr key method ctor doer req reply
      ConstructionError e
| from_doer r e :
    In r (sent (events (Query client addr key method ctor doer req reply))) ->
    doer r = Err e ->
    arises_from client addr key method ctor doer req reply
      TransportError ("http request failed: " +:+ e)
| from_status r resp :
    In r (sent (events (Query client addr key method ctor doer req reply))) ->
    doer r = Ok resp -> StatusCode resp <> StatusOK ->
    arises_from client addr key method ctor doer req reply
      RemoteError
      ("request failed with " +:+ Status resp +:+ ": "
         +:+ string_of_list_byte (fst (ReadAll (Body resp))))
| from_decode r resp v e :
    In r (sent (events (Query client addr key method ctor doer req reply))) ->
    doer r = Ok resp -> StatusCode resp = StatusOK ->
    reply = Some v -> snd (json_Decode (Body resp) v) = Some e ->
    arises_from client addr key method ctor doer req reply
      DecodingError ("failed to unmarshal response: " +:+ e).

(** The trace a call leaves when it fails for a given cause. *)
Definition trace_shape (c : cause) (tr : list event) : Prop :=
  match c with
  | EncodingError | CompressionError => tr = []
  | ConstructionError => exists m u b, tr = [CallCtor m u b]
  | TransportError => exists m u b r, tr = [CallCtor m u b; CallDoer r]
  | RemoteError =>
      exists m u b r, tr = [CallCtor m u b; CallDoer r; ReadBody; CloseBody]
  | DecodingError =>
      exists m u b r, tr = [CallCtor m u b; CallDoer r; DecodeBody; CloseBody]
  end.

(** Constructors and doers to run [Query] against, as a test does. *)
Module double.

(** What [http.NewRequest] builds from a well-formed URL. *)
Definition ctor_ok : RequestCtor :=
  fun method url body => Ok (mkRequest method url ∅ body).

Definition ctor_fail : RequestCtor :=
  fun _ url _ => Err ("parse " +:+ url +:+ ": invalid URL").

(** A server that answers every request the same way. *)
Definition doer_reply (code : Z) (status : string) (body : reader)
  : RequestDoer :=
  fun _ => Ok (mkResponse status code body).

Definition doer_fail : RequestDoer :=
  fun _ => Err "dial tcp: connection refused".

(** A stand-in for gzip on an in-memory buffer, which cannot fail:
    the two magic bytes of a gzip member, then the data as they are. *)
Definition gzip_Write : list byte -> option error := fun _ => None.
Definition gzip_Close : list byte -> res (list byte) :=
  fun data => Ok (x1f :: x8b :: data).
Definition gunzip (buf : list byte) : option (list byte) :=
  match buf with
  | x1f :: x8b :: data => Some data
  | _ => None
  end.

(** A gzip writer whose underlying writer fails. *)
Definition gzip_Write_fail : list byte -> option error :=
  fun _ => Some "short write".

End double.

(** ** The client facade *)

Record Dashboard : Type := mkDashboard {
  Client : string;
  Addr : string;
  Key : string
}.

Definition New (client addr key : string) : Dashboard :=
  mkDashboard client addr key.

(** The dynamic values the methods of [Dashboard] hand to [query] as
    [req]: a pointer ([None] is the [nil] pointer) to one of four record
    types. *)
Inductive payload : Type :=
| PBuild (p : option Build.t)
| PCrash (p : option Crash.t)
| PFailedRepro (p : option FailedRepro.t)
| PLogEntry (p : option LogEntry.t).

Definition payload_type (p : payload) : entity :=
  match p with
  | PBuild _ => TBuild
  | PCrash _ => TCrash
  | PFailedRepro _ => TFailedRepro
  | PLogEntry _ => TLogEntry
  end.

(** [json.Marshal] on these values; it cannot fail on them. *)
Definition marshal_payload (p : payload) : list byte :=
  match p with
  | PBuild b => json.Marshal (json.ptr_codec Build.codec) b
  | PCrash c => json.Marshal (json.ptr_codec Crash.codec) c
  | PFailedRepro r => json.Marshal (json.ptr_codec FailedRepro.codec) r
  | PLogEntry l => json.Marshal (json.ptr_codec LogEntry.codec) l
  end.

(** The library as the facade uses it, decoding a reply with [c]. *)
Definition go_library {Reply} (c : json.codec Reply)
    (gzw : list byte -> option error) (gzc : list byte -> res (list byte))
  : Library payload Reply := {|
  json_Marshal := fun p => Ok (marshal_payload p);
  json_Decode := json.Decode c;
  gzip_Write := gzw;
  gzip_Close := gzc
|}.

Section Facade.

Context `{L : Library payload Reply} {Arg : Type}.

(** [http.NewRequest] and [http.DefaultClient.Do]. *)
Variable http_NewRequest : RequestCtor.
Variable http_DefaultClient_Do : RequestDoer.

(** [fmt.Sprintf(msg, args...)]. *)
Variable fmt_Sprintf : string -> list Arg -> string.

Definition query (dash : Dashboard) (method : string)
    (req : option payload) (reply : option Reply) : outcome :=
  Query (Client dash) (Addr dash) (Key dash) method
    http_NewRequest http_DefaultClient_Do req reply.

Definition UploadBuild (dash : Dashboard) (build : option Build.t)
  : outcome :=
  query dash "upload_build" (Some (PBuild build)) None.

Definition ReportCrash (dash : Dashboard) (crash : option Crash.t)
  : outcome :=
  query dash "report_crash" (Some (PCrash crash)) None.

Definition ReportFailedRepro (dash : Dashboard)
    (repro : option FailedRepro.t) : outcome :=
  query dash "report_failed_repro" (Some (PFailedRepro repro)) None.

(** Centralized logging on dashboard.  The method has no result: of
    the outcome of [query] only what was done remains. *)
Definition LogError (dash : Dashboard) (name msg : string)
    (args : list Arg) : list event :=
  let req := LogEntry.mk name (fmt_Sprintf msg args) in
  events (query dash "log_error" (Some (PLogEntry (Some req))) None).

(** The method set of [*Dashboard], each method with its arguments. *)
Inductive operation : Type :=
| OpUploadBuild (build : option Build.t)
| OpReportCrash (crash : option Crash.t)
| OpReportFailedRepro (repro : option FailedRepro.t)
| OpLogError (name msg : string) (args : list Arg).

(** What a call of a method shows to its caller: the error it returns
    (none for [LogError], which has no result) and what it did. *)
Definition invoke (dash : Dashboard) (op : operation)
  : option error * list event :=
  match op with
  | OpUploadBuild build =>
      let o := UploadBuild dash build in (returned o, events o)
  | OpReportCrash crash =>
      let o := ReportCrash dash crash in (returned o, events o)
  | OpReportFailedRepro repro =>
      let o := ReportFailedRepro dash repro in (returned o, events o)
  | OpLogError name msg args => (None, LogError dash name msg args)
  end.

End Facade.
(** ** Sample calls *)

Module example.

(** The library with gzip on an in-memory buffer, decoding replies of
    type [Reply] with [c]. *)
Definition lib {Reply} (c : json.codec Reply) : Library payload Reply :=
  go_library c double.gzip_Write double.gzip_Close.

Definition addr : string := "https://syzkaller.appspot.com".

Definition dash : Dashboard := New "syz-manager" addr "secret".

Definition entry : LogEntry.t := LogEntry.mk "syz-manager" "x".

Definition long_entry : LogEntry.t :=
  LogEntry.mk "syz-manager"
    "failed to build kernel: make exited with status 2 after the configuration had been written to the build directory".

Definition report : BugReport.t :=
  BugReport.mk (Some [x01; xff]) "bug1" "KASAN: use-after-free in foo"
    (Some ["a@kernel.org"; "b@kernel.org"]) "gcc 7.1.1" "linux-next" "master"
    "deadbeef" (Some []) None (Some [x43; x4f; x4e; x46]) None
    (Some [x72; x30]).

Definition poll_response : PollResponse.t :=
  PollResponse.mk (Some [Some report; None]).

(** A name that is not UTF-8: the single byte 0xff. *)
Definition bad_name : string := String (ascii_of_byte xff) EmptyString.

(** The request [Query] hands to the doer when there is no payload. *)
Definition bare_request (method : string) : Request :=
  mkRequest "POST" (api_url (Client dash) (Addr dash) (Key dash) method)
    ∅ None.

Definition answer (code : Z) (status : string) (text : string)
    (failure : option error) : RequestDoer :=
  double.doer_reply code status
    (mkReader (list_byte_of_string text) failure).

(** A reply whose [Text] is a number. *)
Definition mistyped_reply : list byte :=
  json.print
    (json.Object [(json.bytes_of "Name", json.Str (json.bytes_of "x"));
                  (json.bytes_of "Text", json.Number (json.bytes_of "5"))]).

(** A reply cut before its closing brace. *)
Definition truncated_reply : list byte :=
  removelast (json.Marshal LogEntry.codec entry).

End example.
(** ** What a request delivers, what a reply may hold *)

(** [delivers gunzip ctor dash method c a tr]: in the run [tr] the
    constructor was called once, with POST, the URL of [method] and a
    body that the server, undoing the compression where [Query]
    compresses, unmarshals into a new value of the type of [c] as [a];
    and the request [ctor] makes of that very call is the one handed
    to the doer, with its Content-Type set, and its Content-Encoding
    where the body is compressed. *)
Definition delivers {A} (gunzip : list byte -> option (list byte))
    (ctor : RequestCtor) (dash : Dashboard) (method : string)
    (c : json.codec A) (a : A) (tr : list event) : Prop :=
  let u := api_url (Client dash) (Addr dash) (Key dash) method in
  exists body data,
    ctor_calls tr = [("POST", u, Some body)]
    /\ (if uncompressed (Addr dash) data then body = data
        else gunzip body = Some data)
    /\ json.Unmarshal c data (json.zero c) = (a, None)
    /\ forall r0, ctor "POST" u (Some body) = Ok r0 ->
         let r1 := set_header r0 "Content-Type" "application/json" in
         sent tr
         = [if uncompressed (Addr dash) data then r1
            else set_header r1 "Content-Encoding" "gzip"].

(** A reply that holds no pointer yet.  The only pointers of the data
    model are the elements of [PollResponse.Reports]; a [nil] slice
    holds none, in its elements or behind them. *)
Definition unshared (e : entity) : record_of e -> Prop :=
  match e with
  | TPollResponse => fun old => PollResponse.Reports old = None
  | _ => fun _ => True
  end.

(** ** More sample calls *)

Module sample.

(** A constructor that sets a header of its own. *)
Definition ctor_agent : RequestCtor :=
  fun method url body =>
    Ok (mkRequest method url {["User-Agent" := ["syz-manager"]]} body).

(** The request [Query] hands to the doer for a short log entry built
    by [ctor_agent]. *)
Definition entry_request : Request :=
  set_header
    (mkRequest "POST"
       (api_url "syz-manager" example.addr "secret" "log_error")
       {["User-Agent" := ["syz-manager"]]}
       (Some (json.Marshal LogEntry.codec example.entry)))
    "Content-Type" "application/json".

(** A report followed by something else. *)
Definition reply_and_more : list byte :=
  json.Marshal BugReport.codec example.report
    ++ json.bytes_of " and more".

(** A report a reply may hold from an earlier call. *)
Definition stale_report : BugReport.t :=
  BugReport.mk (Some [x00]) "bug0" "WARNING in bar"
    (Some ["x@kernel.org"; "y@kernel.org"; "z@kernel.org"]) "gcc 6.3.0"
    "linux" "next" "0badc0de" None (Some [x21]) None (Some [x2f; x2f])
    None.

(** The reports alone, as a list. *)
Definition bare_list : list byte :=
  json.print (json.Array [json.encode BugReport.codec example.report]).

End sample.

(** * Vocabulary of the proofs

    Predicates and auxiliary functions the statements below are written
    with. *)

Module vocab.

Import utf8 strconv base64 json.

(** The numbers from [lo] to [hi], to check a property of each. *)
Definition range (lo hi : N) : list N :=
  map (fun k => (lo + N.of_nat k)%N) (seq 0 (N.to_nat (hi + 1 - lo))).

Definition rune2 (c0 c1 : N) : N :=
  N.lor (N.shiftl (N.land c0 0x1F) 6) (N.land c1 0x3F).
Definition rune3 (c0 c1 c2 : N) : N :=
  N.lor (N.lor (N.shiftl (N.land c0 0x0F) 12) (N.shiftl (N.land c1 0x3F) 6))
    (N.land c2 0x3F).
Definition rune4 (c0 c1 c2 c3 : N) : N :=
  N.lor (N.lor (N.lor (N.shiftl (N.land c0 0x07) 18)
                   (N.shiftl (N.land c1 0x3F) 12))
           (N.shiftl (N.land c2 0x3F) 6))
    (N.land c3 0x3F).

(** A rune of more than one byte, as [DecodeRune] returns it: the
    bytes [pre] it is made of are what [EncodeRune] writes. *)
Inductive multibyte (s : list byte) (c : N) (size : nat) : Prop :=
| Multibyte (pre post : list byte)
    (mb_split : s = pre ++ post)
    (mb_length : length pre = size)
    (mb_size : 2 <= size <= 4)
    (mb_encode : EncodeRune c = pre)
    (mb_decode : forall X, DecodeRune (pre ++ X) = (c, size))
    (mb_high : Forall (fun b => (RuneSelf <= code b)%N) pre)
    (mb_rune : (RuneSelf <= c <= MaxRune)%N).

(** The digits of a literal [FormatInt] writes: [0], or digits of
    which the first is not [0]. *)
Definition canonical_digits (ds : list byte) : Prop :=
  ds = [x30]
  \/ exists d t, ds = d :: t /\ is_digit d = true /\ d <> x30
                 /\ Forall (fun b => is_digit b = true) t.

(** What may follow a value inside a document the encoder wrote: the
    end, a comma, or a closing bracket or brace. *)
Definition delimited (rest : list byte) : Prop :=
  match rest with
  | [] => True
  | b :: _ => b = x2c \/ b = x5d \/ b = x7d
  end.

(** The documents the encoder writes: numbers are integers in the
    form [FormatInt] gives them, strings and keys are valid UTF-8. *)
Fixpoint written (v : value) : Prop :=
  match v with
  | Null | Bool _ => True
  | Number lit => exists z, lit = FormatInt z
  | Str s => Valid s = true
  | Array l => fold_right (fun x acc => written x /\ acc) True l
  | Object ms =>
      fold_right (fun m acc => (Valid (fst m) = true /\ written (snd m)) /\ acc)
        True ms
  end.

Fixpoint depth (v : value) : nat :=
  match v with
  | Array l => S (fold_right (fun x acc => Nat.max (depth x) acc) 0 l)
  | Object ms => S (fold_right (fun m acc => Nat.max (depth (snd m)) acc) 0 ms)
  | _ => 0
  end.

(** The first byte of a written document tells its kind. *)
Definition opener (v : value) (b : byte) : Prop :=
  match v with
  | Null => b = x6e
  | Bool true => b = x74
  | Bool false => b = x66
  | Number _ => Byte.eqb b x2d || is_digit b = true
  | Str _ => b = x22
  | Array _ => b = x5b
  | Object _ => b = x7b
  end.

Definition member_text (m : list byte * value) : list byte :=
  encode_string (fst m) ++ x3a :: print (snd m).

Definition sextet_ok (v : N) : bool :=
  match decode_char (encode_char v) with
  | Some v' => (v' =? v)%N && negb (Byte.eqb (encode_char v) pad)
               && negb (Byte.eqb (encode_char v) x0d)
               && negb (Byte.eqb (encode_char v) x0a)
  | None => false
  end.

(** A codec is lawful when a valid value is written as a document the
    parser reads back, and storing that document gives the value,
    whatever the target held. *)
Record lawful {A} (c : codec A) : Prop := {
  law_written : forall a, valid c a -> written (encode c a);
  law_store : forall a old, valid c a -> store c (encode c a) old = (a, None)
}.

(** The fields of a struct behave as the fields of a record. *)
Record fields_ok {T} (fields : list (field T)) : Prop := {
  names_distinct : NoDup (map fname fields);
  names_valid : Forall (fun f => ValidString (fname f) = true) fields;
  get_set : forall f, In f fields ->
    forall a x, fget f (fset f a x) = a;
  get_set_other : forall f g, In f fields -> In g fields ->
    fname f <> fname g -> forall a x, fget g (fset f a x) = fget g x;
  fields_ext : forall x y,
    (forall f, In f fields -> fget f x = fget f y) -> x = y;
  fields_lawful : Forall (fun f => lawful (fcodec f)) fields
}.

(** No character of [s] is a separator. *)
Fixpoint free_of (sep : ascii -> bool) (s : string) : Prop :=
  match s with
  | EmptyString => True
  | String c rest => sep c = false /\ free_of sep rest
  end.

Definition pair_sep (c : ascii) : bool := Ascii.eqb c "&" || Ascii.eqb c ";".
Definition value_sep (c : ascii) : bool := Ascii.eqb c "=".

End vocab.

(** * Facts about the library models *)

(** ** Strings *)

Lemma append_cons (c : ascii) (s t : string) :
  String c s +:+ t = String c (s +:+ t).
Proof. reflexivity. Qed.

Lemma append_nil_l (s : string) : "" +:+ s = s.
Proof. reflexivity. Qed.

Lemma append_nil_r (s : string) : s +:+ "" = s.
Proof.
  induction s as [|c s IH]; [reflexivity|].
  now rewrite append_cons, IH.
Qed.

Lemma string_app_assoc (a b c : string) : (a +:+ b) +:+ c = a +:+ (b +:+ c).
Proof.
  induction a as [|x a IH]; [reflexivity|].
  now rewrite !append_cons, IH.
Qed.

Lemma contains_app_l (s post : string) : contains (s +:+ post) s.
Proof.
  exists "", post. reflexivity.
Qed.

Lemma contains_app_r (pre s : string) : contains (pre +:+ s) s.
Proof.
  exists pre, "". now rewrite append_nil_r.
Qed.

Lemma contains_prepend (pre t s : string) :
  contains t s -> contains (pre +:+ t) s.
Proof.
  intros (a & b & ->). exists (pre +:+ a), b.
  now rewrite string_app_assoc.
Qed.

Lemma contains_append (t post s : string) :
  contains t s -> contains (t +:+ post) s.
Proof.
  intros (a & b & ->). exists a, (b +:+ post).
  now rewrite !string_app_assoc.
Qed.

(** ** net/url *)

Module url_facts.

Import url vocab.

(** Computes the escape of a given character. *)
Ltac escape_char :=
  cbn [QueryEscape];
  match goal with
  | |- context [shouldEscape ?c] =>
      let b := eval vm_compute in (shouldEscape c) in
      change (shouldEscape c) with b
  end; cbv iota;
  try match goal with
  | |- context [Ascii.eqb ?c " "] =>
      let b := eval vm_compute in (Ascii.eqb c " ") in
      change (Ascii.eqb c " ") with b
  end; cbv iota;
  try match goal with
  | |- context [upperhex (?n / 16)] =>
      let h := eval vm_compute in (upperhex (n / 16)) in
      let l := eval vm_compute in (upperhex (n mod 16)) in
      change (upperhex (n / 16)) with h;
      change (upperhex (n mod 16)) with l
  end.

Lemma QueryUnescape_step (c : ascii) (rest : string) :
  QueryUnescape (QueryEscape (String c rest))
  = option_map (String c) (QueryUnescape (QueryEscape rest)).
Proof.
  destruct c as [[] [] [] [] [] [] [] []]; escape_char;
    cbn [QueryUnescape];
    destruct (QueryUnescape (QueryEscape rest)); reflexivity.
Qed.

(** Unescaping an escaped string gives the string. *)
Lemma QueryUnescape_QueryEscape (s : string) :
  QueryUnescape (QueryEscape s) = Some s.
Proof.
  induction s as [|c s IH]; [reflexivity|].
  now rewrite QueryUnescape_step, IH.
Qed.

(** An escaped string holds no separator. *)
Lemma QueryEscape_free_pair (s : string) : free_of pair_sep (QueryEscape s).
Proof.
  induction s as [|c s IH]; [exact I|].
  destruct c as [[] [] [] [] [] [] [] []]; escape_char;
    cbn [free_of]; repeat split; try reflexivity; exact IH.
Qed.

Lemma QueryEscape_free_value (s : string) : free_of value_sep (QueryEscape s).
Proof.
  induction s as [|c s IH]; [exact I|].
  destruct c as [[] [] [] [] [] [] [] []]; escape_char;
    cbn [free_of]; repeat split; try reflexivity; exact IH.
Qed.

Lemma cut_free_end sep (x : string) :
  free_of sep x -> cut sep x = (x, None).
Proof.
  induction x as [|c x IH]; [reflexivity|].
  intros [Hc Hx]. cbn [cut]. now rewrite Hc, IH.
Qed.

Lemma cut_free sep (x : string) (c : ascii) (rest : string) :
  free_of sep x -> sep c = true ->
  cut sep (x +:+ String c rest) = (x, Some rest).
Proof.
  intros Hx Hc. induction x as [|d x IH].
  - rewrite append_nil_l. cbn [cut]. now rewrite Hc.
  - destruct Hx as [Hd Hx]. rewrite append_cons. cbn [cut].
    now rewrite Hd, IH.
Qed.

Lemma free_of_app sep (x y : string) :
  free_of sep x -> free_of sep y -> free_of sep (x +:+ y).
Proof.
  intros Hx Hy. induction x as [|d x IH]; [exact Hy|].
  destruct Hx as [Hd Hx]. rewrite append_cons. split; auto.
Qed.

(** One round of [parseQuery] on a pair written by [Encode]. *)
Lemma parseQuery_pair fuel m (k v : string) (rest : option string) :
  k <> "" -> free_of pair_sep k -> free_of value_sep k ->
  QueryUnescape k = Some k ->
  parseQuery (S fuel) m
    (k +:+ "=" +:+ QueryEscape v
       +:+ match rest with Some q => String "&" q | None => "" end)
  = parseQuery fuel (Add m k v)
      match rest with Some q => q | None => "" end.
Proof.
  intros Hne Hkp Hkv Hku.
  assert (Hx : free_of pair_sep (k +:+ "=" +:+ QueryEscape v)).
  { apply free_of_app; [exact Hkp|].
    rewrite append_cons, append_nil_l. split; [reflexivity|].
    apply QueryEscape_free_pair. }
  cbn [parseQuery].
  assert (Hq : String.eqb
                 (k +:+ "=" +:+ QueryEscape v
                    +:+ match rest with Some q => String "&" q | None => "" end)
                 "" = false).
  { destruct k as [|c k]; [congruence|]. rewrite append_cons. reflexivity. }
  rewrite Hq.
  assert (Hcut : cut (fun c => Ascii.eqb c "&" || Ascii.eqb c ";")
                   (k +:+ "=" +:+ QueryEscape v
                      +:+ match rest with Some q => String "&" q | None => "" end)
                 = (k +:+ "=" +:+ QueryEscape v, rest)).
  { rewrite <- !string_app_assoc. destruct rest as [q|].
    - apply (cut_free pair_sep); [|reflexivity].
      now rewrite string_app_assoc.
    - rewrite append_nil_r. apply (cut_free_end pair_sep).
      now rewrite string_app_assoc. }
  rewrite Hcut.
  assert (Hk : String.eqb (k +:+ "=" +:+ QueryEscape v) "" = false).
  { destruct k as [|c k]; [congruence|]. rewrite append_cons. reflexivity. }
  rewrite Hk.
  rewrite append_cons, append_nil_l.
  pose proof (cut_free value_sep k "=" (QueryEscape v) Hkv eq_refl) as Hc2.
  unfold value_sep in Hc2. rewrite Hc2.
  now rewrite Hku, QueryUnescape_QueryEscape.
Qed.

Lemma parseQuery_pair_more fuel m (k v q : string) :
  k <> "" -> free_of pair_sep k -> free_of value_sep k ->
  QueryUnescape k = Some k ->
  parseQuery (S fuel) m (k +:+ "=" +:+ QueryEscape v +:+ String "&" q)
  = parseQuery fuel (Add m k v) q.
Proof. intros. now apply (parseQuery_pair fuel m k v (Some q)). Qed.

Lemma parseQuery_pair_last fuel m (k v : string) :
  k <> "" -> free_of pair_sep k -> free_of value_sep k ->
  QueryUnescape k = Some k ->
  parseQuery (S fuel) m (k +:+ "=" +:+ QueryEscape v)
  = parseQuery fuel (Add m k v) "".
Proof.
  intros. rewrite <- (parseQuery_pair fuel m k v None) by assumption.
  now rewrite append_nil_r.
Qed.

(** The query string of [Query] parses to the three parameters. *)
Lemma ParseQuery_values (client key method : string) :
  ParseQuery ("client=" +:+ QueryEscape client
                +:+ "&key=" +:+ QueryEscape key
                +:+ "&method=" +:+ QueryEscape method)
  = ([("client", [client]); ("key", [key]); ("method", [method])], None).
Proof.
  unfold ParseQuery.
  set (q := "client=" +:+ _).
  assert (Hlen : exists n, String.length q = S (S (S n))).
  { subst q. rewrite !append_cons. cbn [String.length]. eauto. }
  destruct Hlen as [n ->]. subst q.
  change ("client=" +:+ QueryEscape client
            +:+ "&key=" +:+ QueryEscape key +:+ "&method=" +:+ QueryEscape method)
    with ("client" +:+ "=" +:+ QueryEscape client
            +:+ String "&" ("key" +:+ "=" +:+ QueryEscape key
            +:+ String "&" ("method" +:+ "=" +:+ QueryEscape method))).
  rewrite parseQuery_pair_more;
    [| discriminate | cbn; tauto | cbn; tauto | reflexivity].
  rewrite parseQuery_pair_more;
    [| discriminate | cbn; tauto | cbn; tauto | reflexivity].
  rewrite parseQuery_pair_last;
    [| discriminate | cbn; tauto | cbn; tauto | reflexivity].
  reflexivity.
Qed.

End url_facts.

(** ** Bits as arithmetic *)

Lemma lor_add (a b n : N) :
  (b < 2 ^ n)%N -> N.lor (a * 2 ^ n) b = (a * 2 ^ n + b)%N.
Proof.
  intros Hb.
  assert (H0 : N.land (a * 2 ^ n) b = 0%N).
  { rewrite <- (N.mod_small b (2 ^ n)) by exact Hb.
    rewrite <- N.land_ones, (N.land_comm b), N.land_assoc, N.land_ones.
    rewrite N.Div0.mod_mul. apply N.land_0_l. }
  rewrite <- N.lxor_lor by exact H0. symmetry. now apply N.add_nocarry_lxor.
Qed.

Lemma land_low (a n : N) : N.land a (2 ^ n - 1) = (a mod 2 ^ n)%N.
Proof.
  rewrite <- N.land_ones. f_equal. rewrite N.ones_equiv. lia.
Qed.

(** Masks, shifts and disjoint unions by the constants the models use. *)
Ltac arith_bits :=
  repeat match goal with
    | |- context [N.land ?a 0x3F] =>
        change (N.land a 0x3F) with (N.land a (2 ^ 6 - 1)); rewrite land_low
    | |- context [N.land ?a 0x1F] =>
        change (N.land a 0x1F) with (N.land a (2 ^ 5 - 1)); rewrite land_low
    | |- context [N.land ?a 0x0F] =>
        change (N.land a 0x0F) with (N.land a (2 ^ 4 - 1)); rewrite land_low
    | |- context [N.land ?a 0x07] =>
        change (N.land a 0x07) with (N.land a (2 ^ 3 - 1)); rewrite land_low
    | |- context [N.shiftl ?a ?k] => rewrite (N.shiftl_mul_pow2 a k)
    | |- context [N.shiftr ?a ?k] => rewrite (N.shiftr_div_pow2 a k)
    end;
  change (2 ^ 3)%N with 8%N; change (2 ^ 4)%N with 16%N;
  change (2 ^ 5)%N with 32%N; change (2 ^ 6)%N with 64%N;
  change (2 ^ 10)%N with 1024%N;
  change (2 ^ 12)%N with 4096%N; change (2 ^ 18)%N with 262144%N.

Lemma lor_add_mod (x b n : N) :
  (x mod 2 ^ n = 0)%N -> (b < 2 ^ n)%N -> N.lor x b = (x + b)%N.
Proof.
  intros Hx Hb.
  apply (N.Div0.div_exact x _) in Hx.
  rewrite Hx at 1. rewrite (N.mul_comm (2 ^ n)), lor_add by exact Hb.
  rewrite (N.mul_comm _ (2 ^ n)), <- Hx. reflexivity.
Qed.

(** [lor] of a multiple of [2 ^ n] and a number below [2 ^ n]. *)
Tactic Notation "lor_plus" constr(n) :=
  let v := eval vm_compute in (2 ^ n)%N in
  match goal with
  | |- context [N.lor ?x ?b] =>
      rewrite (lor_add_mod x b n) by (change (2 ^ n)%N with v; lia)
  end.

(** ** utf8 *)

Module utf8_facts.

Import vocab.

Import utf8.

Lemma code_lt_256 (b : byte) : (code b < 256)%N.
Proof. destruct b; vm_compute; reflexivity. Qed.

Lemma byte_of_code (b : byte) : byte_of (code b) = b.
Proof.
  unfold byte_of. rewrite N.mod_small by apply code_lt_256.
  unfold code. now rewrite Byte.of_to_N.
Qed.

Lemma code_byte_of (n : N) : (n < 256)%N -> code (byte_of n) = n.
Proof.
  intros H. unfold byte_of, code. rewrite N.mod_small by exact H.
  destruct (Byte.of_N n) as [b|] eqn:E.
  - now apply Byte.to_of_N.
  - exfalso. pose proof (Byte.to_of_N_option_map n) as H'.
    rewrite E in H'. cbn in H'.
    destruct (N.leb_spec n 255); [discriminate | lia].
Qed.

Lemma code_inj (a b : byte) : code a = code b -> a = b.
Proof.
  intros H. rewrite <- (byte_of_code a), <- (byte_of_code b). now rewrite H.
Qed.

Lemma between_spec (lo n hi : N) :
  between lo n hi = true <-> (lo <= n <= hi)%N.
Proof. unfold between. rewrite andb_true_iff, !N.leb_le. tauto. Qed.

Lemma in_range (lo hi n : N) :
  between lo n hi = true -> In n (range lo hi).
Proof.
  rewrite between_spec. intros [Hlo Hhi].
  unfold range. apply in_map_iff. exists (N.to_nat (n - lo)). split.
  - lia.
  - apply in_seq. lia.
Qed.

Lemma rune2_arith c0 c1 :
  rune2 c0 c1 = (c0 mod 32 * 64 + c1 mod 64)%N.
Proof. unfold rune2. arith_bits. lor_plus 6%N. reflexivity. Qed.

Lemma rune3_arith c0 c1 c2 :
  rune3 c0 c1 c2 = (c0 mod 16 * 4096 + c1 mod 64 * 64 + c2 mod 64)%N.
Proof.
  unfold rune3. arith_bits. lor_plus 12%N. lor_plus 6%N. reflexivity.
Qed.

Lemma rune4_arith c0 c1 c2 c3 :
  rune4 c0 c1 c2 c3
  = (c0 mod 8 * 262144 + c1 mod 64 * 4096 + c2 mod 64 * 64 + c3 mod 64)%N.
Proof.
  unfold rune4. arith_bits. lor_plus 18%N. lor_plus 12%N. lor_plus 6%N.
  reflexivity.
Qed.

Lemma leb_true (a b : N) : (a <= b)%N -> (a <=? b)%N = true.
Proof. apply N.leb_le. Qed.

Lemma leb_false (a b : N) : (b < a)%N -> (a <=? b)%N = false.
Proof. apply N.leb_gt. Qed.

Lemma ltb_true (a b : N) : (a < b)%N -> (a <? b)%N = true.
Proof. apply N.ltb_lt. Qed.

Lemma ltb_false (a b : N) : (b <= a)%N -> (a <? b)%N = false.
Proof. apply N.ltb_ge. Qed.

(** Decide the comparisons of the goal from the hypotheses. *)
Ltac decide_cmp :=
  repeat match goal with
    | |- context [(?a <=? ?b)%N] =>
        first [ rewrite (leb_true a b) by lia
              | rewrite (leb_false a b) by lia ]
    | |- context [(?a <? ?b)%N] =>
        first [ rewrite (ltb_true a b) by lia
              | rewrite (ltb_false a b) by lia ]
    | |- context [(?a =? ?b)%N] =>
        first [ rewrite (proj2 (N.eqb_eq a b)) by lia
              | rewrite (proj2 (N.eqb_neq a b)) by lia ]
    end.

(** Split on the comparisons that remain. *)
Ltac split_cmp :=
  repeat match goal with
    | |- context [(?a <=? ?b)%N] =>
        destruct (N.leb_spec a b); try (exfalso; lia)
    | |- context [(?a <? ?b)%N] =>
        destruct (N.ltb_spec a b); try (exfalso; lia)
    end.

Lemma Encode_rune2 c0 c1 :
  (0xC2 <= c0 <= 0xDF)%N -> (0x80 <= c1 <= 0xBF)%N ->
  EncodeRune (rune2 c0 c1) = [byte_of c0; byte_of c1].
Proof.
  intros H0 H1. rewrite rune2_arith. unfold EncodeRune.
  decide_cmp. cbn [orb andb]. arith_bits.
  lor_plus 5%N. lor_plus 6%N. repeat f_equal; lia.
Qed.

Lemma Encode_rune3 c0 c1 c2 :
  (0xE0 <= c0 <= 0xEF)%N -> (accept_lo c0 <= c1 <= accept_hi c0)%N ->
  (0x80 <= c2 <= 0xBF)%N ->
  EncodeRune (rune3 c0 c1 c2) = [byte_of c0; byte_of c1; byte_of c2].
Proof.
  intros H0 H1 H2. rewrite rune3_arith. unfold accept_lo, accept_hi in H1.
  unfold EncodeRune, is_surrogate, between, MaxRune.
  destruct (N.eqb_spec c0 0xE0), (N.eqb_spec c0 0xED), (N.eqb_spec c0 0xF0),
    (N.eqb_spec c0 0xF4); try lia;
    decide_cmp; split_cmp; cbn [orb andb]; arith_bits;
    lor_plus 4%N; lor_plus 6%N; lor_plus 6%N; repeat f_equal; lia.
Qed.

Lemma Encode_rune4 c0 c1 c2 c3 :
  (0xF0 <= c0 <= 0xF4)%N -> (accept_lo c0 <= c1 <= accept_hi c0)%N ->
  (0x80 <= c2 <= 0xBF)%N -> (0x80 <= c3 <= 0xBF)%N ->
  EncodeRune (rune4 c0 c1 c2 c3)
  = [byte_of c0; byte_of c1; byte_of c2; byte_of c3].
Proof.
  intros H0 H1 H2 H3. rewrite rune4_arith. unfold accept_lo, accept_hi in H1.
  unfold EncodeRune, is_surrogate, between, MaxRune.
  destruct (N.eqb_spec c0 0xE0), (N.eqb_spec c0 0xED), (N.eqb_spec c0 0xF0),
    (N.eqb_spec c0 0xF4); try lia;
    decide_cmp; cbn [orb andb]; arith_bits;
    lor_plus 3%N; lor_plus 6%N; lor_plus 6%N; lor_plus 6%N;
    repeat f_equal; lia.
Qed.

Lemma DecodeRune_ascii b t :
  (code b < RuneSelf)%N -> DecodeRune (b :: t) = (code b, 1).
Proof.
  intros H. unfold DecodeRune. now rewrite (ltb_true _ _ H).
Qed.

Lemma accept_range c0 c1 :
  between (accept_lo c0) c1 (accept_hi c0) = true ->
  (accept_lo c0 <= c1 <= accept_hi c0)%N /\ (0x80 <= c1 <= 0xBF)%N.
Proof.
  rewrite between_spec. unfold accept_lo, accept_hi.
  destruct (N.eqb_spec c0 0xE0), (N.eqb_spec c0 0xED), (N.eqb_spec c0 0xF0),
    (N.eqb_spec c0 0xF4); lia.
Qed.

Lemma rune2_range c0 c1 :
  (0xC2 <= c0 <= 0xDF)%N -> (0x80 <= c1 <= 0xBF)%N ->
  (RuneSelf <= rune2 c0 c1 <= MaxRune)%N.
Proof. intros. rewrite rune2_arith. unfold RuneSelf, MaxRune. lia. Qed.

Lemma rune3_range c0 c1 c2 :
  (0xE0 <= c0 <= 0xEF)%N -> (accept_lo c0 <= c1 <= accept_hi c0)%N ->
  (0x80 <= c2 <= 0xBF)%N ->
  (RuneSelf <= rune3 c0 c1 c2 <= MaxRune)%N.
Proof.
  intros H0 H1 H2. rewrite rune3_arith. unfold RuneSelf, MaxRune.
  unfold accept_lo, accept_hi in H1.
  destruct (N.eqb_spec c0 0xE0), (N.eqb_spec c0 0xED), (N.eqb_spec c0 0xF0),
    (N.eqb_spec c0 0xF4); lia.
Qed.

Lemma rune4_range c0 c1 c2 c3 :
  (0xF0 <= c0 <= 0xF4)%N -> (accept_lo c0 <= c1 <= accept_hi c0)%N ->
  (0x80 <= c2 <= 0xBF)%N -> (0x80 <= c3 <= 0xBF)%N ->
  (RuneSelf <= rune4 c0 c1 c2 c3 <= MaxRune)%N.
Proof.
  intros H0 H1 H2 H3. rewrite rune4_arith. unfold RuneSelf, MaxRune.
  unfold accept_lo, accept_hi in H1.
  destruct (N.eqb_spec c0 0xE0), (N.eqb_spec c0 0xED), (N.eqb_spec c0 0xF0),
    (N.eqb_spec c0 0xF4); lia.
Qed.

(** [DecodeRune] on a first byte outside ASCII: an error of width one,
    or a rune of two to four bytes that [EncodeRune] writes back. *)
Lemma DecodeRune_high b t c size :
  (RuneSelf <= code b)%N -> DecodeRune (b :: t) = (c, size) ->
  (c = RuneError /\ size = 1) \/ multibyte (b :: t) c size.
Proof.
  intros Hb. unfold DecodeRune.
  rewrite (ltb_false _ _ Hb).
  destruct (between 0xC2 (code b) 0xDF) eqn:E2.
  { apply between_spec in E2.
    destruct t as [|b1 t]; [intros [= <- <-]; now left|].
    destruct (between _ (code b1) _) eqn:E1; [|intros [= <- <-]; now left].
    apply accept_range in E1 as [_ E1].
    fold (rune2 (code b) (code b1)). intros [= <- <-]. right.
    apply (Multibyte _ _ _ [b; b1] t); try reflexivity.
    - lia.
    - rewrite Encode_rune2 by assumption. now rewrite !byte_of_code.
    - intros X. cbn [app]. unfold DecodeRune.
      rewrite (ltb_false _ _ Hb).
      rewrite (proj2 (between_spec _ _ _) E2).
      unfold accept_lo, accept_hi.
      destruct (N.eqb_spec (code b) 0xE0), (N.eqb_spec (code b) 0xED),
        (N.eqb_spec (code b) 0xF0), (N.eqb_spec (code b) 0xF4); try lia.
      now rewrite (proj2 (between_spec _ _ _) E1).
    - repeat constructor; unfold RuneSelf; lia.
    - now apply rune2_range. }
  destruct (between 0xE0 (code b) 0xEF) eqn:E3.
  { apply between_spec in E3.
    destruct t as [|b1 [|b2 t]]; try (intros [= <- <-]; now left).
    destruct (between _ (code b1) _) eqn:E1; [|intros [= <- <-]; now left].
    destruct (is_cont b2) eqn:Ec2; [|intros [= <- <-]; now left].
    cbn [andb]. pose proof E1 as E1'. apply accept_range in E1 as [E1 E1r].
    apply between_spec in Ec2.
    fold (rune3 (code b) (code b1) (code b2)). intros [= <- <-]. right.
    apply (Multibyte _ _ _ [b; b1; b2] t); try reflexivity.
    - lia.
    - rewrite Encode_rune3 by assumption. now rewrite !byte_of_code.
    - intros X. cbn [app]. unfold DecodeRune.
      rewrite (ltb_false _ _ Hb), E2.
      rewrite (proj2 (between_spec _ _ _) E3), E1'.
      unfold is_cont. now rewrite (proj2 (between_spec _ _ _) Ec2).
    - repeat constructor; unfold RuneSelf; lia.
    - now apply rune3_range. }
  destruct (between 0xF0 (code b) 0xF4) eqn:E4;
    [|intros [= <- <-]; now left].
  apply between_spec in E4.
  destruct t as [|b1 [|b2 [|b3 t]]]; try (intros [= <- <-]; now left).
  destruct (between _ (code b1) _) eqn:E1; [|intros [= <- <-]; now left].
  destruct (is_cont b2) eqn:Ec2; [|intros [= <- <-]; now left].
  destruct (is_cont b3) eqn:Ec3; [|intros [= <- <-]; now left].
  cbn [andb]. pose proof E1 as E1'. apply accept_range in E1 as [E1 E1r].
  apply between_spec in Ec2. apply between_spec in Ec3.
  fold (rune4 (code b) (code b1) (code b2) (code b3)).
  intros [= <- <-]. right.
  apply (Multibyte _ _ _ [b; b1; b2; b3] t); try reflexivity.
  - lia.
  - rewrite Encode_rune4 by assumption. now rewrite !byte_of_code.
  - intros X. cbn [app]. unfold DecodeRune.
    rewrite (ltb_false _ _ Hb), E2, E3.
    rewrite (proj2 (between_spec _ _ _) E4), E1'.
    unfold is_cont.
    now rewrite (proj2 (between_spec _ _ _) Ec2),
      (proj2 (between_spec _ _ _) Ec3).
  - repeat constructor; unfold RuneSelf; lia.
  - now apply rune4_range.
Qed.

End utf8_facts.

(** ** json: strings *)

Module json_facts.

Import vocab.

Import utf8 utf8_facts json.

Lemma pmap_pmap {A B C} (f : A -> B) (g : B -> C) (p : parsed A) :
  pmap g (pmap f p) = pmap (fun a => g (f a)) p.
Proof. destruct p; reflexivity. Qed.

(** A character written as it is. *)
Lemma parse_chars_safe b f Y :
  (code b < RuneSelf)%N -> htmlSafe b = true ->
  parse_chars (S f) (b :: Y) = pmap (app [b]) (parse_chars f Y).
Proof.
  intros Hb Hs. destruct b; try discriminate Hs; try discriminate Hb;
    reflexivity.
Qed.

(** An escaped ASCII character. *)
Lemma parse_chars_escape b f Y :
  (code b < RuneSelf)%N -> htmlSafe b = false ->
  parse_chars (S f) (escape_ascii b ++ Y) = pmap (app [b]) (parse_chars f Y).
Proof.
  intros Hb Hs. destruct b; try discriminate Hs; try discriminate Hb;
    reflexivity.
Qed.

Lemma high_not_special b :
  (RuneSelf <= code b)%N ->
  Byte.eqb b x22 = false /\ Byte.eqb b x5c = false
  /\ (code b <? 0x20)%N = false /\ (code b <? RuneSelf)%N = false.
Proof.
  intros Hb. unfold RuneSelf in *.
  destruct b; try (exfalso; vm_compute in Hb; now apply Hb);
    repeat split; reflexivity.
Qed.

(** A rune of several bytes written as it is. *)
Lemma parse_chars_multibyte s c size f Y :
  multibyte s c size ->
  forall pre post, s = pre ++ post -> length pre = size ->
  parse_chars (S f) (pre ++ Y) = pmap (app pre) (parse_chars f Y).
Proof.
  intros [pre' post' Hs Hl Hsz He Hd Hh Hr] pre post Hs' Hl'.
  assert (pre = pre') as ->.
  { rewrite Hs in Hs'. apply (f_equal (firstn size)) in Hs'.
    rewrite <- Hl in Hs' at 1. rewrite <- Hl' in Hs'.
    now rewrite !firstn_app, !Nat.sub_diag, !firstn_all, !firstn_O,
      !app_nil_r in Hs'. }
  destruct pre' as [|b pre']; [cbn in Hl; lia|].
  inversion Hh as [|? ? Hb _]; subst.
  destruct (high_not_special b Hb) as (E1 & E2 & E3 & E4).
  cbn [app parse_chars]. rewrite E1, E2, E3, E4.
  change (b :: pre' ++ Y) with ((b :: pre') ++ Y).
  rewrite Hd, He. rewrite skipn_app, skipn_all, Nat.sub_diag. reflexivity.
Qed.

(** The line and paragraph separators, written as escapes. *)
Lemma parse_chars_separator c f Y :
  c = 0x2028%N \/ c = 0x2029%N ->
  parse_chars (S f)
    ([x5c; x75; x32; x30; x32; hex_digit (N.land c 0xF)] ++ Y)
  = pmap (app (EncodeRune c)) (parse_chars f Y).
Proof. intros [-> | ->]; reflexivity. Qed.

(** Reading back the characters [encode_runes] wrote for a valid
    string gives the string. *)
Lemma parse_chars_encode_runes n :
  forall s, length s <= n -> Valid_fuel n s = true ->
  forall fuel rest, length (encode_runes n s) < fuel ->
  parse_chars fuel (encode_runes n s ++ x22 :: rest) = Parsed s rest.
Proof.
  induction n as [|n IH]; intros s Hlen Hv fuel rest Hf.
  { destruct s; [|cbn in Hlen; lia].
    destruct fuel; [cbn in Hf; lia|]. reflexivity. }
  destruct s as [|b t].
  { destruct fuel; [cbn in Hf; lia|]. reflexivity. }
  cbn [encode_runes] in *. cbn [Valid_fuel] in Hv.
  destruct (N.ltb_spec (code b) RuneSelf) as [Hb|Hb].
  - (* ASCII *)
    rewrite (DecodeRune_ascii b t Hb) in Hv.
    assert (Hne : (code b =? RuneError)%N = false).
    { apply N.eqb_neq. unfold RuneSelf, RuneError in *. lia. }
    rewrite Hne in Hv. cbn [andb skipn] in Hv.
    cbn [length] in Hlen.
    destruct fuel as [|fuel]; [lia|].
    destruct (htmlSafe b) eqn:Hs.
    + cbn [app] in *. rewrite parse_chars_safe by assumption.
      rewrite IH; [reflexivity | lia | assumption | cbn in Hf; lia].
    + rewrite <- app_assoc, parse_chars_escape by assumption.
      rewrite IH; [reflexivity | lia | assumption |].
      rewrite length_app in Hf.
      assert (1 <= length (escape_ascii b)) by (destruct b; cbn; lia).
      lia.
  - (* outside ASCII *)
    destruct (DecodeRune (b :: t)) as [c size] eqn:Hd.
    destruct ((c =? RuneError)%N && Nat.eqb size 1) eqn:Herr; [discriminate|].
    destruct (DecodeRune_high b t c size Hb Hd) as [[-> ->] | Hm].
    { discriminate Herr. }
    pose proof Hm as [pre post Hs Hl Hsz He Hdec Hh Hr].
    assert (Hskip : skipn size (b :: t) = post).
    { rewrite Hs, <- Hl, skipn_app, skipn_all, Nat.sub_diag. reflexivity. }
    assert (Hfirst : firstn size (b :: t) = pre).
    { rewrite Hs, <- Hl, firstn_app, firstn_all, Nat.sub_diag, firstn_O.
      apply app_nil_r. }
    rewrite Hskip in *. 
    assert (Hpost : length post <= n).
    { apply (f_equal (@length _)) in Hs. rewrite length_app in Hs.
      cbn [length] in Hs, Hlen. lia. }
    destruct fuel as [|fuel]; [lia|].
    destruct ((c =? 0x2028)%N || (c =? 0x2029)%N) eqn:Hsep.
    + rewrite <- app_assoc, parse_chars_separator.
      2:{ apply orb_true_iff in Hsep as [H|H]; apply N.eqb_eq in H; tauto. }
      rewrite He, IH; [| lia | assumption |].
      * cbn [pmap]. now rewrite <- Hs.
      * rewrite length_app in Hf. cbn [length] in Hf. lia.
    + rewrite Hfirst in *. rewrite <- app_assoc.
      rewrite (parse_chars_multibyte _ _ _ _ _ Hm pre post Hs Hl).
      rewrite IH; [| lia | assumption |].
      * cbn [pmap]. now rewrite <- Hs.
      * rewrite length_app in Hf. lia.
Qed.

Lemma parse_string_encode s rest :
  Valid s = true ->
  parse_string (encode_runes (length s) s ++ x22 :: rest) = Parsed s rest.
Proof.
  intros Hv. unfold parse_string.
  apply parse_chars_encode_runes; [lia | exact Hv |].
  rewrite length_app. cbn [length]. lia.
Qed.

End json_facts.

(** ** strconv and number literals *)

Module strconv_facts.

Import vocab.

Import utf8 strconv json.

Lemma bytes_uint_bytes (d : Decimal.uint) : bytes_uint (uint_bytes d) = Some d.
Proof. induction d; cbn; rewrite ?IHd; reflexivity. Qed.

Lemma uint_bytes_digits (d : Decimal.uint) :
  Forall (fun b => is_digit b = true) (uint_bytes d).
Proof. induction d; cbn; constructor; trivial. Qed.

Lemma to_uint_head (p : positive) (d' : Decimal.uint) :
  Pos.to_uint p <> Decimal.D0 d'.
Proof.
  pose proof (DecimalPos.Unsigned.to_of (Pos.to_uint p)) as H.
  rewrite DecimalPos.Unsigned.of_to in H. cbn [N.to_uint] in H.
  assert (Hnz : Decimal.nzhead (Pos.to_uint p) <> Decimal.Nil).
  { intros Hn. apply unorm_0 in Hn. rewrite Hn in H.
    now apply (Unsigned.to_uint_nonzero p). }
  rewrite (unorm_nzhead _ Hnz) in H. rewrite H. apply nzhead_nonzero.
Qed.

Lemma uint_bytes_head d :
  d <> Decimal.Nil -> (forall d', d <> Decimal.D0 d') ->
  canonical_digits (uint_bytes d).
Proof.
  intros Hn H0. right.
  destruct d; try congruence;
    try (eexists _, _; split; [reflexivity|]; split; [reflexivity|];
         split; [discriminate | apply uint_bytes_digits]).
Qed.

Lemma FormatInt_shape (z : Z) :
  exists ds, canonical_digits ds
    /\ (FormatInt z = ds \/ FormatInt z = x2d :: ds).
Proof.
  unfold FormatInt. destruct z as [|p|p]; cbn [Z.to_int].
  - exists [x30]. split; [now left | now left].
  - exists (uint_bytes (Pos.to_uint p)). split; [|now left].
    apply uint_bytes_head; [apply Unsigned.to_uint_nonnil | apply to_uint_head].
  - exists (uint_bytes (Pos.to_uint p)). split; [|now right].
    apply uint_bytes_head; [apply Unsigned.to_uint_nonnil | apply to_uint_head].
Qed.

Lemma ParseInt_FormatInt (z : Z) :
  (- 2 ^ 63 <= z <= 2 ^ 63 - 1)%Z -> ParseInt (FormatInt z) = Some z.
Proof.
  intros Hz. pose proof (DecimalZ.of_to z) as Hof.
  unfold FormatInt, ParseInt. destruct (Z.to_int z) as [d|d] eqn:E.
  - assert (Hd : d <> Decimal.Nil).
    { destruct z; cbn in E; inversion E; subst;
        [discriminate | apply Unsigned.to_uint_nonnil]. }
    cbn [Z.of_int] in Hof.
    assert (Hs : match uint_bytes d with
                 | x2d :: t => (true, t)
                 | x2b :: t => (false, t)
                 | _ => (false, uint_bytes d)
                 end = (false, uint_bytes d)).
    { destruct d; try reflexivity. }
    rewrite Hs. cbv beta iota.
    destruct (uint_bytes d) eqn:Eb; [destruct d; discriminate || congruence|].
    rewrite <- Eb, bytes_uint_bytes, Hof.
    replace ((- 2 ^ 63 <=? z)%Z && (z <=? 2 ^ 63 - 1)%Z) with true; [reflexivity|].
    symmetry. apply andb_true_iff. split; apply Z.leb_le; lia.
  - assert (Hd : d <> Decimal.Nil).
    { destruct z; cbn in E; inversion E; subst.
      apply Unsigned.to_uint_nonnil. }
    cbn [Z.of_int] in Hof. cbv beta iota.
    destruct (uint_bytes d) eqn:Eb; [destruct d; discriminate || congruence|].
    rewrite <- Eb, bytes_uint_bytes, Hof.
    replace ((- 2 ^ 63 <=? z)%Z && (z <=? 2 ^ 63 - 1)%Z) with true; [reflexivity|].
    symmetry. apply andb_true_iff. split; apply Z.leb_le; lia.
Qed.

Lemma span_digits_app ds rest :
  Forall (fun b => is_digit b = true) ds -> delimited rest ->
  span_digits (ds ++ rest) = (ds, rest).
Proof.
  intros Hds Hr. induction Hds as [|d ds Hd _ IH]; cbn [app].
  - destruct rest as [|b rest]; [reflexivity|].
    destruct Hr as [-> | [-> | ->]]; reflexivity.
  - cbn [span_digits]. now rewrite Hd, IH.
Qed.

Lemma number_frac_delimited lit rest :
  delimited rest -> number_frac lit rest = Parsed lit rest.
Proof.
  destruct rest as [|b rest]; [reflexivity|].
  intros [-> | [-> | ->]]; reflexivity.
Qed.

Lemma parse_number_digits sign ds rest :
  (sign = [] \/ sign = [x2d]) -> canonical_digits ds -> delimited rest ->
  parse_number ((sign ++ ds) ++ rest) = Parsed (sign ++ ds) rest.
Proof.
  intros Hsign Hds Hr.
  assert (Hbody : forall sg,
    match ds ++ rest with
    | [] => Truncated
    | d :: t =>
        if Byte.eqb d x30 then number_frac (sg ++ [d]) t
        else if is_digit d then
          let '(ds', rest') := span_digits t in
          number_frac (sg ++ d :: ds') rest'
        else Invalid
    end = Parsed (sg ++ ds) rest).
  { intros sg. destruct Hds as [-> | (d & t & -> & Hd & Hnz & Ht)].
    - cbn. now apply number_frac_delimited.
    - cbn [app]. destruct (Byte.eqb d x30) eqn:E0.
      { apply Byte.byte_dec_bl in E0. contradiction. }
      rewrite Hd, (span_digits_app t rest Ht Hr).
      now apply number_frac_delimited. }
  unfold parse_number. destruct Hsign as [-> | ->].
  - cbn [app]. 
    assert (Hh : match ds ++ rest with
                 | x2d :: t => ([x2d], t)
                 | _ => ([], ds ++ rest)
                 end = ([], ds ++ rest)).
    { destruct Hds as [-> | (d & t & -> & Hd & _)]; [reflexivity|].
      cbn [app]. destruct d; try reflexivity; discriminate Hd. }
    rewrite Hh. apply (Hbody []).
  - cbn [app]. apply (Hbody [x2d]).
Qed.

Lemma parse_number_FormatInt z rest :
  delimited rest ->
  parse_number (FormatInt z ++ rest) = Parsed (FormatInt z) rest.
Proof.
  intros Hr. destruct (FormatInt_shape z) as (ds & Hds & [-> | ->]).
  - apply (parse_number_digits [] ds rest); auto.
  - apply (parse_number_digits [x2d] ds rest); auto.
Qed.

Lemma FormatInt_head z :
  exists b t, FormatInt z = b :: t /\ (Byte.eqb b x2d || is_digit b = true)
    /\ b <> x7b /\ b <> x5b /\ b <> x22 /\ b <> x74 /\ b <> x66 /\ b <> x6e
    /\ is_space b = false.
Proof.
  destruct (FormatInt_shape z) as (ds & Hds & [-> | ->]).
  - destruct Hds as [-> | (d & t & -> & Hd & _)].
    + eexists _, _. split; [reflexivity|]. repeat split; discriminate.
    + exists d, t. split; [reflexivity|].
      destruct d; try discriminate Hd; repeat split; discriminate.
  - eexists _, _. split; [reflexivity|]. repeat split; discriminate.
Qed.

End strconv_facts.

(** ** json: documents *)

Module doc_facts.

Import vocab.

Import utf8 utf8_facts strconv strconv_facts json json_facts.

(** Induction on documents, through the lists they nest. *)
Lemma value_ind' (P : value -> Prop) :
  P Null -> (forall b, P (Bool b)) -> (forall lit, P (Number lit)) ->
  (forall s, P (Str s)) ->
  (forall l, Forall P l -> P (Array l)) ->
  (forall ms, Forall (fun m => P (snd m)) ms -> P (Object ms)) ->
  forall v, P v.
Proof.
  intros HN HB HNum HS HA HO.
  fix IH 1. intros [| b | lit | s | l | ms].
  - exact HN.
  - apply HB.
  - apply HNum.
  - apply HS.
  - apply HA. induction l as [|x l IHl]; constructor; [apply IH | exact IHl].
  - apply HO. induction ms as [|[k x] ms IHms]; constructor;
      [apply IH | exact IHms].
Qed.

Lemma print_head v :
  written v -> exists b t, print v = b :: t /\ opener v b.
Proof.
  destruct v as [| [|] | lit | s | l | ms]; cbn [written print opener];
    intros H; try (eexists _, _; split; reflexivity).
  destruct H as [z ->].
  destruct (FormatInt_head z) as (b & t & -> & Hb & _). now exists b, t.
Qed.

Lemma opener_not_space v b : written v -> opener v b -> is_space b = false.
Proof.
  destruct v as [| [|] | lit | s | l | ms]; cbn [opener]; intros Hw;
    try (intros ->; reflexivity).
  intros H. destruct b; try discriminate H; reflexivity.
Qed.

Lemma skip_space_head b t : is_space b = false -> skip_space (b :: t) = b :: t.
Proof. intros H. cbn [skip_space]. now rewrite H. Qed.

Lemma skip_space_print v rest :
  written v -> skip_space (print v ++ rest) = print v ++ rest.
Proof.
  intros Hw. destruct (print_head v Hw) as (b & t & -> & Ho).
  cbn [app]. apply skip_space_head. now apply (opener_not_space v).
Qed.

Lemma print_nonempty v : written v -> 1 <= length (print v).
Proof.
  intros Hw. destruct (print_head v Hw) as (b & t & -> & _). cbn. lia.
Qed.

Lemma join_cons sep p q ps :
  join sep (p :: q :: ps) = p ++ sep ++ join sep (q :: ps).
Proof. reflexivity. Qed.

Lemma delimited_comma rest : delimited (x2c :: rest).
Proof. cbn. tauto. Qed.

Lemma delimited_bracket rest : delimited (x5d :: rest).
Proof. cbn. tauto. Qed.

Lemma delimited_brace rest : delimited (x7d :: rest).
Proof. cbn. tauto. Qed.

#[local] Hint Resolve delimited_comma delimited_bracket delimited_brace : core.

(** The elements of an array, read back. *)
Lemma parse_elements_print pv x l :
  Forall (fun v => written v /\ forall rest, delimited rest ->
                     pv (print v ++ rest) = Parsed v rest) (x :: l) ->
  forall n rest, length l < n ->
  parse_elements pv n (join [x2c] (map print (x :: l)) ++ x5d :: rest)
  = Parsed (x :: l) rest.
Proof.
  revert x. induction l as [|y l IH]; intros x Hall n rest Hn.
  - inversion Hall as [|? ? [Hw Hx] _]; subst.
    destruct n as [|n]; [lia|]. cbn [map join parse_elements].
    rewrite Hx by auto. rewrite skip_space_head by reflexivity.
    reflexivity.
  - inversion Hall as [|? ? [Hw Hx] Hall']; subst.
    destruct n as [|n]; [cbn in Hn; lia|].
    cbn [map]. rewrite join_cons. cbn [parse_elements].
    repeat (rewrite <- ?app_assoc; cbn [app]). rewrite Hx by auto.
    rewrite skip_space_head by reflexivity.
    change (print y :: map print l) with (map print (y :: l)).
    rewrite (IH y Hall' n rest) by (cbn in Hn; lia). reflexivity.
Qed.

(** The members of an object, read back. *)
Lemma parse_members_print pv m ms :
  Forall (fun m => Valid (fst m) = true /\ written (snd m)
                   /\ forall rest, delimited rest ->
                        pv (print (snd m) ++ rest) = Parsed (snd m) rest)
    (m :: ms) ->
  forall n rest, length ms < n ->
  parse_members pv n (join [x2c] (map member_text (m :: ms)) ++ x7d :: rest)
  = Parsed (m :: ms) rest.
Proof.
  revert m. induction ms as [|m' ms IH]; intros [k v] Hall n rest Hn.
  - inversion Hall as [|? ? (Hk & Hw & Hv) _]; subst. cbn [fst snd] in *.
    destruct n as [|n]; [lia|]. cbn [map join parse_members].
    unfold member_text, encode_string. cbn [fst snd app].
    rewrite skip_space_head by reflexivity.
    repeat (rewrite <- ?app_assoc; cbn [app]).
    rewrite parse_string_encode by exact Hk.
    rewrite skip_space_head by reflexivity.
    rewrite Hv by auto. rewrite skip_space_head by reflexivity.
    reflexivity.
  - inversion Hall as [|? ? (Hk & Hw & Hv) Hall']; subst. cbn [fst snd] in *.
    destruct n as [|n]; [cbn in Hn; lia|].
    cbn [map]. rewrite join_cons. cbn [parse_members].
    unfold member_text at 1, encode_string. cbn [fst snd app].
    rewrite skip_space_head by reflexivity.
    repeat (rewrite <- ?app_assoc; cbn [app]).
    rewrite parse_string_encode by exact Hk.
    rewrite skip_space_head by reflexivity.
    repeat (rewrite <- ?app_assoc; cbn [app]).
    rewrite Hv by auto. rewrite skip_space_head by reflexivity.
    change (member_text m' :: map member_text ms)
      with (map member_text (m' :: ms)).
    rewrite (IH m' Hall' n rest) by (cbn in Hn; lia). reflexivity.
Qed.

Lemma number_dispatch b t fuel :
  Byte.eqb b x2d || is_digit b = true ->
  parse_value (S fuel) (b :: t) = pmap Number (parse_number (b :: t)).
Proof. intros H. destruct b; try discriminate H; reflexivity. Qed.

Lemma string_dispatch t fuel :
  parse_value (S fuel) (x22 :: t) = pmap Str (parse_string t).
Proof. reflexivity. Qed.

Lemma object_dispatch t fuel :
  parse_value (S fuel) (x7b :: x22 :: t)
  = pmap Object (parse_members (parse_value fuel)
                   (S (length (x22 :: t))) (x22 :: t)).
Proof. reflexivity. Qed.

Lemma array_dispatch b t fuel :
  is_space b = false -> b <> x5d ->
  parse_value (S fuel) (x5b :: b :: t)
  = pmap Array (parse_elements (parse_value fuel) (S (length (b :: t))) (b :: t)).
Proof.
  intros Hs Hb. destruct b; try discriminate Hs; try congruence; reflexivity.
Qed.

Lemma opener_not_bracket v b : written v -> opener v b -> b <> x5d.
Proof.
  destruct v as [| [|] | lit | s | l | ms]; cbn [opener]; intros Hw;
    try (intros ->; discriminate).
  intros H ->. discriminate H.
Qed.

Lemma written_array l : written (Array l) <-> Forall written l.
Proof.
  cbn [written]. induction l as [|x l IH]; cbn [fold_right].
  - split; auto.
  - rewrite IH. split.
    + intros [? ?]. now constructor.
    + intros H. inversion H; auto.
Qed.

Lemma written_object ms :
  written (Object ms)
  <-> Forall (fun m => Valid (fst m) = true /\ written (snd m)) ms.
Proof.
  cbn [written]. induction ms as [|m ms IH]; cbn [fold_right].
  - split; auto.
  - rewrite IH. split.
    + intros [? ?]. now constructor.
    + intros H. inversion H; auto.
Qed.

Lemma depth_array x l :
  In x l -> depth x < depth (Array l).
Proof.
  cbn [depth]. induction l as [|y l IH]; intros Hin; [contradiction|].
  cbn [fold_right]. destruct Hin as [-> | Hin]; [lia|].
  specialize (IH Hin). lia.
Qed.

Lemma depth_object m ms :
  In m ms -> depth (snd m) < depth (Object ms).
Proof.
  cbn [depth]. induction ms as [|y l IH]; intros Hin; [contradiction|].
  cbn [fold_right]. destruct Hin as [-> | Hin]; [lia|].
  specialize (IH Hin). lia.
Qed.

Lemma join_length_elems l :
  Forall written l -> length l <= length (join [x2c] (map print l)).
Proof.
  induction 1 as [|x l Hx Hl IH]; [cbn; lia|].
  destruct l as [|y l].
  - cbn [map join length]. pose proof (print_nonempty x Hx). lia.
  - cbn [map]. rewrite join_cons, !length_app. cbn [map length] in *.
    pose proof (print_nonempty x Hx). lia.
Qed.

Lemma join_length_members ms :
  length ms <= length (join [x2c] (map member_text ms)).
Proof.
  assert (Hm : forall m, 1 <= length (member_text m)).
  { intros m. unfold member_text, encode_string. cbn [app length]. lia. }
  induction ms as [|x l IH]; [cbn; lia|].
  destruct l as [|y l].
  - cbn [map join length]. pose proof (Hm x). lia.
  - cbn [map]. rewrite join_cons, !length_app. cbn [map length] in *.
    pose proof (Hm x). lia.
Qed.

(** Reading back a written document gives the document. *)
Theorem parse_value_print v :
  written v ->
  forall fuel rest, depth v < fuel -> delimited rest ->
  parse_value fuel (print v ++ rest) = Parsed v rest.
Proof.
  induction v as [| b | lit | s | l IH | ms IH] using value_ind';
    intros Hw fuel rest Hf Hr; (destruct fuel as [|fuel]; [lia|]).
  - reflexivity.
  - destruct b; reflexivity.
  - destruct Hw as [z ->]. cbn [print].
    destruct (FormatInt_head z) as (b & t & E & Hb & _).
    rewrite E. cbn [app]. rewrite number_dispatch by exact Hb.
    change (b :: t ++ rest) with ((b :: t) ++ rest). rewrite <- E.
    now rewrite parse_number_FormatInt.
  - cbn [written] in Hw. cbn [print]. unfold encode_string.
    cbn [app]. repeat (rewrite <- ?app_assoc; cbn [app]).
    rewrite string_dispatch. now rewrite parse_string_encode.
  - apply written_array in Hw.
    destruct l as [|x l]; [reflexivity|].
    cbn [print]. cbn [app]. repeat (rewrite <- ?app_assoc; cbn [app]).
    assert (Hx : written x) by now inversion Hw.
    destruct (print_head x Hx) as (b & t & Eb & Ho).
    assert (exists t', join [x2c] (map print (x :: l)) ++ x5d :: rest
                            = b :: t') as [t' Ej].
    { destruct l; cbn [map join]; rewrite ?join_cons, Eb; cbn [app];
        eexists; reflexivity. }
    rewrite Ej, array_dispatch;
      [| now apply (opener_not_space x) | now apply (opener_not_bracket x)].
    rewrite <- Ej. rewrite parse_elements_print; [reflexivity | |].
    + rewrite List.Forall_forall in IH, Hw |- *. intros y Hy. split; [auto|].
      intros rest' Hr'. apply IH; auto.
      pose proof (depth_array y (x :: l) Hy). lia.
    + rewrite length_app. pose proof (join_length_elems (x :: l) Hw).
      cbn [length] in *. lia.
  - apply written_object in Hw.
    destruct ms as [|m ms]; [reflexivity|].
    cbn [print]. cbn [app]. repeat (rewrite <- ?app_assoc; cbn [app]).
    change (map (fun m => encode_string (fst m) ++ x3a :: print (snd m)))
      with (map member_text).
    assert (exists t', join [x2c] (map member_text (m :: ms)) ++ x7d :: rest
                            = x22 :: t') as [t' Ej].
    { destruct ms; cbn [map join]; rewrite ?join_cons;
        unfold member_text at 1, encode_string; cbn [app];
        eexists; reflexivity. }
    rewrite Ej.
    rewrite object_dispatch.
    rewrite <- Ej. rewrite parse_members_print; [reflexivity | |].
    + rewrite List.Forall_forall in IH, Hw |- *. intros y Hy.
      destruct (Hw y Hy) as [Hk Hy']. repeat split; auto.
      intros rest' Hr'. apply IH; auto.
      pose proof (depth_object y (m :: ms) Hy). lia.
    + rewrite length_app. pose proof (join_length_members (m :: ms)).
      cbn [length] in *. lia.
Qed.

Lemma depth_le_join (f : value -> list byte) (l : list value) :
  Forall (fun x => depth x <= length (f x)) l ->
  fold_right (fun x acc => Nat.max (depth x) acc) 0 l
  <= length (join [x2c] (map f l)).
Proof.
  induction 1 as [|x l Hx Hl IH]; [cbn; lia|].
  destruct l as [|y l].
  - cbn [map join fold_right]. lia.
  - cbn [map]. rewrite join_cons, !length_app.
    cbn [fold_right map] in *. lia.
Qed.

Lemma depth_le_print v : depth v <= length (print v).
Proof.
  induction v as [| b | lit | s | l IH | ms IH] using value_ind';
    cbn [depth]; try lia.
  - cbn [print length]. rewrite length_app. cbn [length].
    pose proof (depth_le_join print l IH). lia.
  - cbn [print length]. rewrite length_app. cbn [length].
    assert (H : fold_right (fun m acc => Nat.max (depth (snd m)) acc) 0 ms
                <= length (join [x2c] (map member_text ms))).
    { clear -IH. induction IH as [|x l Hx Hl IH']; [cbn; lia|].
      assert (Hm : depth (snd x) <= length (member_text x)).
      { unfold member_text. rewrite length_app. cbn [length]. lia. }
      destruct l as [|y l].
      - cbn [map join fold_right]. lia.
      - cbn [map]. rewrite join_cons, !length_app.
        cbn [fold_right map] in *. lia. }
    change (map (fun m => encode_string (fst m) ++ x3a :: print (snd m)))
      with (map member_text). lia.
Qed.

(** [parse] reads back what [print] wrote. *)
Lemma parse_print v : written v -> parse (print v) = Parsed v [].
Proof.
  intros Hw. unfold parse.
  rewrite <- (app_nil_r (print v)) at 2.
  apply parse_value_print; [exact Hw | | exact I].
  pose proof (depth_le_print v). lia.
Qed.

End doc_facts.

(** ** base64 *)

Module base64_facts.

Import vocab.

Import utf8 utf8_facts base64.

Lemma list_ind3 {A} (P : list A -> Prop) :
  P [] -> (forall a, P [a]) -> (forall a b, P [a; b]) ->
  (forall a b c l, P l -> P (a :: b :: c :: l)) ->
  forall l, P l.
Proof.
  intros H0 H1 H2 H3. fix IH 1.
  intros [|a [|b [|c l]]]; [exact H0 | apply H1 | apply H2 | apply H3, IH].
Qed.

Lemma sextets_ok : forallb sextet_ok (range 0 63) = true.
Proof. vm_compute. reflexivity. Qed.

Lemma encode_char_spec v :
  (v < 64)%N ->
  decode_char (encode_char v) = Some v
  /\ Byte.eqb (encode_char v) pad = false
  /\ Byte.eqb (encode_char v) x0d = false
  /\ Byte.eqb (encode_char v) x0a = false.
Proof.
  intros Hv. pose proof sextets_ok as H.
  rewrite forallb_forall in H. specialize (H v).
  unfold sextet_ok in H.
  destruct (decode_char (encode_char v)) as [v'|].
  2:{ discriminate H. apply in_range, between_spec. lia. }
  assert (Hin : In v (range 0 63)) by (apply in_range, between_spec; lia).
  specialize (H Hin).
  rewrite !andb_true_iff, !negb_true_iff, N.eqb_eq in H.
  destruct H as [[[-> ?] ?] ?]. auto.
Qed.

Lemma byte_of_eq (n : N) (a : byte) : n = code a -> byte_of n = a.
Proof. intros ->. apply byte_of_code. Qed.

Lemma sextet_bounds (val : N) :
  (val < 16777216)%N ->
  (val / 262144 < 64 /\ (val / 4096) mod 64 < 64
   /\ (val / 64) mod 64 < 64 /\ val mod 64 < 64)%N.
Proof. intros H. lia. Qed.

Ltac sextets val :=
  let H := fresh "Hb" in
  assert (H : (val < 16777216)%N) by lia;
  destruct (sextet_bounds val H) as (?Hs0 & ?Hs1 & ?Hs2 & ?Hs3);
  destruct (encode_char_spec _ Hs0) as (?E0 & ?P0 & ?R0 & ?N0);
  destruct (encode_char_spec _ Hs1) as (?E1 & ?P1 & ?R1 & ?N1);
  destruct (encode_char_spec _ Hs2) as (?E2 & ?P2 & ?R2 & ?N2);
  destruct (encode_char_spec _ Hs3) as (?E3 & ?P3 & ?R3 & ?N3).

Lemma Encode_no_newline bs :
  List.filter (fun b => negb (Byte.eqb b x0d || Byte.eqb b x0a)) (Encode bs)
  = Encode bs.
Proof.
  induction bs as [| a | a b | a b c l IH] using list_ind3.
  - reflexivity.
  - pose proof (code_lt_256 a). cbn [Encode]. cbv zeta.
    sextets (code a * 65536)%N.
    cbn [List.filter]. rewrite R0, N0, R1, N1. reflexivity.
  - pose proof (code_lt_256 a). pose proof (code_lt_256 b).
    cbn [Encode]. cbv zeta.
    sextets (code a * 65536 + code b * 256)%N.
    cbn [List.filter]. rewrite R0, N0, R1, N1, R2, N2. reflexivity.
  - pose proof (code_lt_256 a). pose proof (code_lt_256 b).
    pose proof (code_lt_256 c).
    cbn [Encode]. cbv zeta.
    sextets (code a * 65536 + code b * 256 + code c)%N.
    cbn [List.filter]. rewrite R0, N0, R1, N1, R2, N2, R3, N3. cbn [orb negb].
    now rewrite IH.
Qed.

Lemma decode_quanta_Encode bs : decode_quanta (Encode bs) = Some bs.
Proof.
  induction bs as [| a | a b | a b c l IH] using list_ind3.
  - reflexivity.
  - pose proof (code_lt_256 a). cbn [Encode]. cbv zeta.
    sextets (code a * 65536)%N.
    cbn [decode_quanta]. rewrite E0, E1.
    replace (Byte.eqb pad pad) with true by reflexivity.
    cbn [andb]. rewrite bool_decide_eq_true_2 by reflexivity.
    do 2 f_equal. apply byte_of_eq. lia.
  - pose proof (code_lt_256 a). pose proof (code_lt_256 b).
    cbn [Encode]. cbv zeta.
    sextets (code a * 65536 + code b * 256)%N.
    cbn [decode_quanta]. rewrite E0, E1, P2, E2.
    replace (Byte.eqb pad pad) with true by reflexivity.
    rewrite bool_decide_eq_true_2 by reflexivity.
    do 2 f_equal; [|f_equal]; apply byte_of_eq; lia.
  - pose proof (code_lt_256 a). pose proof (code_lt_256 b).
    pose proof (code_lt_256 c).
    cbn [Encode]. cbv zeta.
    sextets (code a * 65536 + code b * 256 + code c)%N.
    cbn [decode_quanta]. rewrite E0, E1, P2, E2, P3, E3, IH.
    do 2 f_equal; [|f_equal; [|f_equal]]; apply byte_of_eq; lia.
Qed.

(** Decoding what [Encode] wrote gives the bytes back. *)
Lemma Decode_Encode bs : Decode (Encode bs) = Some bs.
Proof.
  unfold Decode. rewrite Encode_no_newline. apply decode_quanta_Encode.
Qed.

End base64_facts.

(** ** json: Go values *)

Module codec_facts.

Import vocab.

Import utf8 utf8_facts strconv strconv_facts base64 base64_facts.
Import json json_facts doc_facts.

Lemma Valid_fuel_ascii n :
  forall s, length s <= n ->
  Forall (fun b => (code b < RuneSelf)%N) s -> Valid_fuel n s = true.
Proof.
  induction n as [|n IH]; intros s Hn Hs.
  - destruct s; [reflexivity | exfalso; cbn in Hn; lia].
  - destruct s as [|b s]; [reflexivity|].
    inversion Hs as [|? ? Hb Hs']; subst.
    cbn [Valid_fuel]. rewrite (DecodeRune_ascii b s Hb).
    replace ((code b =? RuneError)%N) with false.
    2:{ symmetry. apply N.eqb_neq. unfold RuneSelf, RuneError in *. lia. }
    cbn [andb]. change (skipn 1 (b :: s)) with s.
    apply IH; [cbn in Hn; lia | exact Hs'].
Qed.

Lemma Valid_ascii s :
  Forall (fun b => (code b < RuneSelf)%N) s -> Valid s = true.
Proof. intros Hs. apply Valid_fuel_ascii; [lia | exact Hs]. Qed.

Lemma encode_char_ascii v : (code (encode_char v) < RuneSelf)%N.
Proof.
  unfold encode_char, RuneSelf.
  destruct (N.ltb_spec v 26); [rewrite code_byte_of; lia|].
  destruct (N.ltb_spec v 52); [rewrite code_byte_of; lia|].
  destruct (N.ltb_spec v 62); [rewrite code_byte_of; lia|].
  destruct (v =? 62)%N; vm_compute; reflexivity.
Qed.

Lemma Encode_ascii bs :
  Forall (fun b => (code b < RuneSelf)%N) (Encode bs).
Proof.
  induction bs as [| a | a b | a b c l IH] using list_ind3; cbn [Encode];
    cbv zeta; repeat constructor; try apply encode_char_ascii; assumption.
Qed.

Lemma string_lawful : lawful string_codec.
Proof.
  split; cbn.
  - intros s Hs. exact Hs.
  - intros s old _. now rewrite string_of_list_byte_of_string.
Qed.

Lemma int_lawful name : lawful (int_codec name).
Proof.
  split; cbn.
  - intros z _. now exists z.
  - intros z old Hz. now rewrite ParseInt_FormatInt.
Qed.

Lemma bytes_lawful : lawful bytes_codec.
Proof.
  split.
  - intros [b|] _; cbn; [|exact I]. apply Valid_ascii, Encode_ascii.
  - intros [b|] old _; cbn; [|reflexivity]. now rewrite Decode_Encode.
Qed.

Lemma store_elems_encode {A} (c : codec A) (l : list A) :
  lawful c -> Forall (valid c) l ->
  forall old, store_elems c (map (encode c) l) old = (l, None).
Proof.
  intros Hc Hl. induction Hl as [|a l Ha Hl IH]; intros old; [reflexivity|].
  cbn [map store_elems]. rewrite (law_store c Hc) by exact Ha.
  now rewrite IH.
Qed.

Lemma slice_lawful {A} (c : codec A) : lawful c -> lawful (slice_codec c).
Proof.
  intros Hc. split.
  - intros [l|] Hl; cbn in *; [|exact I].
    induction Hl as [|a l Ha Hl IH]; cbn; [exact I|].
    split; [now apply (law_written c Hc) | exact IH].
  - intros [l|] old Hl; cbn in *; [|reflexivity].
    now rewrite store_elems_encode.
Qed.

Lemma ptr_lawful {A} (c : codec A) :
  lawful c -> (forall a, encode c a <> Null) -> lawful (ptr_codec c).
Proof.
  intros Hc Hnn. split.
  - intros [a|] Ha; cbn in *; [now apply (law_written c Hc) | exact I].
  - intros [a|] old Ha; cbn in *; [|reflexivity].
    specialize (Hnn a).
    destruct (encode c a) eqn:E; try congruence;
      rewrite <- E, (law_store c Hc) by exact Ha; reflexivity.
Qed.

Lemma bytes_of_inj s t : bytes_of s = bytes_of t -> s = t.
Proof.
  unfold bytes_of. intros H.
  rewrite <- (string_of_list_byte_of_string s),
    <- (string_of_list_byte_of_string t). now rewrite H.
Qed.

Lemma find_exact {T} (fields : list (field T)) f :
  NoDup (map fname fields) -> In f fields ->
  find_field fields (bytes_of (fname f)) = Some f.
Proof.
  intros Hnd Hin. unfold find_field.
  assert (H : find (fun g => bool_decide (bytes_of (fname g) = bytes_of (fname f)))
                fields = Some f).
  { induction fields as [|g fields IH]; [contradiction|].
    cbn [map] in Hnd. apply NoDup_cons in Hnd as [Hg Hnd].
    cbn [find]. destruct Hin as [-> | Hin].
    - now rewrite bool_decide_eq_true_2.
    - rewrite bool_decide_eq_false_2; [now apply IH|].
      intros E. apply bytes_of_inj in E. apply Hg.
      rewrite E. apply list_elem_of_In, in_map, Hin. }
  now rewrite H.
Qed.

Lemma struct_store {T} (fields : list (field T)) (t : T) :
  fields_ok fields ->
  Forall (fun f => valid (fcodec f) (fget f t)) fields ->
  forall done todo acc, fields = done ++ todo ->
    (forall f, In f done -> fget f acc = fget f t) ->
    fold_left (store_member fields)
      (map (fun f => (bytes_of (fname f), encode (fcodec f) (fget f t))) todo)
      (acc, None) = (t, None).
Proof.
  intros Hok Hv done todo. revert done.
  induction todo as [|f todo IH]; intros done acc Hsplit Hdone.
  - cbn. f_equal. apply (fields_ext fields Hok). intros f Hf.
    apply Hdone. rewrite Hsplit, app_nil_r in Hf. exact Hf.
  - cbn [map fold_left]. unfold store_member at 2. cbn [fst snd].
    assert (Hf : In f fields) by (rewrite Hsplit; apply in_elt).
    rewrite (find_exact fields f (names_distinct fields Hok) Hf).
    pose proof (fields_lawful fields Hok) as Hl.
    rewrite List.Forall_forall in Hl, Hv.
    rewrite (law_store _ (Hl f Hf)) by (apply Hv, Hf).
    cbn [save]. apply (IH (done ++ [f])).
    + rewrite <- app_assoc. exact Hsplit.
    + intros g Hg. apply in_app_or in Hg as [Hg | [<- | []]].
      * rewrite (get_set_other fields Hok); [now apply Hdone | exact Hf | |].
        -- rewrite Hsplit. apply in_or_app. now left.
        -- intros E. pose proof (names_distinct fields Hok) as Hnd.
           rewrite Hsplit, map_app in Hnd. cbn [map] in Hnd.
           apply NoDup_app in Hnd as (_ & Hd & _).
           apply (Hd (fname g)).
           ++ apply list_elem_of_In, in_map, Hg.
           ++ rewrite E. left.
      * apply (get_set fields Hok), Hf.
Qed.

Lemma struct_lawful {T} name (z : T) (fields : list (field T)) :
  fields_ok fields -> lawful (struct_codec name z fields).
Proof.
  intros Hok. split.
  - intros t Hv. apply written_object. cbn in Hv.
    pose proof (fields_lawful fields Hok) as Hl.
    pose proof (names_valid fields Hok) as Hn.
    rewrite List.Forall_forall in Hl, Hv, Hn |- *.
    intros m Hm. apply in_map_iff in Hm as (f & <- & Hf). cbn [fst snd].
    split; [apply Hn, Hf | apply (law_written _ (Hl f Hf)), Hv, Hf].
  - intros t old Hv. cbn [store encode struct_codec].
    now apply (struct_store fields t Hok Hv [] fields).
Qed.

(** Unmarshaling what [Marshal] wrote for a valid value gives the
    value back, whatever the target held before. *)
Theorem Unmarshal_Marshal {A} (c : codec A) :
  lawful c ->
  forall a old, valid c a -> Unmarshal c (Marshal c a) old = (a, None).
Proof.
  intros Hc a old Ha. unfold Unmarshal, Marshal.
  rewrite parse_print by now apply (law_written c Hc).
  cbn [forallb]. now apply (law_store c Hc).
Qed.

End codec_facts.

(** ** The codecs of the data model *)

Module model_facts.

Import vocab.

Import json codec_facts.

Lemma struct_not_null {T} name (z : T) fields (t : T) :
  encode (struct_codec name z fields) t <> Null.
Proof. discriminate. Qed.

(** The laws of a concrete list of fields, by running through it. *)
Ltac fields_ok_tac :=
  split;
  [ apply (bool_decide_unpack _); vm_compute; exact I
  | repeat (constructor; [reflexivity|]); constructor
  | intros f Hf a x; cbn in Hf;
    repeat (destruct Hf as [<- | Hf]; [reflexivity|]); contradiction
  | intros f g Hf Hg Hne a x; cbn in Hf, Hg;
    repeat (destruct Hf as [<- | Hf];
            [ repeat (destruct Hg as [<- | Hg];
                      [first [reflexivity | exfalso; apply Hne; reflexivity]|]);
              contradiction |]);
    contradiction
  | intros x y H;
    assert (HF : List.Forall (fun f => fget f x = fget f y) _)
      by (apply List.Forall_forall; exact H);
    destruct x, y;
    repeat (apply List.Forall_cons_iff in HF as [?E HF]);
    cbn in *; congruence
  | repeat (constructor;
            [first [ apply string_lawful | apply bytes_lawful
                   | apply int_lawful
                   | apply slice_lawful, string_lawful ]|]);
    constructor ].

Lemma Build_fields_ok : fields_ok Build.fields.
Proof. fields_ok_tac. Qed.

Lemma Crash_fields_ok : fields_ok Crash.fields.
Proof. fields_ok_tac. Qed.

Lemma FailedRepro_fields_ok : fields_ok FailedRepro.fields.
Proof. fields_ok_tac. Qed.

Lemma LogEntry_fields_ok : fields_ok LogEntry.fields.
Proof. fields_ok_tac. Qed.

Lemma BugReport_fields_ok : fields_ok BugReport.fields.
Proof. fields_ok_tac. Qed.

Lemma BugUpdate_fields_ok : fields_ok BugUpdate.fields.
Proof. fields_ok_tac. Qed.

Lemma PollRequest_fields_ok : fields_ok PollRequest.fields.
Proof. fields_ok_tac. Qed.

Lemma BugReport_lawful : lawful BugReport.codec.
Proof. apply struct_lawful, BugReport_fields_ok. Qed.

Lemma PollResponse_fields_ok : fields_ok PollResponse.fields.
Proof.
  split.
  - apply (bool_decide_unpack _); vm_compute; exact I.
  - repeat (constructor; [reflexivity|]); constructor.
  - intros f Hf a x; cbn in Hf.
    repeat (destruct Hf as [<- | Hf]; [reflexivity|]); contradiction.
  - intros f g Hf Hg Hne a x; cbn in Hf, Hg.
    destruct Hf as [<- | []], Hg as [<- | []].
    exfalso; apply Hne; reflexivity.
  - intros [x] [y] H. specialize (H _ (or_introl eq_refl)). cbn in H.
    congruence.
  - constructor; [|constructor].
    apply slice_lawful, ptr_lawful;
      [apply BugReport_lawful | apply struct_not_null].
Qed.

End model_facts.

(** * Properties of the transport function *)

(** The query string [Query] builds. *)
Lemma Encode_values (client key method : string) :
  url.Encode
    (url.Add (url.Add (url.Add url.make "client" client) "key" key)
       "method" method)
  = "client=" +:+ url.QueryEscape client
      +:+ "&key=" +:+ url.QueryEscape key
      +:+ "&method=" +:+ url.QueryEscape method.
Proof.
  unfold url.Encode.
  replace (url.sorted _)
    with [("client", [client]); ("key", [key]); ("method", [method])]
    by (vm_compute; reflexivity).
  cbn [fold_left]. unfold url.write_pair.
  replace (url.QueryEscape "client") with "client" by reflexivity.
  replace (url.QueryEscape "key") with "key" by reflexivity.
  replace (url.QueryEscape "method") with "method" by reflexivity.
  repeat (rewrite ?string_app_assoc, ?append_cons, ?append_nil_l;
          cbn [String.eqb Ascii.eqb]).
  reflexivity.
Qed.

Lemma Query_url (client addr key method : string) :
  addr +:+ "/api?"
    +:+ url.Encode
          (url.Add (url.Add (url.Add url.make "client" client) "key" key)
             "method" method)
  = api_url client addr key method.
Proof.
  rewrite Encode_values. unfold api_url.
  rewrite !append_cons, !append_nil_l. reflexivity.
Qed.

Section TransportFacts.

Context `{L : Library Req Reply}.

(** [Query], path by path. *)
Lemma Query_unfold client addr key method ctor doer req reply :
  Query client addr key method ctor doer req reply
  = match req with
    | None => round_trip client addr key method ctor doer None false reply
    | Some rq =>
        match json_Marshal rq with
        | Err e =>
            mkOutcome (Some ("failed to marshal request: " +:+ e)) [] reply
        | Ok data =>
            if uncompressed addr data then
              round_trip client addr key method ctor doer
                (Some data) false reply
            else
              match gzip_Write data with
              | Some e => mkOutcome (Some e) [] reply
              | None =>
                  match gzip_Close data with
                  | Err e => mkOutcome (Some e) [] reply
                  | Ok buf =>
                      round_trip client addr key method ctor doer
                        (Some buf) true reply
                  end
              end
        end
    end.
Proof.
  assert (Hrest : forall body gzipped,
    match
      (let u := addr +:+ "/api?"
                  +:+ url.Encode
                        (url.Add (url.Add (url.Add url.make "client" client)
                                    "key" key) "method" method) in
       bind (emit (CallCtor "POST" u body))
         (fun _ => bind (lift (ctor "POST" u body))
            (fun r => let r := add_headers r body gzipped in
               bind (emit (CallDoer r))
                 (fun _ => bind (lift (Errorf "http request failed: " (doer r)))
                    (fun resp => defer CloseBody
                       (if negb (Z.eqb (StatusCode resp) StatusOK)
                        then bind (emit ReadBody)
                               (fun _ => lift (Err ("request failed with "
                                   +:+ Status resp +:+ ": "
                                   +:+ string_of_list_byte
                                         (fst (ReadAll (Body resp))))))
                        else decode_reply (Body resp)))))))
        (mkState [] reply)
    with
    | (s, Ok _) => mkOutcome None (trace s) (target s)
    | (s, Err e) => mkOutcome (Some e) (trace s) (target s)
    end = round_trip client addr key method ctor doer body gzipped reply).
  { intros body gzipped. cbv zeta. rewrite Query_url.
    unfold round_trip, bind, lift, emit, defer, Errorf, decode_reply, ReadAll,
      api_url.
    cbn [fst snd trace target app].
    destruct (ctor _ _ _) as [r0|e]; [|reflexivity].
    destruct (doer _) as [resp|e]; [|reflexivity].
    destruct (negb _); [reflexivity|].
    cbn [trace target]. destruct reply as [v|]; [|reflexivity].
    destruct (json_Decode _ _) as [v' [e|]]; reflexivity. }
  unfold Query, Query_m, prepare_body.
  destruct req as [rq|].
  - unfold bind at 1. unfold bind at 1. unfold lift at 1, Errorf at 1.
    destruct (json_Marshal rq) as [data|e]; [|reflexivity].
    destruct (uncompressed addr data).
    + unfold ret at 1. cbn [fst snd]. apply Hrest.
    + destruct (gzip_Write data) as [e|].
      * reflexivity.
      * unfold bind at 1, lift at 1.
        destruct (gzip_Close data) as [buf|e]; [|reflexivity].
        unfold ret at 1. cbn [fst snd]. apply Hrest.
  - unfold bind at 1, ret at 1. cbn [fst snd]. apply Hrest.
Qed.

Lemma uncompressed_spec addr data :
  uncompressed addr data = true
  <-> (length data < 100 \/ addr = ""
       \/ HasPrefix addr "http://localhost:" = true).
Proof.
  unfold uncompressed.
  rewrite !orb_true_iff, Nat.ltb_lt, String.eqb_eq. tauto.
Qed.

(** What [round_trip] hands to the constructor and to the doer. *)
Lemma round_trip_ctor_calls client addr key method ctor doer body gz reply :
  ctor_calls (events (round_trip client addr key method ctor doer body gz reply))
  = [("POST", api_url client addr key method, body)].
Proof.
  unfold round_trip. fold (api_url client addr key method).
  destruct (ctor _ _ _) as [r0|e]; [|reflexivity].
  destruct (doer _) as [resp|e]; [|reflexivity].
  destruct (negb _); [reflexivity|].
  destruct reply; reflexivity.
Qed.

Lemma round_trip_sent client addr key method ctor doer body gz reply :
  sent (events (round_trip client addr key method ctor doer body gz reply))
  = match ctor "POST" (api_url client addr key method) body with
    | Ok r0 => [add_headers r0 body gz]
    | Err _ => []
    end.
Proof.
  unfold round_trip. fold (api_url client addr key method).
  destruct (ctor _ _ _) as [r0|e]; [|reflexivity].
  destruct (doer _) as [resp|e]; [|reflexivity].
  destruct (negb _); [reflexivity|].
  destruct reply; reflexivity.
Qed.

(** What [round_trip] leaves behind and returns, by the constructor's
    and the doer's answers. *)
Lemma round_trip_cases client addr key method ctor doer body gz reply :
  let o := round_trip client addr key method ctor doer body gz reply in
  let u := api_url client addr key method in
  match ctor "POST" u body with
  | Err e => o = mkOutcome (Some e) [CallCtor "POST" u body] reply
  | Ok r0 =>
      let r := add_headers r0 body gz in
      match doer r with
      | Err e =>
          o = mkOutcome (Some ("http request failed: " +:+ e))
                [CallCtor "POST" u body; CallDoer r] reply
      | Ok resp =>
          if Z.eqb (StatusCode resp) StatusOK then
            match reply with
            | None =>
                o = mkOutcome None
                      [CallCtor "POST" u body; CallDoer r; CloseBody] None
            | Some v =>
                o = mkOutcome
                      (option_map (append "failed to unmarshal response: ")
                         (snd (json_Decode (Body resp) v)))
                      [CallCtor "POST" u body; CallDoer r; DecodeBody;
                       CloseBody]
                      (Some (fst (json_Decode (Body resp) v)))
            end
          else
            o = mkOutcome
                  (Some ("request failed with " +:+ Status resp +:+ ": "
                           +:+ string_of_list_byte (content (Body resp))))
                  [CallCtor "POST" u body; CallDoer r; ReadBody; CloseBody]
                  reply
      end
  end.
Proof.
  cbv zeta. unfold round_trip. fold (api_url client addr key method).
  destruct (ctor _ _ _) as [r0|e]; [|reflexivity].
  destruct (doer _) as [resp|e]; [|reflexivity].
  destruct (Z.eqb _ _); cbn [negb]; [|reflexivity].
  destruct reply; reflexivity.
Qed.

End TransportFacts.

(** * Properties of the transport function *)

Section TransportProperties.

Context `{L : Library Req Reply}.

Lemma set_header_other (r : Request) (k k' v : string) :
  k <> k' -> ReqHeader (set_header r k v) !! k' = ReqHeader r !! k'.
Proof.
  intros Hne. unfold set_header, Set_. cbn [ReqHeader].
  now apply lookup_insert_ne.
Qed.

Lemma set_header_same (r : Request) (k v : string) :
  ReqHeader (set_header r k v) !! k = Some [v].
Proof.
  unfold set_header, Set_. cbn [ReqHeader]. apply lookup_insert_eq.
Qed.

(** C1.  A request payload that serializes to [data] is sent as it is,
    and [Query] sets no Content-Encoding header, when [data] is shorter
    than 100 bytes, or the address is empty, or it starts with
    [http://localhost:]; otherwise the body handed to the constructor is
    what the gzip writer produced for [data], which decompresses to
    [data], and Content-Encoding is set to gzip on the request sent. *)
Theorem Query_compression_policy
    (gunzip : list byte -> option (list byte))
    (client addr key method : string) (ctor : RequestCtor)
    (doer : RequestDoer) (rq : Req) (reply : option Reply)
    (data : list byte) :
  (forall d buf, gzip_Write d = None -> gzip_Close d = Ok buf ->
                 gunzip buf = Some d) ->
  json_Marshal rq = Ok data ->
  let o := Query client addr key method ctor doer (Some rq) reply in
  let u := api_url client addr key method in
  (length data < 100 \/ addr = ""
   \/ HasPrefix addr "http://localhost:" = true ->
   ctor_calls (events o) = [("POST", u, Some data)]
   /\ forall r0, ctor "POST" u (Some data) = Ok r0 ->
      sent (events o) = [set_header r0 "Content-Type" "application/json"]
      /\ forall r, In r (sent (events o)) ->
           ReqHeader r !! "Content-Encoding"
           = ReqHeader r0 !! "Content-Encoding")
  /\ (~ (length data < 100 \/ addr = ""
         \/ HasPrefix addr "http://localhost:" = true) ->
      forall buf, gzip_Write data = None -> gzip_Close data = Ok buf ->
      gunzip buf = Some data
      /\ ctor_calls (events o) = [("POST", u, Some buf)]
      /\ forall r0, ctor "POST" u (Some buf) = Ok r0 ->
         sent (events o)
         = [set_header (set_header r0 "Content-Type" "application/json")
              "Content-Encoding" "gzip"]
         /\ forall r, In r (sent (events o)) ->
              ReqHeader r !! "Content-Encoding" = Some ["gzip"]).
Proof.
  intros Hgz Hm o u. subst o u. rewrite Query_unfold, Hm. split.
  - intros Hsmall. apply uncompressed_spec in Hsmall. rewrite Hsmall.
    split; [apply round_trip_ctor_calls|].
    intros r0 Hr0. rewrite round_trip_sent, Hr0. cbn [add_headers].
    split; [reflexivity|].
    intros r [<- | []]. now apply set_header_other.
  - intros Hbig buf Hw Hc.
    destruct (uncompressed addr data) eqn:Hu.
    { exfalso. now apply Hbig, uncompressed_spec. }
    rewrite Hw, Hc. split; [now apply Hgz|].
    split; [apply round_trip_ctor_calls|].
    intros r0 Hr0. rewrite round_trip_sent, Hr0. cbn [add_headers].
    split; [reflexivity|].
    intros r [<- | []]. apply set_header_same.
Qed.

(** A call either stops before a request is constructed, with an error
    and nothing done, or goes through [round_trip]. *)
Lemma Query_stops_or_goes client addr key method ctor doer req reply :
  let o := Query client addr key method ctor doer req reply in
  (exists e, o = mkOutcome (Some e) [] reply /\ req <> None)
  \/ (exists body gz,
        o = round_trip client addr key method ctor doer body gz reply
        /\ (body = None <-> req = None)).
Proof.
  cbv zeta. rewrite Query_unfold. destruct req as [rq|].
  - destruct (json_Marshal rq) as [data|e].
    + destruct (uncompressed addr data).
      * right. exists (Some data), false. split; [reflexivity|].
        split; discriminate.
      * destruct (gzip_Write data) as [e|].
        -- left. exists e. split; [reflexivity | discriminate].
        -- destruct (gzip_Close data) as [buf|e].
           ++ right. exists (Some buf), true. split; [reflexivity|].
              split; discriminate.
           ++ left. exists e. split; [reflexivity | discriminate].
    + left. eexists. split; [reflexivity | discriminate].
  - right. exists None, false. split; [reflexivity | tauto].
Qed.

(** The request that was sent, and the answer to it, determine the
    rest of the call. *)
Lemma Query_after_send client addr key method ctor doer req reply r :
  let o := Query client addr key method ctor doer req reply in
  In r (sent (events o)) ->
  exists u body, 
    match doer r with
    | Err e =>
        o = mkOutcome (Some ("http request failed: " +:+ e))
              [CallCtor "POST" u body; CallDoer r] reply
    | Ok resp =>
        if negb (Z.eqb (StatusCode resp) StatusOK) then
          o = mkOutcome
                (Some ("request failed with " +:+ Status resp +:+ ": "
                         +:+ string_of_list_byte (content (Body resp))))
                [CallCtor "POST" u body; CallDoer r; ReadBody; CloseBody]
                reply
        else
          match reply with
          | None =>
              o = mkOutcome None
                    [CallCtor "POST" u body; CallDoer r; CloseBody] None
          | Some v =>
              o = mkOutcome
                    (option_map (append "failed to unmarshal response: ")
                       (snd (json_Decode (Body resp) v)))
                    [CallCtor "POST" u body; CallDoer r; DecodeBody; CloseBody]
                    (Some (fst (json_Decode (Body resp) v)))
          end
    end.
Proof.
  cbv zeta. intros Hin.
  destruct (Query_stops_or_goes client addr key method ctor doer req reply)
    as [(e & E & _) | (body & gz & E & _)];
    rewrite E in Hin |- *; [cbn in Hin; contradiction|].
  rewrite round_trip_sent in Hin.
  exists (api_url client addr key method), body.
  unfold round_trip. fold (api_url client addr key method).
  destruct (ctor _ _ _) as [r0|e]; [|contradiction].
  destruct Hin as [<- | []].
  destruct (doer _) as [resp|e]; [|reflexivity].
  destruct (negb _); [reflexivity|].
  destruct reply; reflexivity.
Qed.

Lemma status_not_ok resp :
  StatusCode resp <> StatusOK -> negb (Z.eqb (StatusCode resp) StatusOK) = true.
Proof. intros H. apply negb_true_iff, Z.eqb_neq, H. Qed.

Lemma status_ok resp :
  StatusCode resp = StatusOK -> negb (Z.eqb (StatusCode resp) StatusOK) = false.
Proof. intros H. apply negb_false_iff, Z.eqb_eq, H. Qed.

(** C2.  When the round trip completes with a status other than 200,
    [Query] returns an error whose message contains the status line and
    the text of the response body; the reply is not decoded.  So an
    answer 500 with body [internal error] gives an error whose text
    contains [internal error]. *)
Theorem Query_remote_error
    (client addr key method : string) (ctor : RequestCtor)
    (doer : RequestDoer) (req : option Req) (reply : option Reply)
    (r : Request) (resp : Response) :
  let o := Query client addr key method ctor doer req reply in
  In r (sent (events o)) -> doer r = Ok resp ->
  StatusCode resp <> StatusOK ->
  exists msg,
    returned o = Some msg
    /\ contains msg (Status resp)
    /\ (forall text, content (Body resp) = list_byte_of_string text ->
                     contains msg text)
    /\ ~ In DecodeBody (events o)
    /\ reply_after o = reply.
Proof.
  cbv zeta. intros Hin Hd Hs.
  destruct (Query_after_send _ _ _ _ _ _ _ _ _ Hin) as (u & body & H).
  rewrite Hd, (status_not_ok resp Hs) in H. rewrite H. cbn.
  eexists. split; [reflexivity|]. repeat split.
  - apply contains_prepend, contains_app_l.
  - intros text ->. rewrite string_of_list_byte_of_string.
    apply contains_prepend, contains_prepend, contains_app_r.
  - intros [E | [E | [E | [E | []]]]]; discriminate E.
Qed.

(** C10.  On a status other than 200 the error is the remote failure
    also when reading the response body fails: the read error is
    dropped, and the message holds the status line and the bytes that
    were read before the failure. *)
Theorem Query_remote_error_read_failure
    (client addr key method : string) (ctor : RequestCtor)
    (doer : RequestDoer) (req : option Req) (reply : option Reply)
    (r : Request) (resp : Response) (data : list byte) (rerr : error) :
  let o := Query client addr key method ctor doer req reply in
  In r (sent (events o)) -> doer r = Ok resp ->
  StatusCode resp <> StatusOK ->
  ReadAll (Body resp) = (data, Some rerr) ->
  returned o
  = Some ("request failed with " +:+ Status resp +:+ ": "
            +:+ string_of_list_byte data).
Proof.
  cbv zeta. intros Hin Hd Hs Hr.
  destruct (Query_after_send _ _ _ _ _ _ _ _ _ Hin) as (u & body & H).
  rewrite Hd, (status_not_ok resp Hs) in H. rewrite H. cbn [returned].
  unfold ReadAll in Hr. now inversion Hr.
Qed.

End TransportProperties.

Section TransportProperties2.

Context `{L : Library Req Reply}.

(** If the reply was decoded, the round trip had completed with 200. *)
Lemma Query_decoded client addr key method ctor doer req reply :
  let o := Query client addr key method ctor doer req reply in
  In DecodeBody (events o) ->
  exists r resp v,
    In r (sent (events o)) /\ doer r = Ok resp
    /\ StatusCode resp = StatusOK /\ reply = Some v
    /\ reply_after o = Some (fst (json_Decode (Body resp) v))
    /\ returned o = option_map (append "failed to unmarshal response: ")
                      (snd (json_Decode (Body resp) v)).
Proof.
  cbv zeta. intros Hin.
  destruct (Query_stops_or_goes client addr key method ctor doer req reply)
    as [(e & E & _) | (body & gz & E & _)];
    rewrite E in Hin |- *; [cbn in Hin; contradiction|].
  rewrite round_trip_sent. revert Hin. unfold round_trip.
  fold (api_url client addr key method).
  destruct (ctor _ _ _) as [r0|e].
  2:{ cbn. intros [E' | []]; discriminate E'. }
  destruct (doer _) as [resp|e] eqn:Hd.
  2:{ cbn. intros [E' | [E' | []]]; discriminate E'. }
  destruct (negb _) eqn:Hs.
  { cbn. intros [E' | [E' | [E' | [E' | []]]]]; discriminate E'. }
  destruct reply as [v|].
  2:{ cbn. intros [E' | [E' | [E' | []]]]; discriminate E'. }
  intros _. exists (add_headers r0 body gz), resp, v.
  apply negb_false_iff, Z.eqb_eq in Hs. cbn. auto 10.
Qed.

(** If the reply was not decoded, it is as it was. *)
Lemma Query_not_decoded client addr key method ctor doer req reply :
  let o := Query client addr key method ctor doer req reply in
  ~ In DecodeBody (events o) -> reply_after o = reply.
Proof.
  cbv zeta. intros Hin.
  destruct (Query_stops_or_goes client addr key method ctor doer req reply)
    as [(e & E & _) | (body & gz & E & _)];
    rewrite E in Hin |- *; [reflexivity|].
  revert Hin. unfold round_trip.
  destruct (ctor _ _ _) as [r0|e]; [|reflexivity].
  destruct (doer _) as [resp|e]; [|reflexivity].
  destruct (negb _); [reflexivity|].
  destruct reply as [v|]; [|reflexivity].
  cbn. intros H. exfalso. apply H. auto.
Qed.

(** C7, as the code has it.  A call that returns an error leaves the
    reply as it was unless the error is that of the decoder; then the
    reply holds what the decoder left in it. *)
Theorem Query_error_and_reply
    (client addr key method : string) (ctor : RequestCtor)
    (doer : RequestDoer) (req : option Req) (reply : option Reply)
    (e : error) :
  let o := Query client addr key method ctor doer req reply in
  returned o = Some e ->
  (~ In DecodeBody (events o) -> reply_after o = reply)
  /\ (In DecodeBody (events o) ->
      exists r resp v e',
        In r (sent (events o)) /\ doer r = Ok resp
        /\ StatusCode resp = StatusOK /\ reply = Some v
        /\ snd (json_Decode (Body resp) v) = Some e'
        /\ e = "failed to unmarshal response: " +:+ e'
        /\ reply_after o = Some (fst (json_Decode (Body resp) v))).
Proof.
  cbv zeta. intros He. split; [apply Query_not_decoded|].
  intros Hin.
  destruct (Query_decoded _ _ _ _ _ _ _ _ Hin)
    as (r & resp & v & Hr & Hd & Hs & -> & Ha & Hret).
  rewrite He in Hret.
  destruct (json_Decode (Body resp) v) as [v' [e'|]] eqn:Hdec;
    cbn in Hret; [|discriminate].
  injection Hret as ->. exists r, resp, v, e'. rewrite Hdec. cbn in *.
  repeat split; auto.
Qed.

End TransportProperties2.

Section TransportProperties3.

Context `{L : Library Req Reply}.

(** A cause determines the error returned and the shape of the trace. *)
Lemma arises_from_outcome client addr key method ctor doer req reply c e :
  arises_from client addr key method ctor doer req reply c e ->
  let o := Query client addr key method ctor doer req reply in
  returned o = Some e /\ trace_shape c (events o)
  /\ (c = EncodingError ->
      exists rq e0, req = Some rq /\ json_Marshal rq = Err e0)
  /\ (c = CompressionError ->
      exists rq d, req = Some rq /\ json_Marshal rq = Ok d).
Proof.
  cbv zeta. intros H.
  destruct H as [rq e0 -> Hm | rq data e0 -> Hm Hu Hw
                | rq data e0 -> Hm Hu Hw Hc | m u body e0 Hin Hc
                | r e0 Hin Hd | r resp Hin Hd Hs | r resp v e0 Hin Hd Hs -> He].
  - rewrite Query_unfold, Hm. cbn. repeat split; try discriminate; eauto.
  - rewrite Query_unfold, Hm, Hu, Hw. cbn.
    repeat split; try discriminate; eauto.
  - rewrite Query_unfold, Hm, Hu, Hw, Hc. cbn.
    repeat split; try discriminate; eauto.
  - destruct (Query_stops_or_goes client addr key method ctor doer req reply)
      as [(e & E & _) | (body' & gz & E & _)];
      rewrite E in Hin |- *; [cbn in Hin; contradiction|].
    rewrite round_trip_ctor_calls in Hin. destruct Hin as [[= <- <- <-] | []].
    unfold round_trip. fold (api_url client addr key method). rewrite Hc.
    cbn. repeat split; try discriminate; eauto.
  - destruct (Query_after_send _ _ _ _ _ _ _ _ _ Hin) as (u & body & H).
    rewrite Hd in H. rewrite H. cbn.
    repeat split; try discriminate; eauto.
  - destruct (Query_after_send _ _ _ _ _ _ _ _ _ Hin) as (u & body & H).
    rewrite Hd, (status_not_ok resp Hs) in H. rewrite H. cbn.
    repeat split; try discriminate; eauto.
  - destruct (Query_after_send _ _ _ _ _ _ _ _ _ Hin) as (u & body & H).
    rewrite Hd, (status_ok resp Hs) in H. rewrite H. cbn. rewrite He.
    repeat split; try discriminate; eauto.
Qed.

Lemma trace_shape_unique c c' tr :
  trace_shape c tr -> trace_shape c' tr ->
  c = c' \/ (c = EncodingError /\ c' = CompressionError)
  \/ (c = CompressionError /\ c' = EncodingError).
Proof.
  destruct c, c'; cbn; intros H H'; auto;
    repeat match goal with
      | H : exists _, _ |- _ => destruct H as [? H]
      end; subst; discriminate.
Qed.

(** An error of [Query] has a cause. *)
Lemma Query_error_has_cause client addr key method ctor doer req reply e :
  returned (Query client addr key method ctor doer req reply) = Some e ->
  exists c, arises_from client addr key method ctor doer req reply c e.
Proof.
  intros He.
  pose proof (Query_unfold client addr key method ctor doer req reply) as Hq.
  assert (Hgo : forall body gz,
    Query client addr key method ctor doer req reply
    = round_trip client addr key method ctor doer body gz reply ->
    exists c, arises_from client addr key method ctor doer req reply c e).
  { intros body gz E.
    pose proof (round_trip_ctor_calls client addr key method ctor doer
                  body gz reply) as Hcc.
    pose proof (round_trip_sent client addr key method ctor doer
                  body gz reply) as Hsent.
    rewrite <- E in Hcc, Hsent. rewrite E in He. revert He.
    unfold round_trip. fold (api_url client addr key method).
    destruct (ctor _ _ _) as [r0|e0] eqn:Hc.
    2:{ cbn. intros [= <-]. exists ConstructionError.
        apply (from_ctor _ _ _ _ _ _ _ _ "POST"
                 (api_url client addr key method) body); [|exact Hc].
        rewrite Hcc. now left. }
    assert (Hr : In (add_headers r0 body gz)
                   (sent (events (Query client addr key method ctor doer
                                    req reply))))
      by (rewrite Hsent; now left).
    destruct (doer _) as [resp|e0] eqn:Hd.
    2:{ cbn. intros [= <-]. exists TransportError.
        now apply (from_doer _ _ _ _ _ _ _ _ (add_headers r0 body gz)). }
    destruct (negb _) eqn:Hs.
    { cbn. intros [= <-]. exists RemoteError.
      apply (from_status _ _ _ _ _ _ _ _ (add_headers r0 body gz) resp);
        auto.
      now apply Z.eqb_neq, negb_true_iff. }
    apply negb_false_iff, Z.eqb_eq in Hs.
    destruct reply as [v|]; [|discriminate].
    cbn. destruct (snd (json_Decode (Body resp) v)) as [e0|] eqn:Hdec;
      [|discriminate].
    cbn. intros [= <-]. exists DecodingError.
    now apply (from_decode _ _ _ _ _ _ _ _ (add_headers r0 body gz) resp v). }
  destruct req as [rq|]; [|now apply (Hgo None false)].
  destruct (json_Marshal rq) as [data|e0] eqn:Hm.
  2:{ rewrite Hq in He. injection He as <-. exists EncodingError.
      now apply (from_marshal _ _ _ _ _ _ _ _ rq). }
  destruct (uncompressed addr data) eqn:Hu;
    [now apply (Hgo (Some data) false)|].
  destruct (gzip_Write data) as [e0|] eqn:Hw.
  { rewrite Hq in He. injection He as <-. exists CompressionError.
    now apply (from_gzip_write _ _ _ _ _ _ _ _ rq data). }
  destruct (gzip_Close data) as [buf|e0] eqn:Hc;
    [now apply (Hgo (Some buf) true)|].
  rewrite Hq in He. injection He as <-. exists CompressionError.
  now apply (from_gzip_close _ _ _ _ _ _ _ _ rq data).
Qed.

(** C6, as the code has it.  An error of [Query] arises from exactly
    one of six causes: the four of the taxonomy, a failure of the gzip
    writer, or a failure of the request constructor; the errors of the
    last two are returned as they are.  No other path gives an error. *)
Theorem Query_error_causes
    (client addr key method : string) (ctor : RequestCtor)
    (doer : RequestDoer) (req : option Req) (reply : option Reply) :
  let o := Query client addr key method ctor doer req reply in
  (forall e, returned o = Some e <->
             exists c, arises_from client addr key method ctor doer
                         req reply c e)
  /\ (forall c c' e e',
        arises_from client addr key method ctor doer req reply c e ->
        arises_from client addr key method ctor doer req reply c' e' ->
        c = c' /\ e = e').
Proof.
  cbv zeta. split.
  - intros e. split; [apply Query_error_has_cause|].
    intros [c H]. now apply arises_from_outcome in H.
  - intros c c' e e' H H'.
    apply arises_from_outcome in H as (He & Hs & Henc & Hcomp).
    apply arises_from_outcome in H' as (He' & Hs' & Henc' & Hcomp').
    split; [|congruence].
    destruct (trace_shape_unique c c' _ Hs Hs')
      as [? | [[-> ->] | [-> ->]]]; [assumption | |].
    + destruct (Henc eq_refl) as (rq & e0 & -> & Hm).
      destruct (Hcomp' eq_refl) as (rq' & d & [= <-] & Hm'). congruence.
    + destruct (Hcomp eq_refl) as (rq & d & -> & Hm).
      destruct (Henc' eq_refl) as (rq' & e0 & [= <-] & Hm'). congruence.
Qed.

End TransportProperties3.

Section TransportProperties4.

Context `{L : Library Req Reply}.

Lemma api_url_query client addr key method :
  api_url client addr key method
  = addr +:+ "/api?"
      +:+ ("client=" +:+ url.QueryEscape client
             +:+ "&key=" +:+ url.QueryEscape key
             +:+ "&method=" +:+ url.QueryEscape method).
Proof.
  unfold api_url. now rewrite !append_cons, !append_nil_l.
Qed.

(** C8, as the code has it.  A call constructs at most one request and
    sends at most one.  None is constructed when serializing the
    payload fails or when compressing it fails (the call then returns
    the error of that step), and none is sent when the constructor
    fails (the call returns its error); in every other case exactly one
    is constructed and exactly one is sent.  The request is constructed
    with method POST, the URL [<addr>/api?<query>], where the query
    holds exactly the parameters client, key and method with the given
    values, and the prepared body: none without a payload, the JSON
    text, or its compressed form.  [Query] sets Content-Type to
    application/json on the request when there is a body, and leaves
    the request as constructed when there is none. *)
Theorem Query_request_shape
    (client addr key method : string) (ctor : RequestCtor)
    (doer : RequestDoer) (req : option Req) (reply : option Reply) :
  let o := Query client addr key method ctor doer req reply in
  let q := "client=" +:+ url.QueryEscape client
             +:+ "&key=" +:+ url.QueryEscape key
             +:+ "&method=" +:+ url.QueryEscape method in
  let u := addr +:+ "/api?" +:+ q in
  let prepared : res (option (list byte)) :=
    match req with
    | None => Ok None
    | Some rq =>
        match json_Marshal rq with
        | Err e => Err ("failed to marshal request: " +:+ e)
        | Ok data =>
            if uncompressed addr data then Ok (Some data)
            else
              match gzip_Write data with
              | Some e => Err e
              | None =>
                  match gzip_Close data with
                  | Err e => Err e
                  | Ok buf => Ok (Some buf)
                  end
              end
        end
    end in
  url.ParseQuery q
  = ([("client", [client]); ("key", [key]); ("method", [method])], None)
  /\ match prepared with
     | Err e =>
         ctor_calls (events o) = [] /\ sent (events o) = []
         /\ returned o = Some e
     | Ok body =>
         ctor_calls (events o) = [("POST", u, body)]
         /\ match ctor "POST" u body with
            | Err e => sent (events o) = [] /\ returned o = Some e
            | Ok r0 =>
                exists r, sent (events o) = [r]
                  /\ Method r = Method r0 /\ URL r = URL r0
                  /\ ReqBody r = ReqBody r0
                  /\ match body with
                     | None => r = r0
                     | Some _ =>
                         ReqHeader r !! "Content-Type"
                         = Some ["application/json"]
                     end
            end
     end.
Proof.
  cbv zeta. split; [apply url_facts.ParseQuery_values|].
  rewrite <- api_url_query.
  assert (Hgo : forall body gz,
    let o := round_trip client addr key method ctor doer body gz reply in
    ctor_calls (events o)
    = [("POST", api_url client addr key method, body)]
    /\ match ctor "POST" (api_url client addr key method) body with
       | Err e => sent (events o) = [] /\ returned o = Some e
       | Ok r0 =>
           exists r, sent (events o) = [r]
             /\ Method r = Method r0 /\ URL r = URL r0
             /\ ReqBody r = ReqBody r0
             /\ match body with
                | None => r = r0
                | Some _ =>
                    ReqHeader r !! "Content-Type"
                    = Some ["application/json"]
                end
       end).
  { intros body gz. cbv zeta.
    rewrite round_trip_ctor_calls, round_trip_sent.
    split; [reflexivity|].
    unfold round_trip. fold (api_url client addr key method).
    destruct (ctor _ _ _) as [r0|e]; [|now split].
    exists (add_headers r0 body gz). split; [reflexivity|].
    destruct body as [b|]; cbn [add_headers]; [|auto].
    destruct gz; repeat split; try reflexivity.
    - rewrite set_header_other by discriminate. apply set_header_same.
    - apply set_header_same. }
  rewrite Query_unfold.
  destruct req as [rq|]; [|apply Hgo].
  destruct (json_Marshal rq) as [data|e]; [|repeat split].
  destruct (uncompressed addr data); [apply Hgo|].
  destruct (gzip_Write data) as [e|]; [repeat split|].
  destruct (gzip_Close data) as [buf|e]; [apply Hgo | repeat split].
Qed.

End TransportProperties4.

(** * Properties of the facade *)

Section FacadeProperties.

Context `{L : Library payload Reply} {Arg : Type}.
Variable http_NewRequest : RequestCtor.
Variable http_DefaultClient_Do : RequestDoer.
Variable fmt_Sprintf : string -> list Arg -> string.

(** What a call with a payload and no reply leaves behind and returns
    once the body is prepared, by the answers of the constructor and
    of the doer. *)
Lemma Query_prepared_paths client addr key method ctor doer
    (p : payload) (data body : list byte) (gz : bool) :
  json_Marshal p = Ok data ->
  (uncompressed addr data = true /\ body = data /\ gz = false
   \/ uncompressed addr data = false /\ gzip_Write data = None
      /\ gzip_Close data = Ok body /\ gz = true) ->
  let o := Query client addr key method ctor doer (Some p) None in
  let u := api_url client addr key method in
  match ctor "POST" u (Some body) with
  | Err e => o = mkOutcome (Some e) [CallCtor "POST" u (Some body)] None
  | Ok r0 =>
      let r1 := set_header r0 "Content-Type" "application/json" in
      let r := if gz then set_header r1 "Content-Encoding" "gzip" else r1 in
      match doer r with
      | Err e =>
          o = mkOutcome (Some ("http request failed: " +:+ e))
                [CallCtor "POST" u (Some body); CallDoer r] None
      | Ok resp =>
          if Z.eqb (StatusCode resp) StatusOK then
            o = mkOutcome None
                  [CallCtor "POST" u (Some body); CallDoer r; CloseBody] None
          else
            o = mkOutcome
                  (Some ("request failed with " +:+ Status resp +:+ ": "
                           +:+ string_of_list_byte (content (Body resp))))
                  [CallCtor "POST" u (Some body); CallDoer r; ReadBody;
                   CloseBody] None
      end
  end.
Proof.
  intros Hm Hb. cbv zeta. rewrite Query_unfold, Hm.
  pose proof (round_trip_cases client addr key method ctor doer
                (Some body) gz None) as H.
  cbv zeta in H. cbn [add_headers] in H.
  destruct Hb as [(Hu & -> & ->) | (Hu & Hw & Hc & ->)]; rewrite Hu.
  - exact H.
  - rewrite Hw, Hc. exact H.
Qed.

(** C5.  [LogError] formats its message with [fmt.Sprintf], puts it
    with the name into a [LogEntry] and sends that through [Query]
    under the method name log_error: the constructor is called with the
    prepared JSON text of the entry, and its request, with the headers
    set, is handed to the doer.  Whatever comes of it, the error of the
    constructor, of the doer or of the server, stays inside: [LogError]
    has nothing to return. *)
Theorem LogError_swallows_errors
    (dash : Dashboard) (name msg : string) (args : list Arg) :
  let entry := LogEntry.mk name (fmt_Sprintf msg args) in
  let u := api_url (Client dash) (Addr dash) (Key dash) "log_error" in
  let o := Query (Client dash) (Addr dash) (Key dash) "log_error"
             http_NewRequest http_DefaultClient_Do
             (Some (PLogEntry (Some entry))) None in
  let done := LogError http_NewRequest http_DefaultClient_Do fmt_Sprintf
                dash name msg args in
  invoke http_NewRequest http_DefaultClient_Do fmt_Sprintf dash
    (OpLogError name msg args) = (None, done)
  /\ done = events o
  /\ forall data body gz,
       json_Marshal (PLogEntry (Some entry)) = Ok data ->
       (uncompressed (Addr dash) data = true /\ body = data /\ gz = false
        \/ uncompressed (Addr dash) data = false /\ gzip_Write data = None
           /\ gzip_Close data = Ok body /\ gz = true) ->
       match http_NewRequest "POST" u (Some body) with
       | Err e =>
           done = [CallCtor "POST" u (Some body)] /\ returned o = Some e
       | Ok r0 =>
           let r1 := set_header r0 "Content-Type" "application/json" in
           let r :=
             if gz then set_header r1 "Content-Encoding" "gzip" else r1 in
           match http_DefaultClient_Do r with
           | Err e =>
               done = [CallCtor "POST" u (Some body); CallDoer r]
               /\ returned o = Some ("http request failed: " +:+ e)
           | Ok resp =>
               if Z.eqb (StatusCode resp) StatusOK then
                 done = [CallCtor "POST" u (Some body); CallDoer r;
                         CloseBody]
                 /\ returned o = None
               else
                 done = [CallCtor "POST" u (Some body); CallDoer r;
                         ReadBody; CloseBody]
                 /\ returned o
                    = Some ("request failed with " +:+ Status resp +:+ ": "
                              +:+ string_of_list_byte (content (Body resp)))
           end
       end.
Proof.
  cbv zeta. split; [reflexivity|]. split; [reflexivity|].
  intros data body gz Hm Hb.
  pose proof (Query_prepared_paths (Client dash) (Addr dash) (Key dash)
                "log_error" http_NewRequest http_DefaultClient_Do
                _ data body gz Hm Hb) as H.
  cbv zeta in H. unfold LogError, query.
  destruct (http_NewRequest _ _ _) as [r0|e]; [|rewrite H; split; reflexivity].
  destruct (http_DefaultClient_Do _) as [resp|e];
    [|rewrite H; split; reflexivity].
  destruct (Z.eqb _ _); rewrite H; split; reflexivity.
Qed.

(** C9, as the code has it.  The methods of [Dashboard] are
    UploadBuild, ReportCrash, ReportFailedRepro and LogError.  Each
    calls [Query] with the three fields of the [Dashboard], its own
    method name, [http.NewRequest], [http.DefaultClient.Do], its own
    payload (the [Build], [Crash] or [FailedRepro] it was given, or
    the [LogEntry] it made) and no reply to fill, so that no response
    is decoded; each returns the error of [Query], except LogError,
    which returns nothing.  When the JSON text of the payload goes
    uncompressed, the constructor is called with it and the request it
    returns is handed to the doer with its Content-Type set. *)
Theorem facade_operations (dash : Dashboard) (op : operation) :
  let wire : string * payload :=
    match op with
    | OpUploadBuild build => ("upload_build", PBuild build)
    | OpReportCrash crash => ("report_crash", PCrash crash)
    | OpReportFailedRepro repro => ("report_failed_repro", PFailedRepro repro)
    | OpLogError name msg args =>
        ("log_error",
         PLogEntry (Some (LogEntry.mk name (fmt_Sprintf msg args))))
    end in
  let u := api_url (Client dash) (Addr dash) (Key dash) (fst wire) in
  let o := Query (Client dash) (Addr dash) (Key dash) (fst wire)
             http_NewRequest http_DefaultClient_Do (Some (snd wire)) None in
  let done := invoke http_NewRequest http_DefaultClient_Do fmt_Sprintf
                dash op in
  done = (match op with
          | OpLogError _ _ _ => None
          | _ => returned o
          end, events o)
  /\ ~ In DecodeBody (snd done)
  /\ reply_after o = None
  /\ forall data r0,
       json_Marshal (snd wire) = Ok data ->
       uncompressed (Addr dash) data = true ->
       http_NewRequest "POST" u (Some data) = Ok r0 ->
       ctor_calls (snd done) = [("POST", u, Some data)]
       /\ sent (snd done)
          = [set_header r0 "Content-Type" "application/json"].
Proof.
  cbv zeta.
  set (wire := match op with
               | OpUploadBuild build => ("upload_build", PBuild build)
               | OpReportCrash crash => ("report_crash", PCrash crash)
               | OpReportFailedRepro repro =>
                   ("report_failed_repro", PFailedRepro repro)
               | OpLogError name msg args =>
                   ("log_error",
                    PLogEntry
                      (Some (LogEntry.mk name (fmt_Sprintf msg args))))
               end).
  set (o := Query (Client dash) (Addr dash) (Key dash) (fst wire)
              http_NewRequest http_DefaultClient_Do (Some (snd wire)) None).
  assert (Hinv : invoke http_NewRequest http_DefaultClient_Do fmt_Sprintf
                   dash op
                 = (match op with
                    | OpLogError _ _ _ => None
                    | _ => returned o
                    end, events o))
    by (destruct op; reflexivity).
  rewrite Hinv. cbn [snd].
  assert (Hd : ~ In DecodeBody (events o)).
  { intros Hin. apply Query_decoded in Hin.
    destruct Hin as (r & resp & v & _ & _ & _ & Hv & _). discriminate Hv. }
  split; [reflexivity|]. split; [exact Hd|].
  split; [now apply Query_not_decoded in Hd|].
  intros data r0 Hm Hu Hc.
  pose proof (Query_prepared_paths (Client dash) (Addr dash) (Key dash)
                (fst wire) http_NewRequest http_DefaultClient_Do
                (snd wire) data data false Hm) as H.
  cbv zeta in H. rewrite Hc in H. fold o in H.
  destruct (http_DefaultClient_Do _) as [resp|e];
    [destruct (Z.eqb _ _)|]; rewrite H by auto; split; reflexivity.
Qed.

End FacadeProperties.

(** * The round trip of the data model *)

(** C4, as the library has it.  For every record of every type of the
    package whose strings are valid UTF-8 (and whose integers are in
    the range of [int], as every Go value is), marshaling it and
    unmarshaling the text gives the record back, field for field. *)
Theorem entity_round_trip (e : entity) (r : record_of e) :
  json.valid (codec_of e) r -> round_trip_json e r = (r, None).
Proof.
  intros Hv. unfold round_trip_json.
  apply codec_facts.Unmarshal_Marshal; [|exact Hv].
  destruct e; apply codec_facts.struct_lawful;
    auto using model_facts.Build_fields_ok, model_facts.Crash_fields_ok,
      model_facts.FailedRepro_fields_ok, model_facts.LogEntry_fields_ok,
      model_facts.BugReport_fields_ok, model_facts.BugUpdate_fields_ok,
      model_facts.PollRequest_fields_ok, model_facts.PollResponse_fields_ok.
Qed.

(** * Properties of the decoding of replies *)

Section DecodingProperties.

Variable e : entity.
Variable gz_Write : list byte -> option error.
Variable gz_Close : list byte -> res (list byte).




End DecodingProperties.

(** * Sample calls *)

Section Samples.

Import example.

Ltac valid_record :=
  repeat lazymatch goal with
    | |- Forall _ _ => constructor
    | |- True => exact I
    | |- _ = true => vm_compute; reflexivity
    | |- (_ <= _ <= _)%Z => vm_compute; split; discriminate
    | |- _ => progress hnf
    end.

Ltac no_event H :=
  repeat destruct H as [H | H]; try discriminate H; try contradiction.

(** A long entry for a remote address is sent compressed, and
    decompresses to its JSON text. *)
Lemma Query_compression_policy_witness :
  let rq := PLogEntry (Some long_entry) in
  let o := Query (L := lib LogEntry.codec) "syz-manager" addr "secret"
             "log_error" double.ctor_ok double.doer_fail (Some rq) None in
  exists buf,
    double.gunzip buf = Some (marshal_payload rq)
    /\ ctor_calls (events o)
       = [("POST", api_url "syz-manager" addr "secret" "log_error", Some buf)]
    /\ forall r, In r (sent (events o)) ->
         ReqHeader r !! "Content-Encoding" = Some ["gzip"].
Proof.
  intros rq o.
  assert (Hgz : forall d buf,
    gzip_Write (Library := lib LogEntry.codec) d = None ->
    gzip_Close (Library := lib LogEntry.codec) d = Ok buf ->
    double.gunzip buf = Some d).
  { intros d buf _ [= <-]. reflexivity. }
  destruct (Query_compression_policy (L := lib LogEntry.codec)
              double.gunzip "syz-manager" addr "secret" "log_error"
              double.ctor_ok double.doer_fail rq None (marshal_payload rq)
              Hgz eq_refl) as [_ H].
  exists (x1f :: x8b :: marshal_payload rq).
  destruct (H) with (buf := x1f :: x8b :: marshal_payload rq)
    as (H1 & H2 & H3).
  - intros [Hl | [He | Hp]].
    + apply Nat.ltb_lt in Hl. vm_compute in Hl. discriminate Hl.
    + discriminate He.
    + vm_compute in Hp. discriminate Hp.
  - reflexivity.
  - reflexivity.
  - split; [exact H1|]. split; [exact H2|].
    apply (H3 _ eq_refl).
Defined.

(** An answer 500 with body [internal error]. *)
Lemma Query_remote_error_witness :
  let o := Query (L := lib LogEntry.codec) (Client dash) (Addr dash)
             (Key dash) "upload_build" double.ctor_ok
             (answer 500 "500 Internal Server Error" "internal error" None)
             None (Some LogEntry.zero) in
  exists msg,
    returned o = Some msg /\ contains msg "internal error"
    /\ reply_after o = Some LogEntry.zero.
Proof.
  intros o.
  destruct (Query_remote_error (L := lib LogEntry.codec) (Client dash)
              (Addr dash) (Key dash) "upload_build" double.ctor_ok
              (answer 500 "500 Internal Server Error" "internal error" None)
              None (Some LogEntry.zero) (bare_request "upload_build")
              (mkResponse "500 Internal Server Error" 500
                 (mkReader (list_byte_of_string "internal error") None)))
    as (msg & H1 & _ & H3 & _ & H5).
  - left. vm_compute. reflexivity.
  - reflexivity.
  - discriminate.
  - exists msg. split; [exact H1|]. split; [|exact H5].
    apply H3. reflexivity.
Defined.

(** An answer 502 whose body breaks after [upstream]. *)
Lemma Query_remote_error_read_failure_witness :
  returned
    (Query (L := lib LogEntry.codec) (Client dash) (Addr dash) (Key dash)
       "upload_build" double.ctor_ok
       (answer 502 "502 Bad Gateway" "upstream" (Some "unexpected EOF"))
       None None)
  = Some "request failed with 502 Bad Gateway: upstream".
Proof.
  apply (Query_remote_error_read_failure (L := lib LogEntry.codec)
           (Client dash) (Addr dash) (Key dash) "upload_build"
           double.ctor_ok
           (answer 502 "502 Bad Gateway" "upstream" (Some "unexpected EOF"))
           None None (bare_request "upload_build")
           (mkResponse "502 Bad Gateway" 502
              (mkReader (list_byte_of_string "upstream")
                 (Some "unexpected EOF")))
           (list_byte_of_string "upstream") "unexpected EOF").
  - left. vm_compute. reflexivity.
  - reflexivity.
  - discriminate.
  - reflexivity.
Defined.


(** A call that fails in the transport leaves the reply as it was. *)
Lemma Query_error_and_reply_witness :
  reply_after
    (Query (L := lib LogEntry.codec) (Client dash) (Addr dash) (Key dash)
       "poll" double.ctor_ok double.doer_fail None (Some entry))
  = Some entry.
Proof.
  apply (Query_error_and_reply (L := lib LogEntry.codec)
           (Client dash) (Addr dash) (Key dash) "poll" double.ctor_ok
           double.doer_fail None (Some entry)
           "http request failed: dial tcp: connection refused").
  - vm_compute. reflexivity.
  - vm_compute. intros H. no_event H.
Defined.

(** A poll response with a report and a nil pointer. *)
Lemma entity_round_trip_witness :
  round_trip_json TPollResponse poll_response = (poll_response, None).
Proof.
  apply (entity_round_trip TPollResponse poll_response).
  valid_record.
Defined.

(** C4 fails on a name that is not UTF-8: the marshaler writes the
    replacement character for the byte 0xff. *)
Lemma round_trip_loses_invalid_utf8 :
  round_trip_json TLogEntry (LogEntry.mk bad_name "t")
  <> (LogEntry.mk bad_name "t", None).
Proof.
  vm_compute. discriminate.
Qed.


(** C6 fails when the request constructor fails: the error it gives is
    returned, and none of the four causes of the taxonomy holds. *)
Lemma Query_error_outside_taxonomy :
  let o := Query (L := lib LogEntry.codec) "syz-manager" "::" "secret"
             "upload_build" double.ctor_fail double.doer_fail None None in
  returned o
  = Some "parse ::/api?client=syz-manager&key=secret&method=upload_build: invalid URL"
  /\ ~ exists c e,
         in_taxonomy c = true
         /\ arises_from (L := lib LogEntry.codec) "syz-manager" "::"
              "secret" "upload_build" double.ctor_fail double.doer_fail
              None None c e.
Proof.
  split; [vm_compute; reflexivity|].
  intros (c & e & Ht & Ha).
  destruct Ha as [? ? H|? ? ? H|? ? ? H| |? ? H|? ? H|? ? ? ? H];
    try discriminate H; try discriminate Ht; vm_compute in H; exact H.
Qed.

(** C7 fails on a reply whose second field has the wrong type: the
    decoder has stored the first field when it reports the error. *)
Lemma Query_error_with_partial_reply :
  let o := Query (L := lib LogEntry.codec) (Client dash) (Addr dash)
             (Key dash) "poll" double.ctor_ok
             (double.doer_reply 200 "200 OK" (mkReader mistyped_reply None))
             None (Some LogEntry.zero) in
  (exists e, returned o = Some ("failed to unmarshal response: " +:+ e))
  /\ reply_after o = Some (LogEntry.mk "x" "")
  /\ reply_after o <> Some LogEntry.zero.
Proof.
  split; [eexists; vm_compute; reflexivity|].
  vm_compute. split; [reflexivity | discriminate].
Qed.

(** C8 fails when the request constructor fails: nothing is sent. *)
Lemma Query_without_request :
  let o := Query (L := lib LogEntry.codec) "syz-manager" "::" "secret"
             "upload_build" double.ctor_fail double.doer_fail None None in
  sent (events o) = [] /\ returned o <> None
  /\ ~ exists r, sent (events o) = [r].
Proof.
  vm_compute. repeat split; [discriminate|]. intros [r H]. discriminate H.
Qed.

(** C9 fails: no method hands a [PollRequest] or a [BugUpdate] to
    [query], and against a server that answers every request with a
    poll response, no method decodes the answer. *)
Lemma facade_without_poll_and_update :
  (~ exists p : payload,
       payload_type p = TPollRequest \/ payload_type p = TBugUpdate)
  /\ ~ exists op : operation (Arg := unit),
         In DecodeBody
           (snd (invoke (L := lib PollResponse.codec) double.ctor_ok
                   (double.doer_reply 200 "200 OK"
                      (mkReader
                         (json.Marshal PollResponse.codec poll_response)
                         None))
                   (fun msg _ => msg) dash op)).
Proof.
  split.
  - intros [[] [H | H]]; discriminate H.
  - intros [op H].
    assert (Hq : exists method p,
      In DecodeBody
        (events (query (L := lib PollResponse.codec) double.ctor_ok
                   (double.doer_reply 200 "200 OK"
                      (mkReader
                         (json.Marshal PollResponse.codec poll_response)
                         None))
                   dash method (Some p) None))).
    { destruct op as [b | c | r | name msg args];
        [exists "upload_build", (PBuild b)
        |exists "report_crash", (PCrash c)
        |exists "report_failed_repro", (PFailedRepro r)
        |exists "log_error", (PLogEntry (Some (LogEntry.mk name msg)))];
        exact H. }
    destruct Hq as (method & p & Hq). apply Query_decoded in Hq.
    destruct Hq as (r & resp & v & _ & _ & _ & Hv & _). discriminate Hv.
Qed.

End Samples.

(** * Further properties of the transport function *)

Section TransportOrder.

Context `{L : Library Req Reply}.

Ltac events_in H :=
  cbn [events returned reply_after sent ctor_calls flat_map app In] in H;
  repeat (destruct H as [H | H]); try discriminate H; try contradiction.

Ltac no_in := let H := fresh "H" in intros H; events_in H.

Ltac is_in := intros _; cbn [events In]; auto 6.

Ltac no_resp :=
  let r := fresh "r" in
  let resp' := fresh "resp'" in
  let Hin := fresh "Hin" in
  let Hr := fresh "Hr" in
  let Hs := fresh "Hs" in
  intros (r & resp' & Hin & Hr & Hs); events_in Hin; subst;
  first [congruence | destruct Hs; congruence].

Ltac has_resp :=
  intros _; eexists _, _;
  cbn [events sent flat_map app In];
  split; [left; reflexivity|]; split; [eassumption|];
  first [assumption | split; [assumption | discriminate]].

Ltac round_trip_paths client addr key method ctor doer body gz reply :=
  let E := fresh "E" in
  pose proof (round_trip_cases client addr key method ctor doer body gz reply)
    as E;
  cbv zeta in E;
  destruct (ctor "POST" (api_url client addr key method) body) as [?r0|?e];
  [destruct (doer (add_headers r0 body gz)) as [?resp|?e] eqn:?Hdo;
   [destruct (Z.eqb (StatusCode resp) StatusOK) eqn:?Hst;
    [apply Z.eqb_eq in Hst; destruct reply as [?v|]
    |apply Z.eqb_neq in Hst]|]|];
  rewrite E; clear E.

(** X1.  The response body is released on every path on which there is one:
    when the doer has returned a response, [Close] is the last thing
    [Query] does, and it is done once; when there is no response (the
    call stopped before the doer, or the doer failed), nothing is
    closed. *)
Theorem Query_closes_body
    (client addr key method : string) (ctor : RequestCtor)
    (doer : RequestDoer) (req : option Req) (reply : option Reply) :
  let o := Query client addr key method ctor doer req reply in
  let answered :=
    exists r resp, In r (sent (events o)) /\ doer r = Ok resp in
  (answered ->
   exists tr, events o = tr ++ [CloseBody] /\ ~ In CloseBody tr)
  /\ (~ answered -> ~ In CloseBody (events o)).
Proof.
  cbv zeta.
  destruct (Query_stops_or_goes client addr key method ctor doer req reply)
    as [(e & E & _) | (body & gz & E & _)]; rewrite E; clear E.
  - split.
    + intros (r & resp & [] & _).
    + intros _ [].
  - round_trip_paths client addr key method ctor doer body gz reply.
    + split.
      * intros _. eexists [_; _; _]. split; [reflexivity|].
        intros H. events_in H.
      * intros Hn. exfalso. apply Hn. eexists _, _. split; [left; reflexivity|].
        exact Hdo.
    + split.
      * intros _. eexists [_; _]. split; [reflexivity|].
        intros H. events_in H.
      * intros Hn. exfalso. apply Hn. eexists _, _. split; [left; reflexivity|].
        exact Hdo.
    + split.
      * intros _. eexists [_; _; _]. split; [reflexivity|].
        intros H. events_in H.
      * intros Hn. exfalso. apply Hn. eexists _, _. split; [left; reflexivity|].
        exact Hdo.
    + split.
      * intros (r & resp & Hin & Hr). events_in Hin. subst r. congruence.
      * intros _ H. events_in H.
    + split.
      * intros (r & resp & Hin & _). events_in Hin.
      * intros _ H. events_in H.
Qed.

(** X2.  The response body is read by one reader at most.  [ReadAll] reads
    it exactly when a response came with a status other than 200; the
    decoder reads it exactly when a response came with status 200 and
    [reply] is not [nil]; with status 200 and a [nil] reply the body is
    closed unread. *)
Theorem Query_reads_body_once
    (client addr key method : string) (ctor : RequestCtor)
    (doer : RequestDoer) (req : option Req) (reply : option Reply) :
  let o := Query client addr key method ctor doer req reply in
  (In ReadBody (events o) <->
   exists r resp, In r (sent (events o)) /\ doer r = Ok resp
                  /\ StatusCode resp <> StatusOK)
  /\ (In DecodeBody (events o) <->
      exists r resp, In r (sent (events o)) /\ doer r = Ok resp
                     /\ StatusCode resp = StatusOK /\ reply <> None)
  /\ ~ (In ReadBody (events o) /\ In DecodeBody (events o)).
Proof.
  cbv zeta.
  destruct (Query_stops_or_goes client addr key method ctor doer req reply)
    as [(e & E & _) | (body & gz & E & _)]; rewrite E; clear E.
  - repeat split; try (intros []; fail).
    + intros (r & resp & [] & _).
    + intros (r & resp & [] & _).
    + intros [[] _].
  - round_trip_paths client addr key method ctor doer body gz reply.
    + split; [split; [no_in | no_resp]|].
      split; [split; [has_resp | is_in] | intros [H _]; events_in H].
    + split; [split; [no_in | no_resp]|].
      split; [split; [no_in | no_resp] | intros [H _]; events_in H].
    + split; [split; [has_resp | is_in]|].
      split; [split; [no_in | no_resp] | intros [_ H]; events_in H].
    + split; [split; [no_in | no_resp]|].
      split; [split; [no_in | no_resp] | intros [H _]; events_in H].
    + split; [split; [no_in | no_resp]|].
      split; [split; [no_in | no_resp] | intros [H _]; events_in H].
Qed.

(** X3.  [Query] returns no error exactly when a request was sent, the
    answer has status 200 and, if a reply is expected, the decoder
    accepted the body; the reply then holds what the decoder stored, and
    a [nil] reply stays [nil]. *)
Theorem Query_success
    (client addr key method : string) (ctor : RequestCtor)
    (doer : RequestDoer) (req : option Req) (reply : option Reply) :
  let o := Query client addr key method ctor doer req reply in
  returned o = None <->
  exists r resp,
    sent (events o) = [r] /\ doer r = Ok resp
    /\ StatusCode resp = StatusOK
    /\ match reply with
       | None => reply_after o = None
       | Some v =>
           json_Decode (Body resp) v
           = (fst (json_Decode (Body resp) v), None)
           /\ reply_after o = Some (fst (json_Decode (Body resp) v))
       end.
Proof.
  cbv zeta.
  destruct (Query_stops_or_goes client addr key method ctor doer req reply)
    as [(e & E & _) | (body & gz & E & _)]; rewrite E; clear E.
  - split; [discriminate|]. intros (r & resp & H & _). discriminate H.
  - round_trip_paths client addr key method ctor doer body gz reply;
      cbn [returned events reply_after sent flat_map app].
    + destruct (json_Decode (Body resp) v) as [v' [e|]] eqn:Ed; cbn [snd fst].
      * split; [discriminate|].
        intros (r & resp' & [= <-] & Hr & _ & Hd & _).
        rewrite Hdo in Hr. injection Hr as <-. rewrite Ed in Hd.
        discriminate Hd.
      * split; [|reflexivity]. intros _. eexists _, _.
        split; [reflexivity|]. split; [exact Hdo|]. split; [exact Hst|].
        rewrite Ed. split; reflexivity.
    + split; [|reflexivity]. intros _. eexists _, _.
      split; [reflexivity|]. split; [exact Hdo|]. split; [exact Hst|].
      reflexivity.
    + split; [discriminate|].
      intros (r & resp' & [= <-] & Hr & Hs & _). congruence.
    + split; [discriminate|].
      intros (r & resp' & [= <-] & Hr & _). congruence.
    + split; [discriminate|]. intros (r & resp' & H & _). discriminate H.
Qed.

(** X4.  [Query] touches two headers of the request the constructor
    returned and nothing else: every header other than Content-Type and
    Content-Encoding reaches the doer as the constructor set it. *)
Theorem Query_keeps_other_headers
    (client addr key method : string) (ctor : RequestCtor)
    (doer : RequestDoer) (req : option Req) (reply : option Reply)
    (u : string) (body : option (list byte)) (r0 r : Request) (k : string) :
  let o := Query client addr key method ctor doer req reply in
  In ("POST", u, body) (ctor_calls (events o)) ->
  ctor "POST" u body = Ok r0 ->
  In r (sent (events o)) ->
  k <> "Content-Type" -> k <> "Content-Encoding" ->
  ReqHeader r !! k = ReqHeader r0 !! k.
Proof.
  cbv zeta.
  destruct (Query_stops_or_goes client addr key method ctor doer req reply)
    as [(e & E & _) | (body' & gz & E & _)]; rewrite E; clear E.
  - intros [].
  - rewrite round_trip_ctor_calls, round_trip_sent.
    intros [[= <- <-] | []] Hc. rewrite Hc. intros [<- | []] Hk1 Hk2.
    destruct body' as [b|]; cbn [add_headers]; [|reflexivity].
    destruct gz; rewrite ?set_header_other by congruence; reflexivity.
Qed.

(** X5.  The request does not depend on [reply]: two calls that differ only
    in the reply argument make the same constructor call and hand the
    same request to the doer. *)
Theorem Query_request_ignores_reply
    (client addr key method : string) (ctor : RequestCtor)
    (doer : RequestDoer) (req : option Req) (reply reply' : option Reply) :
  let o := Query client addr key method ctor doer req reply in
  let o' := Query client addr key method ctor doer req reply' in
  ctor_calls (events o) = ctor_calls (events o')
  /\ sent (events o) = sent (events o').
Proof.
  cbv zeta. rewrite !Query_unfold.
  destruct req as [rq|];
    [destruct (json_Marshal rq) as [data|e];
     [destruct (uncompressed addr data);
      [|destruct (gzip_Write data);
        [|destruct (gzip_Close data) as [buf|e]]]|]|];
    rewrite ?round_trip_ctor_calls, ?round_trip_sent; split; reflexivity.
Qed.

End TransportOrder.

(** * Further properties of replies *)

Module reply_facts.

Import json vocab doc_facts codec_facts.

Lemma skip_space_spaces ws s :
  forallb is_space ws = true -> skip_space (ws ++ s) = skip_space s.
Proof.
  induction ws as [|b ws IH]; [reflexivity|].
  cbn [forallb app skip_space]. intros H.
  apply andb_true_iff in H as [-> H]. auto.
Qed.

(** White space alone is no document. *)
Lemma parse_spaces ws : forallb is_space ws = true -> parse ws = Truncated.
Proof.
  intros H. unfold parse. cbn [parse_value].
  pose proof (skip_space_spaces ws [] H) as E.
  rewrite app_nil_r in E. now rewrite E.
Qed.

(** An empty object, after white space and before anything. *)
Lemma parse_empty_object ws rest :
  forallb is_space ws = true ->
  parse (ws ++ x7b :: x7d :: rest) = Parsed (Object []) rest.
Proof.
  intros H. unfold parse. cbn [parse_value].
  now rewrite skip_space_spaces.
Qed.

(** An object is closed by its brace: what follows it is not read. *)
Lemma parse_print_object ms rest :
  written (Object ms) ->
  parse (print (Object ms) ++ rest) = Parsed (Object ms) rest.
Proof.
  intros Hw. unfold parse.
  pose proof (depth_le_print (Object ms)) as Hd.
  assert (Hf : depth (Object ms) <= length (print (Object ms) ++ rest))
    by (rewrite length_app; lia).
  clear Hd. revert Hf. generalize (length (print (Object ms) ++ rest)).
  intros fuel Hf.
  apply written_object in Hw.
  destruct ms as [|m ms]; [reflexivity|].
  cbn [print]. cbn [app]. repeat (rewrite <- ?app_assoc; cbn [app]).
  change (map (fun m => encode_string (fst m) ++ x3a :: print (snd m)))
    with (map member_text).
  assert (exists t', join [x2c] (map member_text (m :: ms)) ++ x7d :: rest
                          = x22 :: t') as [t' Ej].
  { destruct ms; cbn [map join]; rewrite ?join_cons;
      unfold member_text at 1, encode_string; cbn [app];
      eexists; reflexivity. }
  rewrite Ej, object_dispatch, <- Ej.
  rewrite parse_members_print; [reflexivity | |].
  - rewrite List.Forall_forall in Hw |- *. intros y Hy.
    destruct (Hw y Hy) as [Hk Hy']. repeat split; auto.
    intros rest' Hr'. apply parse_value_print; auto.
    pose proof (depth_object y (m :: ms) Hy). lia.
  - rewrite length_app. pose proof (join_length_members (m :: ms)).
    cbn [length] in *. lia.
Qed.

(** The codecs of the data model are lawful. *)
Lemma codec_of_lawful (e : entity) : lawful (codec_of e).
Proof.
  destruct e; apply struct_lawful;
    auto using model_facts.Build_fields_ok, model_facts.Crash_fields_ok,
      model_facts.FailedRepro_fields_ok, model_facts.LogEntry_fields_ok,
      model_facts.BugReport_fields_ok, model_facts.BugUpdate_fields_ok,
      model_facts.PollRequest_fields_ok, model_facts.PollResponse_fields_ok.
Qed.

Lemma codec_of_object (e : entity) (r : record_of e) :
  exists ms, encode (codec_of e) r = Object ms.
Proof. destruct e; eexists; reflexivity. Qed.

Lemma codec_of_empty_object (e : entity) (v : record_of e) :
  store (codec_of e) (Object []) v = (v, None).
Proof. destruct e; reflexivity. Qed.

(** The decoder on a stream that starts with the text of a record. *)
Lemma Decode_Marshal (e : entity) (r old : record_of e) rest failure :
  valid (codec_of e) r ->
  Decode (codec_of e) (http.mkReader (Marshal (codec_of e) r ++ rest) failure)
    old
  = (r, None).
Proof.
  intros Hv. unfold Decode, Marshal. cbn [http.content http.failure].
  destruct (codec_of_object e r) as [ms E].
  pose proof (law_written _ (codec_of_lawful e) r Hv) as Hw.
  pose proof (law_store _ (codec_of_lawful e) r old Hv) as Hs.
  rewrite E in Hw, Hs |- *. rewrite parse_print_object by exact Hw.
  exact Hs.
Qed.

End reply_facts.

Section Replies.

Context {Reply : Type} (c : json.codec Reply).
Variable gz_Write : list byte -> option error.
Variable gz_Close : list byte -> res (list byte).

(** X6.  A 200 answer with an empty body, or a body of white space only,
    when a reply is expected: the call fails with the decoder's [EOF]
    (or with the error that broke the stream), and the reply keeps the
    value it had. *)
Theorem Query_empty_body
    (client addr key method : string) (ctor : RequestCtor)
    (doer : RequestDoer) (req : option payload) (v : Reply)
    (r : Request) (resp : Response) :
  let o := Query (L := go_library c gz_Write gz_Close)
             client addr key method ctor doer req (Some v) in
  In r (sent (events o)) -> doer r = Ok resp ->
  StatusCode resp = StatusOK ->
  forallb json.is_space (content (Body resp)) = true ->
  returned o
  = Some ("failed to unmarshal response: "
            +:+ match failure (Body resp) with
                | Some e => e
                | None => "EOF"
                end)
    /\ reply_after o = Some v.
Proof.
  intros o Hin Hd Hs Hws.
  pose proof (Query_after_send (L := go_library c gz_Write gz_Close)
                client addr key method ctor doer req (Some v) r Hin) as H.
  destruct H as (u & body & H). rewrite Hd in H.
  apply Z.eqb_eq in Hs. rewrite Hs in H. cbn [negb] in H.
  fold o in H. rewrite H. cbn [returned reply_after json_Decode go_library].
  unfold json.Decode. rewrite (reply_facts.parse_spaces _ Hws), Hws.
  destruct (failure (Body resp)); split; reflexivity.
Qed.

(** X11.  A 200 answer whose body is cut short or is not JSON, when a
    reply is expected: the call fails with a decoding error and the
    reply keeps the value it had; the decoder stores nothing before it
    has read a whole document. *)
Theorem Query_malformed_reply
    (client addr key method : string) (ctor : RequestCtor)
    (doer : RequestDoer) (req : option payload) (v : Reply)
    (r : Request) (resp : Response) :
  let o := Query (L := go_library c gz_Write gz_Close)
             client addr key method ctor doer req (Some v) in
  In r (sent (events o)) -> doer r = Ok resp ->
  StatusCode resp = StatusOK ->
  json.parse (content (Body resp)) = json.Truncated
  \/ json.parse (content (Body resp)) = json.Invalid ->
  (exists e, returned o = Some ("failed to unmarshal response: " +:+ e))
  /\ reply_after o = Some v.
Proof.
  intros o Hin Hd Hs Hp.
  pose proof (Query_after_send (L := go_library c gz_Write gz_Close)
                client addr key method ctor doer req (Some v) r Hin) as H.
  destruct H as (u & body & H). rewrite Hd in H.
  apply Z.eqb_eq in Hs. rewrite Hs in H. cbn [negb] in H.
  fold o in H. rewrite H. cbn [returned reply_after json_Decode go_library].
  unfold json.Decode.
  destruct Hp as [-> | ->]; cbn [fst snd option_map]; eauto.
Qed.

End Replies.

Section EntityReplies.

Variable e : entity.
Variable gz_Write : list byte -> option error.
Variable gz_Close : list byte -> res (list byte).

(** X7.  A 200 answer whose body starts with the JSON text of a valid
    record: the call succeeds and the reply holds that record, whatever
    the fields of the reply held before, as long as it held no pointer
    (for a [PollResponse], as long as its [Reports] were [nil]: the
    decoder writes through the pointers it finds, and two of them may
    point to one report), whatever follows the text in the body, and
    even if the stream breaks after it. *)
Theorem Query_delivers_reply
    (client addr key method : string) (ctor : RequestCtor)
    (doer : RequestDoer) (req : option payload) (old rec : record_of e)
    (rest : list byte) (r : Request) (resp : Response) :
  let o := Query (L := go_library (codec_of e) gz_Write gz_Close)
             client addr key method ctor doer req (Some old) in
  In r (sent (events o)) -> doer r = Ok resp ->
  StatusCode resp = StatusOK ->
  unshared e old ->
  json.valid (codec_of e) rec ->
  content (Body resp) = json.Marshal (codec_of e) rec ++ rest ->
  returned o = None /\ reply_after o = Some rec.
Proof.
  intros o Hin Hd Hs _ Hv Hc.
  pose proof (Query_after_send
                (L := go_library (codec_of e) gz_Write gz_Close)
                client addr key method ctor doer req (Some old) r Hin) as H.
  destruct H as (u & body & H). rewrite Hd in H.
  apply Z.eqb_eq in Hs. rewrite Hs in H. cbn [negb] in H.
  fold o in H. rewrite H. cbn [returned reply_after json_Decode go_library].
  destruct (Body resp) as [content failure]. cbn [http.content] in Hc.
  subst content. rewrite reply_facts.Decode_Marshal by exact Hv.
  split; reflexivity.
Qed.

(** X8.  A 200 answer whose body is an empty object: the call succeeds
    without a word, and the reply keeps the value it had. *)
Theorem Query_empty_object_reply
    (client addr key method : string) (ctor : RequestCtor)
    (doer : RequestDoer) (req : option payload) (old : record_of e)
    (ws rest : list byte) (r : Request) (resp : Response) :
  let o := Query (L := go_library (codec_of e) gz_Write gz_Close)
             client addr key method ctor doer req (Some old) in
  In r (sent (events o)) -> doer r = Ok resp ->
  StatusCode resp = StatusOK ->
  forallb json.is_space ws = true ->
  content (Body resp) = ws ++ x7b :: x7d :: rest ->
  returned o = None /\ reply_after o = Some old.
Proof.
  intros o Hin Hd Hs Hws Hc.
  pose proof (Query_after_send
                (L := go_library (codec_of e) gz_Write gz_Close)
                client addr key method ctor doer req (Some old) r Hin) as H.
  destruct H as (u & body & H). rewrite Hd in H.
  apply Z.eqb_eq in Hs. rewrite Hs in H. cbn [negb] in H.
  fold o in H. rewrite H. cbn [returned reply_after json_Decode go_library].
  unfold json.Decode. rewrite Hc, (reply_facts.parse_empty_object _ _ Hws).
  rewrite reply_facts.codec_of_empty_object. split; reflexivity.
Qed.

(** X12.  A 200 answer whose body is a JSON array where a record is
    expected, nested no deeper than the 10000 levels the scanner of
    the library allows: the call fails with a type error that names
    the record type, and the reply keeps the value it had. *)
Theorem Query_array_reply
    (client addr key method : string) (ctor : RequestCtor)
    (doer : RequestDoer) (req : option payload) (old : record_of e)
    (elems : list json.value) (rest : list byte)
    (r : Request) (resp : Response) :
  let o := Query (L := go_library (codec_of e) gz_Write gz_Close)
             client addr key method ctor doer req (Some old) in
  In r (sent (events o)) -> doer r = Ok resp ->
  StatusCode resp = StatusOK ->
  json.parse (content (Body resp)) = json.Parsed (json.Array elems) rest ->
  (Z.of_nat (vocab.depth (json.Array elems)) <= 10000)%Z ->
  returned o
  = Some ("failed to unmarshal response: json: cannot unmarshal array into Go value of type "
            +:+ json.go_type (codec_of e))
  /\ reply_after o = Some old
  /\ In (json.go_type (codec_of e))
       ["dashapi.Build"; "dashapi.Crash"; "dashapi.FailedRepro";
        "dashapi.LogEntry"; "dashapi.BugReport"; "dashapi.BugUpdate";
        "dashapi.PollRequest"; "dashapi.PollResponse"].
Proof.
  intros o Hin Hd Hs Hp _.
  pose proof (Query_after_send
                (L := go_library (codec_of e) gz_Write gz_Close)
                client addr key method ctor doer req (Some old) r Hin) as H.
  destruct H as (u & body & H). rewrite Hd in H.
  apply Z.eqb_eq in Hs. rewrite Hs in H. cbn [negb] in H.
  fold o in H. rewrite H. cbn [returned reply_after json_Decode go_library].
  unfold json.Decode. rewrite Hp.
  assert (Hst : json.store (codec_of e) (json.Array elems) old
                = (old, Some (json.type_error (json.Array elems)
                                (json.go_type (codec_of e)))))
    by (destruct e; reflexivity).
  rewrite Hst. cbn [fst snd option_map].
  split; [|split; [reflexivity|]].
  - reflexivity.
  - destruct e; cbn; auto 10.
Qed.

End EntityReplies.

(** * Further properties of the facade *)

Section FacadeWire.

Context {Reply : Type} (c : json.codec Reply) {Arg : Type}.
Variable gz_Write : list byte -> option error.
Variable gz_Close : list byte -> res (list byte).
Variable gunzip : list byte -> option (list byte).
Variable http_NewRequest : RequestCtor.
Variable http_DefaultClient_Do : RequestDoer.
Variable fmt_Sprintf : string -> list Arg -> string.

Let lib : Library payload Reply := go_library c gz_Write gz_Close.

Lemma query_delivers {A} (ca : json.codec A) (a : A) (p : payload)
    (dash : Dashboard) (method : string) :
  (forall d, gz_Write d = None) ->
  (forall d, exists buf, gz_Close d = Ok buf /\ gunzip buf = Some d) ->
  vocab.lawful ca -> json.valid ca a ->
  marshal_payload p = json.Marshal ca a ->
  delivers gunzip http_NewRequest dash method ca a
    (events (query (L := lib) http_NewRequest http_DefaultClient_Do
               dash method (Some p) None)).
Proof.
  intros Hw Hc Hl Hv Hm. unfold query, delivers. cbv zeta.
  rewrite Query_unfold.
  cbn [json_Marshal lib go_library]. rewrite Hm.
  destruct (uncompressed (Addr dash) (json.Marshal ca a)) eqn:Eu.
  - exists (json.Marshal ca a), (json.Marshal ca a).
    rewrite round_trip_ctor_calls, round_trip_sent, Eu.
    split; [reflexivity|]. split; [reflexivity|].
    split; [now apply codec_facts.Unmarshal_Marshal|].
    intros r0 ->. reflexivity.
  - cbn [gzip_Write gzip_Close lib go_library]. rewrite Hw.
    destruct (Hc (json.Marshal ca a)) as (buf & Hb & Hg). rewrite Hb.
    exists buf, (json.Marshal ca a).
    rewrite round_trip_ctor_calls, round_trip_sent, Eu.
    split; [reflexivity|]. split; [exact Hg|].
    split; [now apply codec_facts.Unmarshal_Marshal|].
    intros r0 ->. reflexivity.
Qed.

(** X9.  With a gzip that works (it cannot fail on a buffer in memory),
    every method delivers its argument: [http.NewRequest] is called
    once, with POST, the URL of the method and a body that,
    decompressed where [Query] compressed it, unmarshals into the
    record the caller passed, provided the strings of the record are
    valid UTF-8; and the request [http.NewRequest] returns for that
    call is the one handed to the doer, with its headers set.  For
    [LogError] the record is the entry with the formatted text. *)
Theorem facade_delivers_payload (dash : Dashboard) :
  (forall d, gz_Write d = None) ->
  (forall d, exists buf, gz_Close d = Ok buf /\ gunzip buf = Some d) ->
  (forall build, json.valid Build.codec build ->
     delivers gunzip http_NewRequest dash "upload_build" Build.codec build
       (events (UploadBuild (L := lib) http_NewRequest http_DefaultClient_Do
                  dash (Some build))))
  /\ (forall crash, json.valid Crash.codec crash ->
        delivers gunzip http_NewRequest dash "report_crash" Crash.codec crash
          (events (ReportCrash (L := lib) http_NewRequest
                     http_DefaultClient_Do dash (Some crash))))
  /\ (forall repro, json.valid FailedRepro.codec repro ->
        delivers gunzip http_NewRequest dash "report_failed_repro" FailedRepro.codec repro
          (events (ReportFailedRepro (L := lib) http_NewRequest
                     http_DefaultClient_Do dash (Some repro))))
  /\ (forall name msg args,
        let entry := LogEntry.mk name (fmt_Sprintf msg args) in
        json.valid LogEntry.codec entry ->
        delivers gunzip http_NewRequest dash "log_error" LogEntry.codec entry
          (LogError (L := lib) http_NewRequest http_DefaultClient_Do
             fmt_Sprintf dash name msg args)).
Proof.
  intros Hw Hc.
  split; [|split; [|split]]; intros.
  - apply query_delivers; auto. apply (reply_facts.codec_of_lawful TBuild).
  - apply query_delivers; auto. apply (reply_facts.codec_of_lawful TCrash).
  - apply query_delivers; auto.
    apply (reply_facts.codec_of_lawful TFailedRepro).
  - apply query_delivers; auto. apply (reply_facts.codec_of_lawful TLogEntry).
Qed.

(** X10.  A [nil] pointer is a payload like another: given [nil], a
    method still makes its request.  [http.NewRequest] is called with
    the four bytes [null] as the body, never compressed, and the
    request it returns is handed to the doer with its Content-Type
    set. *)
Theorem facade_nil_payload (dash : Dashboard) :
  let null := json.bytes_of "null" in
  let made method (tr : list event) :=
    let u := api_url (Client dash) (Addr dash) (Key dash) method in
    ctor_calls tr = [("POST", u, Some null)]
    /\ forall r0, http_NewRequest "POST" u (Some null) = Ok r0 ->
         sent tr = [set_header r0 "Content-Type" "application/json"] in
  made "upload_build"
    (events (UploadBuild (L := lib) http_NewRequest http_DefaultClient_Do
               dash None))
  /\ made "report_crash"
       (events (ReportCrash (L := lib) http_NewRequest
                  http_DefaultClient_Do dash None))
  /\ made "report_failed_repro"
       (events (ReportFailedRepro (L := lib) http_NewRequest
                  http_DefaultClient_Do dash None)).
Proof.
  cbv zeta. unfold UploadBuild, ReportCrash, ReportFailedRepro, query.
  rewrite !Query_unfold. cbn [json_Marshal lib go_library].
  change (marshal_payload (PBuild None)) with (json.bytes_of "null").
  change (marshal_payload (PCrash None)) with (json.bytes_of "null").
  change (marshal_payload (PFailedRepro None)) with (json.bytes_of "null").
  replace (uncompressed (Addr dash) (json.bytes_of "null")) with true
    by reflexivity.
  rewrite !round_trip_ctor_calls, !round_trip_sent.
  repeat split; intros r0 ->; reflexivity.
Qed.

End FacadeWire.

(** * More sample calls *)

Section MoreSamples.

Import example sample.

Ltac valid_fields :=
  repeat lazymatch goal with
    | |- Forall _ _ => constructor
    | |- True => exact I
    | |- _ = true => vm_compute; reflexivity
    | |- (_ <= _ <= _)%Z => vm_compute; split; discriminate
    | |- _ => progress hnf
    end.

(** The header a constructor sets reaches the doer. *)
Lemma Query_keeps_other_headers_witness :
  let o := Query (L := lib LogEntry.codec) "syz-manager" addr "secret"
             "log_error" ctor_agent double.doer_fail
             (Some (PLogEntry (Some entry))) None in
  In entry_request (sent (events o))
  /\ ReqHeader entry_request !! "User-Agent" = Some ["syz-manager"].
Proof.
  intros o.
  assert (Hin : In entry_request (sent (events o)))
    by (left; vm_compute; reflexivity).
  split; [exact Hin|].
  rewrite (Query_keeps_other_headers (L := lib LogEntry.codec)
             "syz-manager" addr "secret" "log_error" ctor_agent
             double.doer_fail (Some (PLogEntry (Some entry))) None
             (api_url "syz-manager" addr "secret" "log_error")
             (Some (json.Marshal LogEntry.codec entry))
             (mkRequest "POST"
                (api_url "syz-manager" addr "secret" "log_error")
                {["User-Agent" := ["syz-manager"]]}
                (Some (json.Marshal LogEntry.codec entry)))
             entry_request "User-Agent").
  - reflexivity.
  - left. vm_compute. reflexivity.
  - reflexivity.
  - exact Hin.
  - discriminate.
  - discriminate.
Defined.

(** A 200 answer without a body, when a reply is expected. *)
Lemma Query_empty_body_witness :
  let o := Query (L := go_library LogEntry.codec double.gzip_Write
                         double.gzip_Close)
             (Client dash) (Addr dash) (Key dash) "poll" double.ctor_ok
             (double.doer_reply 200 "200 OK" (mkReader [] None))
             None (Some entry) in
  returned o = Some "failed to unmarshal response: EOF"
  /\ reply_after o = Some entry.
Proof.
  apply (Query_empty_body LogEntry.codec double.gzip_Write double.gzip_Close
           (Client dash) (Addr dash) (Key dash) "poll" double.ctor_ok
           (double.doer_reply 200 "200 OK" (mkReader [] None))
           None entry (bare_request "poll")
           (mkResponse "200 OK" 200 (mkReader [] None))).
  - left. vm_compute. reflexivity.
  - reflexivity.
  - reflexivity.
  - reflexivity.
Defined.

(** A report followed by other bytes, decoded over a reply that held
    another report. *)
Lemma Query_delivers_reply_witness :
  let o := Query (L := go_library BugReport.codec double.gzip_Write
                         double.gzip_Close)
             (Client dash) (Addr dash) (Key dash) "poll" double.ctor_ok
             (double.doer_reply 200 "200 OK"
                (mkReader reply_and_more (Some "connection reset")))
             None (Some stale_report) in
  returned o = None /\ reply_after o = Some report.
Proof.
  apply (Query_delivers_reply TBugReport double.gzip_Write
           double.gzip_Close
           (Client dash) (Addr dash) (Key dash) "poll" double.ctor_ok
           (double.doer_reply 200 "200 OK"
              (mkReader reply_and_more (Some "connection reset")))
           None stale_report report (json.bytes_of " and more")
           (bare_request "poll")
           (mkResponse "200 OK" 200
              (mkReader reply_and_more (Some "connection reset")))).
  - left. vm_compute. reflexivity.
  - reflexivity.
  - reflexivity.
  - exact I.
  - valid_fields.
  - reflexivity.
Defined.

(** An empty object for an answer. *)
Lemma Query_empty_object_reply_witness :
  let o := Query (L := go_library LogEntry.codec double.gzip_Write
                         double.gzip_Close)
             (Client dash) (Addr dash) (Key dash) "poll" double.ctor_ok
             (double.doer_reply 200 "200 OK"
                (mkReader [x20; x7b; x7d; x0a] None))
             None (Some entry) in
  returned o = None /\ reply_after o = Some entry.
Proof.
  apply (Query_empty_object_reply TLogEntry double.gzip_Write
           double.gzip_Close
           (Client dash) (Addr dash) (Key dash) "poll" double.ctor_ok
           (double.doer_reply 200 "200 OK"
              (mkReader [x20; x7b; x7d; x0a] None))
           None entry [x20] [x0a] (bare_request "poll")
           (mkResponse "200 OK" 200 (mkReader [x20; x7b; x7d; x0a] None))).
  - left. vm_compute. reflexivity.
  - reflexivity.
  - reflexivity.
  - reflexivity.
  - reflexivity.
Defined.

(** A long log entry, compressed on its way. *)
Lemma facade_delivers_payload_witness :
  delivers double.gunzip double.ctor_ok dash "log_error" LogEntry.codec long_entry
    (LogError (L := go_library LogEntry.codec double.gzip_Write
                      double.gzip_Close)
       double.ctor_ok double.doer_fail (fun msg (_ : list unit) => msg)
       dash (LogEntry.Name long_entry) (LogEntry.Text long_entry) []).
Proof.
  apply (facade_delivers_payload LogEntry.codec double.gzip_Write
           double.gzip_Close double.gunzip double.ctor_ok double.doer_fail
           (fun msg (_ : list unit) => msg) dash).
  - reflexivity.
  - intros d. eexists. split; reflexivity.
  - valid_fields.
Defined.

(** A body cut in the middle of a document. *)
Lemma Query_malformed_reply_witness :
  let o := Query (L := go_library LogEntry.codec double.gzip_Write
                         double.gzip_Close)
             (Client dash) (Addr dash) (Key dash) "poll" double.ctor_ok
             (double.doer_reply 200 "200 OK" (mkReader truncated_reply None))
             None (Some entry) in
  (exists e, returned o = Some ("failed to unmarshal response: " +:+ e))
  /\ reply_after o = Some entry.
Proof.
  apply (Query_malformed_reply LogEntry.codec double.gzip_Write
           double.gzip_Close
           (Client dash) (Addr dash) (Key dash) "poll" double.ctor_ok
           (double.doer_reply 200 "200 OK" (mkReader truncated_reply None))
           None entry (bare_request "poll")
           (mkResponse "200 OK" 200 (mkReader truncated_reply None))).
  - left. vm_compute. reflexivity.
  - reflexivity.
  - reflexivity.
  - left. vm_compute. reflexivity.
Defined.

(** A list of reports where a poll response is expected. *)
Lemma Query_array_reply_witness :
  let o := Query (L := go_library PollResponse.codec double.gzip_Write
                         double.gzip_Close)
             (Client dash) (Addr dash) (Key dash) "poll" double.ctor_ok
             (double.doer_reply 200 "200 OK" (mkReader bare_list None))
             None (Some poll_response) in
  returned o
  = Some "failed to unmarshal response: json: cannot unmarshal array into Go value of type dashapi.PollResponse"
  /\ reply_after o = Some poll_response.
Proof.
  destruct (Query_array_reply TPollResponse double.gzip_Write
              double.gzip_Close
              (Client dash) (Addr dash) (Key dash) "poll" double.ctor_ok
              (double.doer_reply 200 "200 OK" (mkReader bare_list None))
              None poll_response [json.encode BugReport.codec report] []
              (bare_request "poll")
              (mkResponse "200 OK" 200 (mkReader bare_list None)))
    as (H1 & H2 & _).
  - left. vm_compute. reflexivity.
  - reflexivity.
  - reflexivity.
  - vm_compute. reflexivity.
  - vm_compute. discriminate.
  - split; [exact H1 | exact H2].
Defined.

End MoreSamples.
